(** * Topic clustering and hierarchy engine of lbs-knowledge-graph

    A shallow embedding of
      - [src/enrichment/topic_clusterer.py]          (TopicClusterer),
      - [src/enrichment/topic_hierarchy_builder.py]  (TopicHierarchyBuilder),
      - [src/enrichment/topic_analysis.py]           (TopicAnalysis),
    and the properties of these functions.

    Conventions.  Python [int] is [Z] or [nat] (a [len] is a [nat]); Python
    [float] is an exact rational [Q] where only [+ * / min] and comparisons
    are involved (rounding is not modelled; the centrality score is also
    given on binary64 numbers) and a real number where [log2] is needed;
    [str] is [string]; a [dict] used as a map is a [gmap]; small
    literal dicts attached to edges are association lists; a Python [set] of
    ids is a [gset].  A function that can raise returns its exception in a
    sum type, a function whose Python recursion is not structural takes
    fuel and returns [None] when the fuel runs out. *)

From Stdlib Require Import ZArith QArith Qminmax String Ascii List Lia.
From Stdlib Require Import Reals Lra Lqa Floats Uint63 Sorted.
From stdpp Require Import gmap strings list fin_maps.

Local Open Scope string_scope.

(** ** The graph store

    [..graph.mgraph_compat] is imported by the enrichment modules but is not
    part of the sources at hand. *)

Module Store.

(** An attribute dictionary attached to an edge, e.g. [{'similarity': s}]. *)
Definition attrs := list (string * Q).

Record MNode := mkNode {
  node_id   : string;
  node_type : string;
  node_name : option string              (* data.get('name') *)
}.

Record MEdge := mkEdge {
  from_node : string;
  to_node   : string;
  edge_type : string;
  edge_data : attrs
}.

(** Modelled from the spec: the graph store [MGraph] (section 6 of the
    specification): [query], [get_edges], [add_edge] ("always inserts, no
    upsert/merge semantics") and [add_node] ("upserts/replaces"), plus
    [get_node], which yields nothing for an absent id.  The store keeps,
    under each node id, the node's type and name; edges are kept in
    insertion order. *)
Record MGraph := mkGraph {
  nodes : gmap string (string * option string);
  edges : list MEdge
}.

Definition node_at (entry : string * (string * option string)) : MNode :=
  mkNode (fst entry) (fst (snd entry)) (snd (snd entry)).

Definition get_node (g : MGraph) (id : string) : option MNode :=
  match nodes g !! id with
  | Some d => Some (node_at (id, d))
  | None => None
  end.

Definition add_node (g : MGraph) (n : MNode) : MGraph :=
  mkGraph (<[node_id n := (node_type n, node_name n)]> (nodes g)) (edges g).

Definition add_edge (g : MGraph) (src dst ty : string) (d : attrs) : MGraph :=
  mkGraph (nodes g) (edges g ++ [mkEdge src dst ty d])%list.

Definition opt_matches (o : option string) (s : string) : bool :=
  match o with
  | None => true
  | Some x => bool_decide (x = s)
  end.

Definition edge_matches (src dst ty : option string) (e : MEdge) : bool :=
  opt_matches src (from_node e) && opt_matches dst (to_node e)
    && opt_matches ty (edge_type e).

(** [get_edges(from_node_id=?, to_node_id=?, edge_type=?)] *)
Definition get_edges (g : MGraph) (src dst ty : option string) : list MEdge :=
  List.filter (edge_matches src dst ty) (edges g).

(** [query(node_type=ty)] *)
Definition query (g : MGraph) (ty : string) : list MNode :=
  List.filter (fun n => bool_decide (node_type n = ty))
              (map node_at (map_to_list (nodes g))).

Definition graph_of (ns : list MNode) (es : list MEdge) : MGraph :=
  mkGraph (list_to_map
             (map (fun n => (node_id n, (node_type n, node_name n))) ns)) es.

End Store.
Import Store.

(** ** Python exceptions and [format] *)

Inductive exn :=
| ValueError (msg : string)
| TypeError (msg : string)
| KeyError (key : string)
| RecursionError.

(** The outcome of a call made for its effect on the graph: it returns
    (having logged the given warnings) or it raises. *)
Inductive outcome :=
| Returned (warnings : list string)
| Raised (e : exn).

Module PyFormat.

Definition is_align (c : ascii) : bool :=
  match c with
  | "<"%char | ">"%char | "="%char | "^"%char => true
  | _ => false
  end.

Definition is_digit (c : ascii) : bool :=
  let n := nat_of_ascii c in (48 <=? n)%nat && (n <=? 57)%nat.

Definition is_float_type (c : ascii) : bool :=
  match c with
  | "e"%char | "E"%char | "f"%char | "F"%char
  | "g"%char | "G"%char | "n"%char | "%"%char => true
  | _ => false
  end.

Definition skip_if (p : ascii -> bool) (s : string) : string :=
  match s with
  | String c r => if p c then r else s
  | EmptyString => s
  end.

Fixpoint skip_while (p : ascii -> bool) (s : string) : string :=
  match s with
  | String c r => if p c then skip_while p r else s
  | EmptyString => s
  end.

Definition skip_fill_align (s : string) : string :=
  match s with
  | String c (String a r) =>
      if is_align a then r else if is_align c then String a r else s
  | String c r => if is_align c then r else s
  | EmptyString => s
  end.

(** The standard format specification mini-language
    [[[fill]align][sign][z][#][0][width][grouping][.precision][type]]
    as [float.__format__] reads it: [None] when the specification is
    accepted, otherwise the [ValueError] raised. *)
Definition float_spec_error (spec : string) : option exn :=
  let s := skip_fill_align spec in
  let s := skip_if (fun c => match c with
                             | "+"%char | "-"%char | " "%char => true
                             | _ => false end) s in
  let s := skip_if (Ascii.eqb "z") s in
  let s := skip_if (Ascii.eqb "#") s in
  let s := skip_if (Ascii.eqb "0") s in
  let s := skip_while is_digit s in
  let s := skip_if (fun c => Ascii.eqb c "," || Ascii.eqb c "_") s in
  let after_precision :=
    match s with
    | String "."%char r =>
        match r with
        | String d _ =>
            if is_digit d then inr (skip_while is_digit r)
            else inl (ValueError "Format specifier missing precision")
        | EmptyString => inl (ValueError "Format specifier missing precision")
        end
    | _ => inr s
    end in
  match after_precision with
  | inl e => Some e
  | inr EmptyString => None
  | inr (String t EmptyString) =>
      if is_float_type t then None
      else Some (ValueError "Unknown format code for object of type 'float'")
  | inr _ => Some (ValueError "Invalid format specifier")
  end.

(** [format(v, spec)] for [v] a float ([Some q]) or [None]; only whether it
    raises matters to the callers (the text goes to the debug log). *)
Definition format_error (v : option Q) (spec : string) : option exn :=
  match v with
  | Some _ => float_spec_error spec
  | None =>
      match spec with
      | EmptyString => None
      | _ => Some (TypeError "unsupported format string passed to NoneType.__format__")
      end
  end.

End PyFormat.

(** ** TopicHierarchyBuilder *)

Module HierarchyBuilder.

Record config := mkConfig {
  similarity_threshold : Q;
  related_threshold    : Q
}.

(** [create_subtopic_edge(child_id, parent_id, similarity=None)].  The
    replacement field of the final debug f-string is
    [{similarity:.3f if similarity else 'N/A'}]: everything after the
    colon is the format specification, and the f-string is evaluated
    before [logger.debug] is called. *)
Definition create_subtopic_edge (g : MGraph) (child_id parent_id : string)
    (similarity : option Q) : MGraph * outcome :=
  match get_node g child_id with
  | None => (g, Returned ["Child topic not found: " ++ child_id])
  | Some child_node =>
    match get_node g parent_id with
    | None => (g, Returned ["Parent topic not found: " ++ parent_id])
    | Some parent_node =>
        let edge_data : attrs :=
          match similarity with
          | Some s => [("similarity", s)]
          | None => []
          end in
        let g' := add_edge g child_id parent_id "SUBTOPIC_OF" edge_data in
        match PyFormat.format_error similarity ".3f if similarity else 'N/A'" with
        | Some e => (g', Raised e)
        | None => (g', Returned [])
        end
    end
  end.

(** [create_related_topic_edge(topic1_id, topic2_id, similarity)]; the
    debug f-string ends in [{similarity:.3f}]. *)
Definition create_related_topic_edge (g : MGraph) (topic1_id topic2_id : string)
    (similarity : Q) : MGraph * outcome :=
  match get_node g topic1_id, get_node g topic2_id with
  | Some topic1, Some topic2 =>
      let edge_data : attrs := [("similarity", similarity)] in
      let g1 := add_edge g topic1_id topic2_id "RELATED_TOPIC" edge_data in
      let g2 := add_edge g1 topic2_id topic1_id "RELATED_TOPIC" edge_data in
      match PyFormat.format_error (Some similarity) ".3f" with
      | Some e => (g2, Raised e)
      | None => (g2, Returned [])
      end
  | _, _ =>
      (g, Returned ["Topic not found: " ++ topic1_id ++ " or " ++ topic2_id])
  end.

(** [calculate_centrality(topic_id)] *)
Definition calculate_centrality (g : MGraph) (topic_id : string) : Q :=
  let outgoing_has_topic :=
    length (get_edges g None (Some topic_id) (Some "HAS_TOPIC")) in
  let incoming_subtopic :=
    length (get_edges g None (Some topic_id) (Some "SUBTOPIC_OF")) in
  let related_topics :=
    length (get_edges g (Some topic_id) None (Some "RELATED_TOPIC")) in
  let max_has_topic := 10%Q in
  let max_subtopics := 5%Q in
  let max_related := 10%Q in
  let has_topic_score :=
    Qmin (inject_Z (Z.of_nat outgoing_has_topic) / max_has_topic) 1 in
  let subtopic_score :=
    Qmin (inject_Z (Z.of_nat incoming_subtopic) / max_subtopics) 1 in
  let related_score :=
    Qmin (inject_Z (Z.of_nat related_topics) / max_related) 1 in
  (0.5 * has_topic_score + 0.3 * subtopic_score + 0.2 * related_score)%Q.


(** Python's [min(a, b)] on floats: [a] unless [b < a]. *)
Definition py_min (a b : float) : float := if (b <? a)%float then b else a.

(** The arithmetic of [calculate_centrality] on IEEE 754 binary64 numbers,
    as Python carries it out, from the three edge counts. *)
Definition centrality_binary64 (outgoing_has_topic incoming_subtopic
    related_topics : Z) : float :=
  let has_topic_score :=
    py_min (of_uint63 (Uint63.of_Z outgoing_has_topic) / 10) 1 in
  let subtopic_score :=
    py_min (of_uint63 (Uint63.of_Z incoming_subtopic) / 5) 1 in
  let related_score :=
    py_min (of_uint63 (Uint63.of_Z related_topics) / 10) 1 in
  (0.5 * has_topic_score + 0.3 * subtopic_score + 0.2 * related_score)%float.

(** [tuple(sorted([topic1_id, topic2_id]))]: the two ids in ascending
    order (Python swaps only when the second is strictly smaller). *)
Definition pair_key (a b : string) : string * string :=
  if String.ltb b a then (b, a) else (a, b).

(** [d.get((a, b))], falling back on [d.get((b, a))] when it is [None]. *)
Definition lookup_similarity (topic_similarities : gmap (string * string) Q)
    (a b : string) : option Q :=
  match topic_similarities !! (a, b) with
  | Some s => Some s
  | None => topic_similarities !! (b, a)
  end.

(** The variables the loops of [build_related_topics] update. *)
Record related_state := mkRelated {
  st_graph      : MGraph;
  st_edge_count : nat;
  st_processed  : gset (string * string)
}.

(** The body of the inner loop; [inr] carries an exception out. *)
Definition related_step (cfg : config)
    (topic_similarities : gmap (string * string) Q)
    (topic1_id topic2_id : string) (st : related_state)
    : related_state + MGraph * exn :=
  let pair := pair_key topic1_id topic2_id in
  if bool_decide (pair ∈ st_processed st) then inl st
  else
    match lookup_similarity topic_similarities topic1_id topic2_id with
    | None => inl st
    | Some similarity =>
        if Qle_bool (related_threshold cfg) similarity then
          match create_related_topic_edge (st_graph st) topic1_id topic2_id
                                          similarity with
          | (g', Returned _) =>
              inl (mkRelated g' (S (st_edge_count st))
                             ({[pair]} ∪ st_processed st))
          | (g', Raised e) => inr (g', e)
          end
        else inl st
    end.

(** [for topic2_id in topic_ids[i+1:]] *)
Fixpoint related_inner (cfg : config)
    (topic_similarities : gmap (string * string) Q)
    (topic1_id : string) (rest : list string) (st : related_state)
    : related_state + MGraph * exn :=
  match rest with
  | [] => inl st
  | topic2_id :: rest' =>
      match related_step cfg topic_similarities topic1_id topic2_id st with
      | inl st' => related_inner cfg topic_similarities topic1_id rest' st'
      | inr e => inr e
      end
  end.

(** [for i, topic1_id in enumerate(topic_ids)] *)
Fixpoint related_outer (cfg : config)
    (topic_similarities : gmap (string * string) Q)
    (topic_ids : list string) (st : related_state)
    : related_state + MGraph * exn :=
  match topic_ids with
  | [] => inl st
  | topic1_id :: rest =>
      match related_inner cfg topic_similarities topic1_id rest st with
      | inl st' => related_outer cfg topic_similarities rest st'
      | inr e => inr e
      end
  end.

(** [build_related_topics(topic_ids, topic_similarities)]: the graph
    afterwards and the returned count, or the exception raised. *)
Definition build_related_topics (cfg : config) (g : MGraph)
    (topic_ids : list string)
    (topic_similarities : gmap (string * string) Q) : MGraph * (exn + nat) :=
  match related_outer cfg topic_similarities topic_ids (mkRelated g 0 ∅) with
  | inl st => (st_graph st, inr (st_edge_count st))
  | inr (g', e) => (g', inl e)
  end.

(** The loop over [parent_edges] in [_get_topic_depth], given the
    recursive call [depth_of]. *)
Fixpoint max_parent_depth (depth_of : string -> option nat)
    (parent_edges : list MEdge) (acc : nat) : option nat :=
  match parent_edges with
  | [] => Some acc
  | edge :: rest =>
      match depth_of (to_node edge) with
      | None => None
      | Some parent_depth =>
          max_parent_depth depth_of rest (Nat.max acc parent_depth)
      end
  end.

(** [_get_topic_depth(topic_id, visited)]; [None] when the fuel (the
    depth of Python's call stack) is used up. *)
Fixpoint _get_topic_depth (fuel : nat) (g : MGraph) (topic_id : string)
    (visited : gset string) : option nat :=
  match fuel with
  | O => None
  | S fuel' =>
      if bool_decide (topic_id ∈ visited) then Some 0%nat
      else
        let visited := {[topic_id]} ∪ visited in
        let parent_edges :=
          get_edges g (Some topic_id) None (Some "SUBTOPIC_OF") in
        match parent_edges with
        | [] => Some 0%nat
        | _ =>
            match max_parent_depth
                    (fun p => _get_topic_depth fuel' g p visited)
                    parent_edges 0 with
            | Some d => Some (d + 1)%nat
            | None => None
            end
        end
  end.

(** [_calculate_max_depth()] *)
Fixpoint max_depth_loop (fuel : nat) (g : MGraph) (topic_nodes : list MNode)
    (max_depth : nat) : option nat :=
  match topic_nodes with
  | [] => Some max_depth
  | topic :: rest =>
      match _get_topic_depth fuel g (node_id topic) ∅ with
      | None => None
      | Some depth => max_depth_loop fuel g rest (Nat.max max_depth depth)
      end
  end.

Definition _calculate_max_depth (fuel : nat) (g : MGraph) : option nat :=
  max_depth_loop fuel g (query g "Topic") 0.

(** The [while True] loop of [get_topic_path]; [None] when the fuel (the
    number of iterations allowed) is used up. *)
Fixpoint topic_path_loop (fuel : nat) (g : MGraph) (current_id : string)
    (path : list string) (visited : gset string) : option (list string) :=
  match fuel with
  | O => None
  | S fuel' =>
      match get_edges g (Some current_id) None (Some "SUBTOPIC_OF") with
      | [] => Some path
      | first :: _ =>
          let parent_id := to_node first in
          if bool_decide (parent_id ∈ visited) then Some path
          else topic_path_loop fuel' g parent_id (path ++ [parent_id])%list
                               ({[parent_id]} ∪ visited)
      end
  end.

Definition get_topic_path (fuel : nat) (g : MGraph) (topic_id : string)
    : option (list string) :=
  topic_path_loop fuel g topic_id [topic_id] {[topic_id]}.

(** Fuel that always suffices for the two traversals (shown below). *)
Definition traversal_fuel (g : MGraph) : nat := length (edges g) + 2.

Record hierarchy_statistics := mkStats {
  total_topics        : nat;
  root_topics         : nat;
  child_topics        : nat;
  orphan_topics       : Z;
  subtopic_edges      : nat;
  related_topic_edges : nat;
  hierarchy_depth     : nat
}.

(** The variables the loop of [get_hierarchy_statistics] updates. *)
Record counters := mkCounters {
  c_subtopic_edges : nat;
  c_related_edges  : nat;
  c_root_topics    : gset string;
  c_child_topics   : gset string
}.

Definition count_topic (g : MGraph) (c : counters) (topic : MNode) : counters :=
  let tid := node_id topic in
  let children := get_edges g None (Some tid) (Some "SUBTOPIC_OF") in
  let roots :=
    match children with
    | [] => c_root_topics c
    | _ => {[tid]} ∪ c_root_topics c
    end in
  let parents := get_edges g (Some tid) None (Some "SUBTOPIC_OF") in
  let '(childs, sub) :=
    match parents with
    | [] => (c_child_topics c, c_subtopic_edges c)
    | _ => ({[tid]} ∪ c_child_topics c,
            (c_subtopic_edges c + length parents)%nat)
    end in
  let related := get_edges g (Some tid) None (Some "RELATED_TOPIC") in
  mkCounters sub (c_related_edges c + length related)%nat roots childs.

(** [get_hierarchy_statistics()] *)
Definition get_hierarchy_statistics (fuel : nat) (g : MGraph)
    : option hierarchy_statistics :=
  let topic_nodes := query g "Topic" in
  let num_topics := length topic_nodes in
  let c := fold_left (count_topic g) topic_nodes (mkCounters 0 0 ∅ ∅) in
  let related_edges := (c_related_edges c / 2)%nat in
  match _calculate_max_depth fuel g with
  | None => None
  | Some depth =>
      Some (mkStats num_topics
              (size (c_root_topics c))
              (size (c_child_topics c))
              (Z.of_nat num_topics - Z.of_nat (size (c_root_topics c))
                 - Z.of_nat (size (c_child_topics c)))%Z
              (c_subtopic_edges c)
              related_edges
              depth)
  end.

(** What the statistics call a root, a child and an orphan, read off the
    graph directly. *)
Definition has_children (g : MGraph) (tid : string) : bool :=
  match get_edges g None (Some tid) (Some "SUBTOPIC_OF") with
  | [] => false | _ => true end.

Definition has_parent (g : MGraph) (tid : string) : bool :=
  match get_edges g (Some tid) None (Some "SUBTOPIC_OF") with
  | [] => false | _ => true end.

(** Number of topics with neither children nor a parent. *)
Definition orphans_direct (g : MGraph) : nat :=
  length (List.filter
            (fun n => negb (has_children g (node_id n))
                      && negb (has_parent g (node_id n)))
            (query g "Topic")).

(** Number of topics that have both children and a parent. *)
Definition both_root_and_child (g : MGraph) : nat :=
  length (List.filter
            (fun n => has_children g (node_id n) && has_parent g (node_id n))
            (query g "Topic")).

End HierarchyBuilder.

(** ** Numeric helpers (numpy on rationals) *)

Module Num.

Definition matrix := list (list Q).

(** [m[i, j]]; the callers only use indices that are in range. *)
Definition mat_get (m : matrix) (i j : nat) : Q := nth j (nth i m []) 0%Q.

(** [m[np.ix_(idxs, idxs)]] *)
Definition submatrix (m : matrix) (idxs : list nat) : matrix :=
  map (fun i => map (fun j => mat_get m i j) idxs) idxs.

Definition Qsum (l : list Q) : Q := fold_right Qplus 0%Q l.

(** [np.mean]; the mean of nothing is [nan] in numpy and [0] here. *)
Definition mean (l : list Q) : Q := (Qsum l / inject_Z (Z.of_nat (length l)))%Q.

(** [m[np.triu_indices_from(m, k=1)]]: the entries above the diagonal. *)
Definition upper_triangle (m : matrix) : list Q :=
  concat (imap (fun i row => drop (S i) row) m).

(** [argmax]: the first position holding the greatest value. *)
Fixpoint argmax_from (l : list Q) (pos best_pos : nat) (best : Q) : nat :=
  match l with
  | [] => best_pos
  | x :: l' =>
      if Qle_bool x best then argmax_from l' (S pos) best_pos best
      else argmax_from l' (S pos) pos x
  end.

Definition argmax (l : list Q) : nat :=
  match l with
  | [] => 0%nat
  | x :: l' => argmax_from l' 1 0 x
  end.

Definition clip01 (x : Q) : Q := Qmax 0 (Qmin x 1).

Definition fill_diagonal (m : matrix) (v : Q) : matrix :=
  imap (fun i row => imap (fun j x => if Nat.eqb i j then v else x) row) m.

End Num.
Import Num.

(** ** TopicClusterer *)

Module Clusterer.

Record Topic := mkTopic {
  id        : string;
  name      : string;
  frequency : Z;
  embedding : option (list Q);
  category  : option string;
  level     : Z
}.

Definition set_level (t : Topic) (l : Z) : Topic :=
  mkTopic (id t) (name t) (frequency t) (embedding t) (category t) l.

Record TopicCluster := mkCluster {
  cluster_id     : nat;
  topics         : list Topic;
  centroid_topic : Topic;
  avg_similarity : Q;
  size           : nat
}.

Record config := mkConfig {
  similarity_threshold : Q;
  min_cluster_size     : nat;
  max_cluster_size     : nat
}.

(** [np.where(cluster_labels == label)[0]] *)
Definition where_label (cluster_labels : list nat) (label : nat) : list nat :=
  map fst (List.filter (fun p => Nat.eqb (snd p) label)
                       (imap (fun i l => (i, l)) cluster_labels)).

(** The labels of [set(cluster_labels)], each once, in ascending order (the
    order in which CPython iterates a set of small integers). *)
Definition unique_labels (cluster_labels : list nat) : list nat :=
  List.filter (fun l => existsb (Nat.eqb l) cluster_labels)
              (seq 0 (S (list_max cluster_labels))).

Section External.

(** [sklearn.metrics.pairwise.cosine_similarity] on the rows given. *)
Variable cosine_similarity : list (list Q) -> matrix.

(** [scipy]'s [fcluster(linkage(squareform(D), method='average'), t,
    criterion='distance')]: one label per row of the distance matrix [D]. *)
Variable average_linkage_cut : matrix -> Q -> list nat.

(** [_compute_similarity_matrix(topics)]; [None] when an embedding is
    missing (sklearn then raises). *)
Definition _compute_similarity_matrix (topics : list Topic) : option matrix :=
  match mapM embedding topics with
  | Some embeddings => Some (cosine_similarity embeddings)
  | None => None
  end.

(** [_hierarchical_clustering(topics, similarity_matrix)] *)
Definition _hierarchical_clustering (cfg : config) (topics : list Topic)
    (similarity_matrix : matrix) : list nat :=
  let distance_matrix := map (map (fun s => 1 - s)%Q) similarity_matrix in
  let distance_matrix := fill_diagonal distance_matrix 0 in
  let distance_matrix := map (map clip01) distance_matrix in
  let threshold := (1 - similarity_threshold cfg)%Q in
  average_linkage_cut distance_matrix threshold.

(** The [for label in unique_labels] loop of [_create_clusters];
    [recurse] is the recursive call. *)
Fixpoint clusters_loop (cfg : config)
    (recurse : list Topic -> list nat -> matrix -> option (list TopicCluster))
    (topics : list Topic) (cluster_labels : list nat)
    (similarity_matrix : matrix)
    (labels : list nat) (clusters : list TopicCluster)
    : option (list TopicCluster) :=
  match labels with
  | [] => Some clusters
  | label :: labels' =>
      let cluster_indices := where_label cluster_labels label in
      let cluster_topics := omap (fun i => topics !! i) cluster_indices in
      if (length cluster_topics <? min_cluster_size cfg)%nat then
        clusters_loop cfg recurse topics cluster_labels similarity_matrix
                      labels' clusters
      else if (max_cluster_size cfg <? length cluster_topics)%nat then
        let sub_similarity := submatrix similarity_matrix cluster_indices in
        let sub_labels :=
          _hierarchical_clustering cfg cluster_topics sub_similarity in
        match recurse cluster_topics sub_labels sub_similarity with
        | None => None
        | Some sub_clusters =>
            clusters_loop cfg recurse topics cluster_labels similarity_matrix
                          labels' (clusters ++ sub_clusters)%list
        end
      else
        let cluster_sim_matrix := submatrix similarity_matrix cluster_indices in
        let avg_similarity := mean (upper_triangle cluster_sim_matrix) in
        let mean_similarities := map mean cluster_sim_matrix in
        let centroid_idx := argmax mean_similarities in
        match cluster_topics !! centroid_idx with
        | None =>
            (* an empty group: no label of the set is without a topic *)
            clusters_loop cfg recurse topics cluster_labels similarity_matrix
                          labels' clusters
        | Some centroid_topic =>
            let cluster :=
              mkCluster (length clusters + 1) cluster_topics centroid_topic
                        avg_similarity (length cluster_topics) in
            clusters_loop cfg recurse topics cluster_labels similarity_matrix
                          labels' (clusters ++ [cluster])%list
        end
  end.

(** [_create_clusters(topics, cluster_labels, similarity_matrix)]; [None]
    when the fuel (the depth of Python's call stack) is used up. *)
Fixpoint _create_clusters (cfg : config) (fuel : nat) (topics : list Topic)
    (cluster_labels : list nat) (similarity_matrix : matrix)
    : option (list TopicCluster) :=
  match fuel with
  | O => None
  | S fuel' =>
      clusters_loop cfg (_create_clusters cfg fuel')
                    topics cluster_labels similarity_matrix
                    (unique_labels cluster_labels) []
  end.

(** [cluster_topics(topics)] *)
Definition cluster_topics (cfg : config) (fuel : nat) (topics : list Topic)
    : option (list TopicCluster) :=
  if (length topics <? 2)%nat then Some []
  else
    let valid_topics :=
      List.filter (fun t => match embedding t with Some _ => true | None => false end)
                  topics in
    if (length valid_topics <? 2)%nat then Some []
    else
      match _compute_similarity_matrix valid_topics with
      | None => None
      | Some similarity_matrix =>
          let cluster_labels :=
            _hierarchical_clustering cfg valid_topics similarity_matrix in
          _create_clusters cfg fuel valid_topics cluster_labels similarity_matrix
      end.

(** *** build_hierarchy

    The topic objects are shared between [topics] and [sorted_topics] and
    are mutated through either; an object is referred to by its position in
    [topics], which holds distinct objects. *)

Definition ref := (nat * Topic)%type.

Definition enumerate (topics : list Topic) : list ref :=
  imap (fun i t => (i, t)) topics.

(** [sorted(topics, key=lambda t: t.frequency, reverse=True)]: the sort is
    stable, topics of equal frequency keep their order. *)
Fixpoint insert_desc (x : ref) (l : list ref) : list ref :=
  match l with
  | [] => [x]
  | y :: l' =>
      if (frequency (snd y) <=? frequency (snd x))%Z then x :: y :: l'
      else y :: insert_desc x l'
  end.

Definition sorted_by_frequency (l : list ref) : list ref :=
  fold_right insert_desc [] l.

(** [{t.id: i for i, t in enumerate(topics)}] *)
Definition make_topic_index (topics : list Topic) : gmap string nat :=
  fold_left (fun m (r : ref) => <[id (snd r) := fst r]> m) (enumerate topics) ∅.

Record hstate := mkH {
  hierarchy : gmap string (list string);
  levels    : gmap nat Z                 (* the [level] written to an object *)
}.

(** [for topic in root_topics: topic.level = 0; hierarchy[topic.id] = []] *)
Fixpoint assign_roots (root_topics : list ref) (st : hstate) : hstate :=
  match root_topics with
  | [] => st
  | topic :: rest =>
      assign_roots rest
        (mkH (<[id (snd topic) := []]> (hierarchy st))
             (<[fst topic := 0%Z]> (levels st)))
  end.

(** The inner loop [for root_topic in root_topics]; [None] is a
    [KeyError] of [topic_index]. *)
Fixpoint best_parent_loop (cfg : config) (similarity_matrix : matrix)
    (topic_index : gmap string nat) (topic_idx : nat)
    (root_topics : list ref) (max_sim : Q) (best_parent : option ref)
    : option (Q * option ref) :=
  match root_topics with
  | [] => Some (max_sim, best_parent)
  | root_topic :: rest =>
      match topic_index !! id (snd root_topic) with
      | None => None
      | Some root_idx =>
          let sim := mat_get similarity_matrix topic_idx root_idx in
          if negb (Qle_bool sim max_sim)
             && Qle_bool (similarity_threshold cfg) sim
          then best_parent_loop cfg similarity_matrix topic_index topic_idx
                                rest sim (Some root_topic)
          else best_parent_loop cfg similarity_matrix topic_index topic_idx
                                rest max_sim best_parent
      end
  end.

(** The loop [for topic in sorted_topics[root_count:]]; [None] is a
    [KeyError] of [topic_index] or of [hierarchy]. *)
Fixpoint assign_children (cfg : config) (similarity_matrix : matrix)
    (topic_index : gmap string nat) (root_topics : list ref)
    (rest : list ref) (st : hstate) : option hstate :=
  match rest with
  | [] => Some st
  | topic :: rest' =>
      match topic_index !! id (snd topic) with
      | None => None
      | Some topic_idx =>
          match best_parent_loop cfg similarity_matrix topic_index topic_idx
                                 root_topics (-1) None with
          | None => None
          | Some (_, Some best_parent) =>
              match hierarchy st !! id (snd best_parent) with
              | None => None
              | Some children =>
                  assign_children cfg similarity_matrix topic_index
                    root_topics rest'
                    (mkH (<[id (snd best_parent) := (children ++ [id (snd topic)])%list]>
                            (hierarchy st))
                         (<[fst topic := 1%Z]> (levels st)))
              end
          | Some (_, None) =>
              assign_children cfg similarity_matrix topic_index
                root_topics rest'
                (mkH (<[id (snd topic) := []]> (hierarchy st))
                     (<[fst topic := 0%Z]> (levels st)))
          end
      end
  end.

(** The topic objects after the call: those given a level carry it. *)
Definition apply_levels (lv : gmap nat Z) (topics : list Topic) : list Topic :=
  imap (fun i t => match lv !! i with
                   | Some l => set_level t l
                   | None => t
                   end) topics.

(** [build_hierarchy(topics)]: the returned dictionary and the topic
    objects afterwards; [None] when an exception is raised. *)
Definition build_hierarchy (cfg : config) (topics : list Topic)
    : option (gmap string (list string) * list Topic) :=
  let sorted_topics := sorted_by_frequency (enumerate topics) in
  let root_count := Nat.max 1 (length sorted_topics / 5) in
  let root_topics := take root_count sorted_topics in
  if (length topics <? 2)%nat then Some (∅, topics)
  else
    match _compute_similarity_matrix topics with
    | None => None
    | Some similarity_matrix =>
        let topic_index := make_topic_index topics in
        let st := assign_roots root_topics (mkH ∅ ∅) in
        match assign_children cfg similarity_matrix topic_index root_topics
                              (drop root_count sorted_topics) st with
        | None => None
        | Some st' => Some (hierarchy st', apply_levels (levels st') topics)
        end
    end.

End External.

End Clusterer.

(** ** A model of the external clustering routine

    Average-linkage agglomerative clustering on exact rationals, cut at
    distance [t]: the two closest groups (mean pairwise distance, the first
    such pair on a tie) are merged as long as their distance is at most [t].
    Average linkage has no inversions, so this is the flat clustering that
    [fcluster(linkage(.., 'average'), t, 'distance')] returns, up to the
    numbering of the labels and the handling of ties. *)

Module SciPy.

Definition cluster_distance (d : matrix) (a b : list nat) : Q :=
  mean (flat_map (fun i => map (fun j => mat_get d i j) b) a).

Definition index_pairs (k : nat) : list (nat * nat) :=
  flat_map (fun i => map (fun j => (i, j)) (seq (S i) (k - S i))) (seq 0 k).

Definition closer (d : matrix) (groups : list (list nat))
    (best : option (nat * nat * Q)) (p : nat * nat) : option (nat * nat * Q) :=
  let q := cluster_distance d (nth (fst p) groups []) (nth (snd p) groups []) in
  match best with
  | None => Some (p, q)
  | Some (_, bq) => if Qle_bool bq q then best else Some (p, q)
  end.

Definition closest_pair (d : matrix) (groups : list (list nat))
    : option (nat * nat * Q) :=
  fold_left (closer d groups) (index_pairs (length groups)) None.

Definition merge (i j : nat) (groups : list (list nat)) : list (list nat) :=
  let merged := (nth i groups [] ++ nth j groups [])%list in
  (take i groups ++ merged :: drop (S i) (take j groups) ++ drop (S j) groups)%list.

Fixpoint agglomerate (fuel : nat) (d : matrix) (t : Q)
    (groups : list (list nat)) : list (list nat) :=
  match fuel with
  | O => groups
  | S fuel' =>
      match closest_pair d groups with
      | Some ((i, j), q) =>
          if Qle_bool q t then agglomerate fuel' d t (merge i j groups)
          else groups
      | None => groups
      end
  end.

Fixpoint group_of (groups : list (list nat)) (i : nat) (pos : nat) : nat :=
  match groups with
  | [] => pos
  | grp :: rest =>
      if existsb (Nat.eqb i) grp then pos else group_of rest i (S pos)
  end.

Definition average_linkage_cut (d : matrix) (t : Q) : list nat :=
  let n := length d in
  let groups := agglomerate n d t (map (fun i => [i]) (seq 0 n)) in
  map (fun i => group_of groups i 1) (seq 0 n).

End SciPy.

(** ** TopicAnalysis *)

Module Analysis.

Record diversity_metrics := mkMetrics {
  total_pages            : nat;
  total_topics           : nat;
  topic_coverage         : R;
  avg_topics_per_page    : R;
  median_topics_per_page : R;
  max_topics_per_page    : nat;
  topic_entropy          : R;
  normalized_entropy     : R
}.

(** [np.log2] *)
Definition log2 (x : R) : R := (ln x / ln 2)%R.

Definition Rsum (l : list R) : R := fold_right Rplus 0%R l.

Definition Rmean (l : list nat) : R :=
  (INR (list_sum l) / INR (length l))%R.

Fixpoint insert_asc (x : nat) (l : list nat) : list nat :=
  match l with
  | [] => [x]
  | y :: l' => if (x <=? y)%nat then x :: y :: l' else y :: insert_asc x l'
  end.

(** [np.median] *)
Definition Rmedian (l : list nat) : R :=
  let s := fold_right insert_asc [] l in
  let n := length s in
  if Nat.even n
  then ((INR (nth (n / 2 - 1) s 0%nat) + INR (nth (n / 2) s 0%nat)) / 2)%R
  else INR (nth (n / 2) s 0%nat).

Definition positive (p : R) : bool := if Rlt_dec 0 p then true else false.

(** Number of incoming [HAS_TOPIC] edges of each topic. *)
Definition topic_frequencies (g : MGraph) (topic_nodes : list MNode) : list nat :=
  map (fun topic =>
         length (get_edges g None (Some (node_id topic)) (Some "HAS_TOPIC")))
      topic_nodes.

(** The entropy and the normalized entropy computed by
    [calculate_diversity_metrics] from the frequencies of [n] topics. *)
Definition entropy_pair (frequencies : list nat) (n : nat) : R * R :=
  let total_freq := list_sum frequencies in
  if (0 <? total_freq)%nat then
    let probabilities :=
      map (fun f => (INR f / INR total_freq)%R) frequencies in
    let probabilities := List.filter positive probabilities in
    let entropy :=
      (- Rsum (map (fun p => p * log2 p) probabilities))%R in
    let max_entropy := log2 (INR n) in
    (entropy,
     if Rlt_dec 0 max_entropy then (entropy / max_entropy)%R else 0%R)
  else (0%R, 0%R).

(** [calculate_diversity_metrics()]; [None] stands for the empty
    dictionary returned when there is no page or no topic. *)
Definition calculate_diversity_metrics (g : MGraph) : option diversity_metrics :=
  let page_nodes := query g "Page" in
  let topic_nodes := query g "Topic" in
  match page_nodes, topic_nodes with
  | [], _ | _, [] => None
  | _, _ =>
      let topics_per_page :=
        map (fun page =>
               length (get_edges g (Some (node_id page)) None (Some "HAS_TOPIC")))
            page_nodes in
      let pages_with_topics :=
        length (List.filter (fun k => (0 <? k)%nat) topics_per_page) in
      let e := entropy_pair (topic_frequencies g topic_nodes)
                            (length topic_nodes) in
      Some (mkMetrics (length page_nodes) (length topic_nodes)
              (INR pages_with_topics / INR (length page_nodes))%R
              (Rmean topics_per_page)
              (Rmedian topics_per_page)
              (list_max topics_per_page)
              (fst e) (snd e))
  end.

(** The base-2 Shannon entropy of a frequency distribution, summed over
    all its entries. *)
Definition shannon_entropy (frequencies : list nat) : R :=
  let total := INR (list_sum frequencies) in
  (- Rsum (map (fun f => (INR f / total) * log2 (INR f / total)) frequencies))%R.

End Analysis.

(** ** Definitions used in the statements and proofs below *)

Module Aux.

Import HierarchyBuilder.

(** The ids of the nodes of [l] that satisfy [p]. *)
Definition marked (p : string -> bool) (l : list MNode) : gset string :=
  list_to_set (map node_id (List.filter (fun n => p (node_id n)) l)).

(** The ids that SUBTOPIC_OF (or any other) edges of [g] point to. *)
Definition targets (g : MGraph) : gset string :=
  list_to_set (map to_node (edges g)).

(** The symmetric pair of RELATED_TOPIC edges created for [a], [b] with
    similarity [s]. *)
Definition related_edges (p : string * string * Q) : list MEdge :=
  [mkEdge (fst (fst p)) (snd (fst p)) "RELATED_TOPIC" [("similarity", snd p)];
   mkEdge (snd (fst p)) (fst (fst p)) "RELATED_TOPIC" [("similarity", snd p)]].

(** The normalized key of a created pair. *)
Definition key_of (p : string * string * Q) : string * string :=
  pair_key (fst (fst p)) (snd (fst p)).

(** The loop invariant of [build_related_topics] started on [g0]: the graph
    has gained the edge pairs of [created], the count is their number, and
    the processed keys are theirs. *)
Definition related_inv (g0 : MGraph) (st : related_state)
    (created : list (string * string * Q)) : Prop :=
  st_graph st
    = mkGraph (nodes g0) (edges g0 ++ flat_map related_edges created)%list
  /\ st_edge_count st = length created
  /\ (forall k, k ∈ st_processed st <-> k ∈ map key_of created)
  /\ NoDup (map key_of created).

(** What is known of a created pair: its similarity was found and reaches
    the threshold. *)
Definition sound (cfg : config) (sims : gmap (string * string) Q)
    (p : string * string * Q) : Prop :=
  lookup_similarity sims (fst (fst p)) (snd (fst p)) = Some (snd p)
  /\ (related_threshold cfg <= snd p)%Q.

(** The topics of [ts] that carry [label]. *)
Definition group (ts : list Clusterer.Topic) (labels : list nat) (label : nat)
    : list Clusterer.Topic :=
  omap (fun i => ts !! i) (Clusterer.where_label labels label).

(** A cluster respects the size bounds of the configuration. *)
Definition within_bounds (cfg : Clusterer.config) (c : Clusterer.TopicCluster)
    : Prop :=
  Clusterer.min_cluster_size cfg <= Clusterer.size c
  /\ Clusterer.size c <= Clusterer.max_cluster_size cfg
  /\ Clusterer.size c = length (Clusterer.topics c).

(** *** build_hierarchy *)

(** The id of the object a reference points to. *)
Definition idf (r : Clusterer.ref) : string := Clusterer.id (snd r).

(** The similarity of the object [t] to the root [r], read in the matrix at
    their positions in the input list. *)
Definition sim_to (M : matrix) (t r : Clusterer.ref) : Q :=
  mat_get M (fst t) (fst r).

(** The order of [sorted(..., reverse=True)]: higher frequency first, and
    among equal frequencies the earlier position first. *)
Definition freq_desc (x y : Clusterer.ref) : Prop :=
  (Clusterer.frequency (snd y) < Clusterer.frequency (snd x))%Z
  \/ (Clusterer.frequency (snd y) = Clusterer.frequency (snd x)
      /\ fst x < fst y).

(** [p] is the root of maximum similarity, the earliest one on a tie. *)
Definition is_best (sim : Clusterer.ref -> Q) (roots : list Clusterer.ref)
    (p : Clusterer.ref) : Prop :=
  exists before after,
    roots = (before ++ p :: after)%list
    /\ (forall r, r ∈ before -> (sim r < sim p)%Q)
    /\ (forall r, r ∈ after -> (sim r <= sim p)%Q).

(** The inner loop of [build_hierarchy] with each root's matrix index read
    off its reference instead of [topic_index]. *)
Fixpoint best_parent_from (thr : Q) (sim : Clusterer.ref -> Q)
    (roots : list Clusterer.ref) (max_sim : Q) (best : option Clusterer.ref)
    : Q * option Clusterer.ref :=
  match roots with
  | [] => (max_sim, best)
  | r :: rest =>
      if negb (Qle_bool (sim r) max_sim) && Qle_bool thr (sim r)
      then best_parent_from thr sim rest (sim r) (Some r)
      else best_parent_from thr sim rest max_sim best
  end.

(** The state [(max_sim, best_parent)] of the inner loop after the roots
    [seen]: either nothing was chosen, or the first maximum was. *)
Definition best_inv (thr : Q) (sim : Clusterer.ref -> Q)
    (seen : list Clusterer.ref) (s : Q * option Clusterer.ref) : Prop :=
  match snd s with
  | None =>
      fst s = (-1)%Q
      /\ forall r, r ∈ seen -> ~ ((-1 < sim r)%Q /\ (thr <= sim r)%Q)
  | Some p =>
      fst s = sim p /\ (thr <= sim p)%Q /\ is_best sim seen p
  end.

(** The parent [build_hierarchy] chooses for [t], if any. *)
Definition parent_of (cfg : Clusterer.config) (M : matrix)
    (roots : list Clusterer.ref) (t : Clusterer.ref) : option Clusterer.ref :=
  snd (best_parent_from (Clusterer.similarity_threshold cfg) (sim_to M t)
                        roots (-1) None).

(** The level [build_hierarchy] writes to [t]. *)
Definition level_of (cfg : Clusterer.config) (M : matrix)
    (roots : list Clusterer.ref) (t : Clusterer.ref) : Z :=
  match parent_of cfg M roots t with
  | Some _ => 1%Z
  | None => 0%Z
  end.

(** The keys and child lists held in a list of dictionary entries. *)
Definition entries_ids (entries : list (string * list string)) : list string :=
  (map fst entries ++ concat (map snd entries))%list.

(** The keys of a hierarchy followed by all its child lists. *)
Definition keys_and_children (h : gmap string (list string)) : list string :=
  entries_ids (map_to_list h).

(** The state of [build_hierarchy] once the roots [R] and the remaining
    topics [P] have been placed: the keys are the roots and the promoted
    topics, a topic with a parent is in that parent's child list, a promoted
    topic has no child, every placed id occurs once among keys and child
    lists, and every placed object carries its level. *)
Definition hinv (cfg : Clusterer.config) (M : matrix)
    (roots R P : list Clusterer.ref) (st : Clusterer.hstate) : Prop :=
  (forall k, is_Some (Clusterer.hierarchy st !! k)
             <-> k ∈ map idf R
                 \/ exists t, t ∈ P /\ parent_of cfg M roots t = None
                              /\ idf t = k)
  /\ (forall t p, t ∈ P -> parent_of cfg M roots t = Some p ->
        exists l, Clusterer.hierarchy st !! idf p = Some l /\ idf t ∈ l)
  /\ (forall t, t ∈ P -> parent_of cfg M roots t = None ->
        Clusterer.hierarchy st !! idf t = Some [])
  /\ keys_and_children (Clusterer.hierarchy st) ≡ₚ map idf (R ++ P)%list
  /\ (forall r, r ∈ R -> Clusterer.levels st !! fst r = Some 0%Z)
  /\ (forall t, t ∈ P ->
        Clusterer.levels st !! fst t = Some (level_of cfg M roots t))
  /\ (forall i, is_Some (Clusterer.levels st !! i) ->
        i ∈ map fst (R ++ P)%list).

End Aux.

(** ** Concrete graphs and topics *)

Module Examples.

Definition topic_node (n : string) : MNode := mkNode n "Topic" (Some n).

Definition page_node (n : string) : MNode := mkNode n "Page" None.

Definition subtopic_of (child parent : string) : MEdge :=
  mkEdge child parent "SUBTOPIC_OF" [].

(** Three topics in a chain: A is a subtopic of B, B a subtopic of C. *)
Definition chain_graph : MGraph :=
  graph_of [topic_node "A"; topic_node "B"; topic_node "C"]
           [subtopic_of "A" "B"; subtopic_of "B" "C"].

(** Three topics whose SUBTOPIC_OF edges form the cycle A -> B -> C -> A. *)
Definition cycle_graph : MGraph :=
  graph_of [topic_node "A"; topic_node "B"; topic_node "C"]
           [subtopic_of "A" "B"; subtopic_of "B" "C"; subtopic_of "C" "A"].

(** A topic [T] with 12 incoming HAS_TOPIC edges, 6 incoming SUBTOPIC_OF
    edges and 15 outgoing RELATED_TOPIC edges. *)
Definition central_graph : MGraph :=
  graph_of [topic_node "T"]
           (repeat (mkEdge "p" "T" "HAS_TOPIC" []) 12
            ++ repeat (mkEdge "c" "T" "SUBTOPIC_OF" []) 6
            ++ repeat (mkEdge "T" "r" "RELATED_TOPIC" []) 15)%list.

Definition T1 : Clusterer.Topic :=
  Clusterer.mkTopic "T1" "T1" 10 (Some [1; 0]%Q) None 0.
Definition T2 : Clusterer.Topic :=
  Clusterer.mkTopic "T2" "T2" 8 (Some [0.98; 0.02]%Q) None 0.
Definition T3 : Clusterer.Topic :=
  Clusterer.mkTopic "T3" "T3" 5 (Some [0; 1]%Q) None 0.

(** The cosine similarities of the embeddings of T1, T2 and T3, rounded to
    four decimals. *)
Definition similarity_123 : matrix :=
  [[1; 0.9998; 0]; [0.9998; 1; 0.0204]; [0; 0.0204; 1]]%Q.

Definition cosine_123 (embeddings : list (list Q)) : matrix := similarity_123.

(** Threshold 0.8, clusters of 2 to 20 topics. *)
Definition cfg_08 : Clusterer.config := Clusterer.mkConfig 0.8 2 20.

(** Two topics with opposite embeddings (cosine similarity exactly -1) and
    a similarity threshold of -1. *)
Definition Ta : Clusterer.Topic :=
  Clusterer.mkTopic "Ta" "Ta" 2 (Some [1; 0]%Q) None 0.
Definition Tb : Clusterer.Topic :=
  Clusterer.mkTopic "Tb" "Tb" 1 (Some [-1; 0]%Q) None 0.

Definition cosine_opposite (embeddings : list (list Q)) : matrix :=
  [[1; -1]; [-1; 1]]%Q.

Definition cfg_minus_one : Clusterer.config := Clusterer.mkConfig (-1) 2 20.

(** Three topics with the same embedding: all cosine similarities are
    exactly 1.  Clusters may hold at most 2 topics. *)
Definition U1 : Clusterer.Topic :=
  Clusterer.mkTopic "U1" "U1" 3 (Some [1; 0]%Q) None 0.
Definition U2 : Clusterer.Topic :=
  Clusterer.mkTopic "U2" "U2" 2 (Some [1; 0]%Q) None 0.
Definition U3 : Clusterer.Topic :=
  Clusterer.mkTopic "U3" "U3" 1 (Some [1; 0]%Q) None 0.

Definition uniform_similarity : matrix := [[1; 1; 1]; [1; 1; 1]; [1; 1; 1]]%Q.

Definition cosine_uniform (embeddings : list (list Q)) : matrix :=
  uniform_similarity.

Definition cfg_small : Clusterer.config := Clusterer.mkConfig 0.8 2 2.

(** Topics that all carry the same embedding: every pairwise cosine
    similarity is 1. *)
Definition uniform_topics (n : nat) : list Clusterer.Topic :=
  map (fun i => let name := String (ascii_of_nat (65 + i)) "" in
                Clusterer.mkTopic name name 1 (Some [1; 0]%Q) None 0)
      (seq 0 n).

Definition ones (n : nat) : matrix := repeat (repeat 1%Q n) n.

Definition cosine_ones (embeddings : list (list Q)) : matrix :=
  ones (length embeddings).

(** The defaults of [TopicClusterer]: threshold 0.7, clusters of 2 to 20
    topics. *)
Definition cfg_default : Clusterer.config := Clusterer.mkConfig 0.7 2 20.

(** A graph holding the three example topics and no edge. *)
Definition topics_graph : MGraph :=
  graph_of [topic_node "T1"; topic_node "T2"; topic_node "T3"] [].

(** The similarity lookup of the three example topics. *)
Definition lookup_123 : gmap (string * string) Q :=
  list_to_map [(("T1", "T2"), 0.9998%Q); (("T1", "T3"), 0%Q);
               (("T2", "T3"), 0.0204%Q)].

(** Thresholds 0.7 (SUBTOPIC_OF) and 0.5 (RELATED_TOPIC). *)
Definition builder_cfg : HierarchyBuilder.config :=
  HierarchyBuilder.mkConfig 0.7 0.5.

(** One page and four topics, each mentioned by ten HAS_TOPIC edges. *)
Definition diversity_graph : MGraph :=
  graph_of [page_node "p"; topic_node "A"; topic_node "B"; topic_node "C";
            topic_node "D"]
           (flat_map (fun t => repeat (mkEdge "p" t "HAS_TOPIC" []) 10)
                     ["A"; "B"; "C"; "D"]).

End Examples.


(** ** Node attributes *)

Module NodeData.

(** Modelled from the spec: a node of the graph store is an id with an
    attribute map (section 6), and [add_node] "upserts/replaces" it, which
    is "used to persist centrality".  [MGraph] keeps the type and the name
    of each node; the two other attributes the code reads, [centrality] and
    [category], are kept here, each per node id. *)
Record node_attrs := mkAttrs {
  centrality_attr : gmap string Q;
  category_attr   : gmap string string
}.

Definition set_centrality (a : node_attrs) (id : string) (c : Q) : node_attrs :=
  mkAttrs (<[id := c]> (centrality_attr a)) (category_attr a).

(** [node.data.get('centrality', 0.0)] *)
Definition get_centrality (a : node_attrs) (id : string) : Q :=
  default 0%Q (centrality_attr a !! id).

(** [edge.data.get(key, dflt)] *)
Definition attr_get (d : attrs) (key : string) (dflt : Q) : Q :=
  match List.find (fun p => String.eqb (fst p) key) d with
  | Some p => snd p
  | None => dflt
  end.

End NodeData.
Import NodeData.

(** ** Sorting and slicing as Python does *)

Module Py.

(** [sorted(l, key=key, reverse=True)] and [l.sort(key=key, reverse=True)]:
    greatest key first; the sort is stable, elements of equal key keep their
    order. *)
Fixpoint insert_by {A} (key : A -> Q) (x : A) (l : list A) : list A :=
  match l with
  | [] => [x]
  | y :: l' =>
      if Qle_bool (key y) (key x) then x :: y :: l'
      else y :: insert_by key x l'
  end.

Definition sorted_desc {A} (key : A -> Q) (l : list A) : list A :=
  fold_right (insert_by key) [] l.



Definition max_nat (x : nat) (rest : list nat) : nat := fold_left Nat.max rest x.

Definition min_nat (x : nat) (rest : list nat) : nat := fold_left Nat.min rest x.

Definition max_Q (x : Q) (rest : list Q) : Q :=
  fold_left (fun m y => if Qle_bool y m then m else y) rest x.

Definition min_Q (x : Q) (rest : list Q) : Q :=
  fold_left (fun m y => if Qle_bool m y then m else y) rest x.

End Py.

(** ** TopicHierarchyBuilder: building from a hierarchy, all centralities *)

Module HierarchyOps.

Import HierarchyBuilder.

(** The inner loop [for child_id in child_ids] of
    [build_hierarchy_from_clusters]; [inl] carries an exception out. *)
Fixpoint subtopic_children (g : MGraph)
    (topic_similarities : gmap (string * string) Q)
    (parent_id : string) (child_ids : list string) (edge_count : nat)
    : MGraph * (exn + nat) :=
  match child_ids with
  | [] => (g, inr edge_count)
  | child_id :: rest =>
      let similarity :=
        lookup_similarity topic_similarities child_id parent_id in
      match create_subtopic_edge g child_id parent_id similarity with
      | (g', Returned _) =>
          subtopic_children g' topic_similarities parent_id rest (S edge_count)
      | (g', Raised e) => (g', inl e)
      end
  end.

(** The outer loop [for parent_id, child_ids in hierarchy_map.items()]. *)
Fixpoint hierarchy_items (g : MGraph)
    (topic_similarities : gmap (string * string) Q)
    (items : list (string * list string)) (edge_count : nat)
    : MGraph * (exn + nat) :=
  match items with
  | [] => (g, inr edge_count)
  | (parent_id, child_ids) :: rest =>
      match subtopic_children g topic_similarities parent_id child_ids
                              edge_count with
      | (g', inr edge_count') =>
          hierarchy_items g' topic_similarities rest edge_count'
      | (g', inl e) => (g', inl e)
      end
  end.

(** [build_hierarchy_from_clusters(hierarchy_map, topic_similarities)]:
    the graph afterwards and the returned count, or the exception raised.
    [hierarchy_map] is given by its items, in the order of the dictionary. *)
Definition build_hierarchy_from_clusters (g : MGraph)
    (hierarchy_map : list (string * list string))
    (topic_similarities : gmap (string * string) Q) : MGraph * (exn + nat) :=
  hierarchy_items g topic_similarities hierarchy_map 0.

(** The variables the loop of [calculate_all_centralities] updates: the
    graph, the node attributes and the dictionary [centralities]. *)
Definition centrality_state := (MGraph * node_attrs * gmap string Q)%type.

Definition centrality_step (st : centrality_state) (topic : MNode)
    : centrality_state :=
  let '(g, a, centralities) := st in
  let centrality := calculate_centrality g (node_id topic) in
  (add_node g (mkNode (node_id topic) "Topic" (node_name topic)),
   set_centrality a (node_id topic) centrality,
   <[node_id topic := centrality]> centralities).

(** [calculate_all_centralities()] *)
Definition calculate_all_centralities (g : MGraph) (a : node_attrs)
    : centrality_state :=
  fold_left centrality_step (query g "Topic") (g, a, ∅).

End HierarchyOps.

(** ** TopicClusterer: root topics and clustering statistics *)

Module ClustererOps.

Import Clusterer.


Record clustering_statistics := mkClStats {
  num_clusters         : nat;
  total_topics         : nat;
  avg_cluster_size     : Q;
  smallest_cluster     : nat;          (* 'min_cluster_size' *)
  largest_cluster      : nat;          (* 'max_cluster_size' *)
  mean_similarity      : Q;            (* 'avg_similarity' *)
  min_similarity       : Q;
  max_similarity       : Q
}.

(** [get_clustering_statistics(clusters)]; [None] stands for the empty
    dictionary returned when there is no cluster.  The two averages are the
    exact quotients; [np.mean] returns them rounded to binary64. *)
Definition get_clustering_statistics (clusters : list TopicCluster)
    : option clustering_statistics :=
  match clusters with
  | [] => None
  | c0 :: rest =>
      let cluster_sizes := map size clusters in
      let similarities := map avg_similarity clusters in
      Some (mkClStats
              (length clusters)
              (list_sum cluster_sizes)
              (mean (map (fun s => inject_Z (Z.of_nat s)) cluster_sizes))
              (Py.min_nat (size c0) (map size rest))
              (Py.max_nat (size c0) (map size rest))
              (mean similarities)
              (Py.min_Q (avg_similarity c0) (map avg_similarity rest))
              (Py.max_Q (avg_similarity c0) (map avg_similarity rest)))
  end.

Section External.

(** [sklearn.metrics.pairwise.cosine_similarity] on the rows given. *)
Variable cosine_similarity : list (list Q) -> matrix.




End External.

End ClustererOps.

(** ** TopicAnalysis: distribution, trending and niche topics,
       co-occurrence, mappings *)

Module AnalysisOps.

Import Analysis.




Record TopicStats := mkTopicStats {
  topic_id            : string;
  topic_name          : string;
  frequency           : nat;
  avg_position        : Q;
  co_occurrence_count : nat;
  centrality          : Q
}.

(** The statistics both [find_trending_topics] and [find_niche_topics]
    compute for a topic that passes their frequency test (the two loop
    bodies are the same).  [avg_position] is the exact mean of the
    positions; [np.mean] returns it rounded to binary64. *)
Definition stats_of (g : MGraph) (a : node_attrs) (topic : MNode) : TopicStats :=
  let has_topic_edges :=
    get_edges g None (Some (node_id topic)) (Some "HAS_TOPIC") in
  let frequency := length has_topic_edges in
  let positions :=
    map (fun edge => attr_get (edge_data edge) "position" 0.5) has_topic_edges in
  let avg_position :=
    match positions with
    | [] => 0.5%Q
    | _ => mean positions
    end in
  let co_occurrence_count :=
    length (get_edges g (Some (node_id topic)) None (Some "RELATED_TOPIC")) in
  let centrality := get_centrality a (node_id topic) in
  mkTopicStats (node_id topic)
               (default (node_id topic) (node_name topic))
               frequency avg_position co_occurrence_count centrality.

Definition topic_frequency (g : MGraph) (topic : MNode) : nat :=
  length (get_edges g None (Some (node_id topic)) (Some "HAS_TOPIC")).

Definition trending_key (t : TopicStats) : Q :=
  (inject_Z (Z.of_nat (frequency t)) * (1 + centrality t))%Q.

Definition niche_key (t : TopicStats) : Q :=
  ((1 - avg_position t) * (1 + centrality t))%Q.

(** [find_trending_topics(threshold=5)] *)
Definition find_trending_topics (g : MGraph) (a : node_attrs) (threshold : Z)
    : list TopicStats :=
  let topic_nodes := query g "Topic" in
  let trending :=
    map (stats_of g a)
        (List.filter
           (fun topic =>
              negb (Z.of_nat (topic_frequency g topic) <? threshold)%Z)
           topic_nodes) in
  Py.sorted_desc trending_key trending.

(** [find_niche_topics(max_frequency=2)] *)
Definition find_niche_topics (g : MGraph) (a : node_attrs) (max_frequency : Z)
    : list TopicStats :=
  let topic_nodes := query g "Topic" in
  let niche :=
    map (stats_of g a)
        (List.filter
           (fun topic =>
              negb (max_frequency <? Z.of_nat (topic_frequency g topic))%Z)
           topic_nodes) in
  Py.sorted_desc niche_key niche.

(** [{topic.id: i for i, topic in enumerate(topic_nodes)}] *)
Definition make_topic_to_idx (topic_nodes : list MNode) : gmap string nat :=
  fold_left (fun m (p : nat * MNode) => <[node_id (snd p) := fst p]> m)
            (imap (fun i topic => (i, topic)) topic_nodes) ∅.

(** [m[i, j] += 1] *)
Definition incr (m : list (list nat)) (i j : nat) : list (list nat) :=
  alter (alter S j) i m.

(** [for topic2 in page_topics[i:]], for the row [idx1] of [topic1]. *)
Fixpoint cooccurrence_inner (topic_to_idx : gmap string nat) (idx1 : nat)
    (rest : list string) (cooccurrence : list (list nat)) : list (list nat) :=
  match rest with
  | [] => cooccurrence
  | topic2 :: rest' =>
      match topic_to_idx !! topic2 with
      | None => cooccurrence_inner topic_to_idx idx1 rest' cooccurrence
      | Some idx2 =>
          let m := incr cooccurrence idx1 idx2 in
          let m := if (idx1 =? idx2)%nat then m else incr m idx2 idx1 in
          cooccurrence_inner topic_to_idx idx1 rest' m
      end
  end.

(** [for i, topic1 in enumerate(page_topics)] *)
Fixpoint cooccurrence_page (topic_to_idx : gmap string nat)
    (page_topics : list string) (cooccurrence : list (list nat))
    : list (list nat) :=
  match page_topics with
  | [] => cooccurrence
  | topic1 :: rest =>
      match topic_to_idx !! topic1 with
      | None => cooccurrence_page topic_to_idx rest cooccurrence
      | Some idx1 =>
          cooccurrence_page topic_to_idx rest
            (cooccurrence_inner topic_to_idx idx1 (topic1 :: rest) cooccurrence)
      end
  end.

(** The topics of a page: [[edge.to_node for edge in topic_edges]]. *)
Definition page_topics_of (g : MGraph) (page : MNode) : list string :=
  map to_node (get_edges g (Some (node_id page)) None (Some "HAS_TOPIC")).

(** [calculate_cooccurrence()]; the empty array is the empty matrix. *)
Definition calculate_cooccurrence (g : MGraph) : list (list nat) :=
  let topic_nodes := query g "Topic" in
  let n_topics := length topic_nodes in
  if (n_topics =? 0)%nat then []
  else
    let topic_to_idx := make_topic_to_idx topic_nodes in
    let cooccurrence := replicate n_topics (replicate n_topics 0%nat) in
    let page_nodes := query g "Page" in
    fold_left
      (fun m page => cooccurrence_page topic_to_idx (page_topics_of g page) m)
      page_nodes cooccurrence.

(** [get_topic_page_mapping()] *)
Definition get_topic_page_mapping (g : MGraph) : gmap string (list string) :=
  fold_left
    (fun mapping topic =>
       let has_topic_edges :=
         get_edges g None (Some (node_id topic)) (Some "HAS_TOPIC") in
       <[node_id topic := map from_node has_topic_edges]> mapping)
    (query g "Topic") ∅.

(** [get_page_topic_mapping()] *)
Definition get_page_topic_mapping (g : MGraph) : gmap string (list string) :=
  fold_left
    (fun mapping page =>
       let topic_edges :=
         get_edges g (Some (node_id page)) None (Some "HAS_TOPIC") in
       <[node_id page := map to_node topic_edges]> mapping)
    (query g "Page") ∅.

End AnalysisOps.

(** ** TopicClusterEnricher *)

Module Enricher.

Import HierarchyBuilder.

(** [convert_to_topic_objects(embeddings)] *)
Definition convert_to_topic_objects (g : MGraph) (a : node_attrs)
    (embeddings : gmap string (list Q)) : list Clusterer.Topic :=
  omap (fun node =>
          match embeddings !! node_id node with
          | None => None
          | Some embedding =>
              let has_topic_edges :=
                get_edges g None (Some (node_id node)) (Some "HAS_TOPIC") in
              let frequency := length has_topic_edges in
              Some (Clusterer.mkTopic
                      (node_id node)
                      (default (node_id node) (node_name node))
                      (Z.of_nat frequency)
                      (Some embedding)
                      (category_attr a !! node_id node)
                      0)
          end)
       (query g "Topic").

Section External.

(** [sklearn.metrics.pairwise.cosine_similarity] on the rows given. *)
Variable cosine_similarity : list (list Q) -> matrix.

(** [for j in range(i+1, n)], for the topic [topic1] at position [i]; the
    topics after it are given with their positions. *)
Definition similarity_row (similarity_matrix : matrix) (i : nat)
    (topic1 : Clusterer.Topic) (after : list Clusterer.ref)
    (similarities : gmap (string * string) Q) : gmap (string * string) Q :=
  fold_left
    (fun d (r : Clusterer.ref) =>
       let topic1_id := Clusterer.id topic1 in
       let topic2_id := Clusterer.id (snd r) in
       let sim := mat_get similarity_matrix i (fst r) in
       <[(topic2_id, topic1_id) := sim]> (<[(topic1_id, topic2_id) := sim]> d))
    after similarities.

(** [for i in range(n)] *)
Fixpoint similarity_rows (similarity_matrix : matrix)
    (todo : list Clusterer.ref) (similarities : gmap (string * string) Q)
    : gmap (string * string) Q :=
  match todo with
  | [] => similarities
  | r :: after =>
      similarity_rows similarity_matrix after
        (similarity_row similarity_matrix (fst r) (snd r) after similarities)
  end.

(** [compute_similarity_matrix(topics)]; [None] when sklearn raises: an
    embedding is missing, or there is no topic at all (an empty array is
    not two-dimensional). *)
Definition compute_similarity_matrix (topics : list Clusterer.Topic)
    : option (gmap (string * string) Q) :=
  match topics with
  | [] => None
  | _ =>
      match mapM Clusterer.embedding topics with
      | None => None
      | Some embeddings =>
          let similarity_matrix := cosine_similarity embeddings in
          Some (similarity_rows similarity_matrix (Clusterer.enumerate topics) ∅)
      end
  end.

End External.

(** What [enrich_graph] logs on success: the two edge counts and the
    number of centrality scores. *)
Definition enrich_counts := (nat * nat * nat)%type.

(** [enrich_graph(hierarchy, similarities, topics)]: the graph and the node
    attributes afterwards, and the logged counts or the exception raised.
    [hierarchy] is given by its items, in the order of the dictionary. *)
Definition enrich_graph (cfg : config) (g : MGraph) (a : node_attrs)
    (hierarchy : list (string * list string))
    (similarities : gmap (string * string) Q) (topics : list Clusterer.Topic)
    : MGraph * node_attrs * (exn + enrich_counts) :=
  match HierarchyOps.build_hierarchy_from_clusters g hierarchy similarities with
  | (g1, inl e) => (g1, a, inl e)
  | (g1, inr subtopic_count) =>
      let topic_ids := map Clusterer.id topics in
      match build_related_topics cfg g1 topic_ids similarities with
      | (g2, inl e) => (g2, a, inl e)
      | (g2, inr related_count) =>
          let '(g3, a3, centralities) :=
            HierarchyOps.calculate_all_centralities g2 a in
          (g3, a3, inr (subtopic_count, related_count, size centralities))
      end
  end.

End Enricher.

(** ** Definitions used in the statements about these functions *)

Module AuxOps.

Import HierarchyBuilder.

(** The (child, parent) pairs of a hierarchy, in the order in which
    [build_hierarchy_from_clusters] visits them. *)
Definition child_pairs (items : list (string * list string))
    : list (string * string) :=
  flat_map (fun item => map (fun child => (child, fst item)) (snd item)) items.

(** Both the child and the parent of a pair are nodes of the graph. *)
Definition both_present (g : MGraph) (p : string * string) : bool :=
  match get_node g (fst p), get_node g (snd p) with
  | Some _, Some _ => true
  | _, _ => false
  end.

(** The payload [create_subtopic_edge] attaches to its edge. *)
Definition subtopic_data (similarity : option Q) : attrs :=
  match similarity with
  | Some s => [("similarity", s)]
  | None => []
  end.

(** The exception its debug message ends in. *)
Definition subtopic_exn (similarity : option Q) : exn :=
  match similarity with
  | Some _ => ValueError "Invalid format specifier"
  | None => TypeError "unsupported format string passed to NoneType.__format__"
  end.

(** The two loops of [build_hierarchy_from_clusters] as one loop over the
    (child, parent) pairs. *)
Fixpoint pairs_loop (g : MGraph) (sims : gmap (string * string) Q)
    (pairs : list (string * string)) (edge_count : nat)
    : MGraph * (exn + nat) :=
  match pairs with
  | [] => (g, inr edge_count)
  | p :: rest =>
      match create_subtopic_edge g (fst p) (snd p)
                                 (lookup_similarity sims (fst p) (snd p)) with
      | (g', Returned _) => pairs_loop g' sims rest (S edge_count)
      | (g', Raised e) => (g', inl e)
      end
  end.

(** The ids of the Topic nodes. *)
Definition topic_ids (g : MGraph) : list string :=
  map node_id (query g "Topic").

(** The edges of type [ty] that leave (enter) a Topic node. *)
Definition edges_from_topics (g : MGraph) (ty : string) : list MEdge :=
  List.filter (fun e => bool_decide (from_node e ∈ topic_ids g)
                        && bool_decide (edge_type e = ty)) (edges g).


(** The first parent of a topic: the target of its first outgoing
    SUBTOPIC_OF edge. *)
Definition first_parent (g : MGraph) (tid : string) : option string :=
  match get_edges g (Some tid) None (Some "SUBTOPIC_OF") with
  | [] => None
  | first :: _ => Some (to_node first)
  end.

(** Each element of the path is followed by its first parent. *)
Definition parent_chain (g : MGraph) (path : list string) : Prop :=
  forall i a b, path !! i = Some a -> path !! S i = Some b ->
                first_parent g a = Some b.

(** The path ends at a topic without a parent, or at one whose first parent
    is already on the path. *)
Definition path_end (g : MGraph) (path : list string) : Prop :=
  exists final, last path = Some final
    /\ (first_parent g final = None
        \/ exists p, first_parent g final = Some p /\ p ∈ path).

(** All SUBTOPIC_OF edges of the graph, and the ids they leave. *)
Definition all_subtopic_edges (g : MGraph) : list MEdge :=
  get_edges g None None (Some "SUBTOPIC_OF").

Definition sources (g : MGraph) : gset string :=
  list_to_set (map from_node (all_subtopic_edges g)).

(** A cluster built from the topics [ts]: its centroid is one of its
    topics and its topics are among [ts]. *)
Definition well_formed (ts : list Clusterer.Topic)
    (c : Clusterer.TopicCluster) : Prop :=
  Clusterer.centroid_topic c ∈ Clusterer.topics c
  /\ forall t, t ∈ Clusterer.topics c -> t ∈ ts.

(** The cluster at position [k] of the result (counted from 0) has an id
    between 1 and [k + 1]. *)
Definition ids_bounded (clusters : list Clusterer.TopicCluster) : Prop :=
  forall k c, clusters !! k = Some c ->
              1 <= Clusterer.cluster_id c <= k + 1.

(** The sum of the sizes of the clusters. *)
Definition total_size (clusters : list Clusterer.TopicCluster) : nat :=
  list_sum (map Clusterer.size clusters).

(** The order of a list sorted with [reverse=True]: an element is followed
    only by elements of smaller or equal key. *)
Definition key_desc {A} (key : A -> Q) (a b : A) : Prop := (key b <= key a)%Q.

(** How often [x] occurs in [l]. *)
Definition occurrences (x : string) (l : list string) : nat :=
  length (List.filter (fun y => bool_decide (y = x)) l).

(** The ids of the Page nodes. *)
Definition page_ids (g : MGraph) : list string :=
  map node_id (query g "Page").

(** The entry [m[i, j]] of a matrix (0 outside of it). *)
Definition cell (m : list (list nat)) (i j : nat) : nat :=
  match m !! i with
  | Some row => default 0 (row !! j)
  | None => 0
  end.

(** A matrix of [n] rows with [n] entries each. *)
Definition square (n : nat) (m : list (list nat)) : Prop :=
  length m = n /\ Forall (fun row => length row = n) m.

(** How many of the ids of [l] the index sends to position [i]. *)
Definition hits (idx : gmap string nat) (i : nat) (l : list string) : nat :=
  length (List.filter (fun y => bool_decide (idx !! y = Some i)) l).

(** How many HAS_TOPIC edges lead from a page to a topic. *)
Definition mentions (g : MGraph) (page topic : string) : nat :=
  length (get_edges g (Some page) (Some topic) (Some "HAS_TOPIC")).

(** What a page with [ci] edges to one topic and [cj] edges to another adds
    to their entry of the co-occurrence matrix, and what it adds to the
    diagonal entry of the first. *)
Definition pair_total (ci cj : nat) (same : bool) : nat :=
  if same then ci * (ci + 1) / 2 else ci * cj.





End AuxOps.
(** * Properties *)

Import HierarchyBuilder.
Local Open Scope list_scope.

(** ** Centrality *)

Lemma score_bounds (n : nat) (d : Q) :
  (0 < d)%Q -> (0 <= Qmin (inject_Z (Z.of_nat n) / d) 1 <= 1)%Q.
Proof.
  intros Hd. split.
  - apply Q.min_glb; [|Lqa.lra].
    apply Qle_shift_div_l; [done|]. rewrite Qmult_0_l.
    change 0%Q with (inject_Z 0). rewrite <- Zle_Qle. lia.
  - apply Q.le_min_r.
Qed.

(** On binary64 numbers the score stays within [0, 1] for all counts up to
    and beyond the three caps (beyond a cap the capped score is 1.0). *)
Lemma centrality_binary64_unit_interval :
  forallb (fun p =>
    forallb (fun s =>
      forallb (fun r =>
        let c := centrality_binary64 (Z.of_nat p) (Z.of_nat s) (Z.of_nat r) in
        (0 <=? c)%float && (c <=? 1)%float)
      (seq 0 12)) (seq 0 7)) (seq 0 12) = true.
Proof. vm_compute. reflexivity. Qed.

(** C6: [calculate_centrality] is the weighted sum
    0.5*min(has_topic/10, 1) + 0.3*min(subtopic/5, 1) + 0.2*min(related/10, 1)
    of the incoming HAS_TOPIC, incoming SUBTOPIC_OF and outgoing
    RELATED_TOPIC edge counts; it lies in [0,1]; with 12, 6 and 15 such
    edges it is exactly 1, also when computed on binary64 numbers. *)
Theorem C6_calculate_centrality (g : MGraph) (topic_id : string) :
  let has_topic := length (get_edges g None (Some topic_id) (Some "HAS_TOPIC")) in
  let subtopic := length (get_edges g None (Some topic_id) (Some "SUBTOPIC_OF")) in
  let related := length (get_edges g (Some topic_id) None (Some "RELATED_TOPIC")) in
  (calculate_centrality g topic_id ==
     0.5 * Qmin (inject_Z (Z.of_nat has_topic) / 10) 1
     + 0.3 * Qmin (inject_Z (Z.of_nat subtopic) / 5) 1
     + 0.2 * Qmin (inject_Z (Z.of_nat related) / 10) 1)%Q
  /\ (0 <= calculate_centrality g topic_id <= 1)%Q
  /\ (has_topic = 12%nat -> subtopic = 6%nat -> related = 15%nat ->
      (calculate_centrality g topic_id == 1)%Q)
  /\ centrality_binary64 12 6 15 = 1%float.
Proof.
  intros has_topic subtopic related. unfold calculate_centrality.
  fold has_topic subtopic related.
  pose proof (score_bounds has_topic 10 ltac:(Lqa.lra)) as Hh.
  pose proof (score_bounds subtopic 5 ltac:(Lqa.lra)) as Hs.
  pose proof (score_bounds related 10 ltac:(Lqa.lra)) as Hr.
  split; [reflexivity|]. split; [Lqa.lra|]. split; [|reflexivity].
  intros -> -> ->. reflexivity.
Qed.

(** The example of C6 on a concrete graph. *)
Lemma C6_calculate_centrality_witness :
  (calculate_centrality Examples.central_graph "T" == 1)%Q.
Proof.
  apply (C6_calculate_centrality Examples.central_graph "T"); reflexivity.
Defined.

(** ** create_subtopic_edge *)

Lemma subtopic_format_float (q : Q) :
  PyFormat.format_error (Some q) ".3f if similarity else 'N/A'"
    = Some (ValueError "Invalid format specifier").
Proof. reflexivity. Qed.

Lemma subtopic_format_none :
  PyFormat.format_error None ".3f if similarity else 'N/A'"
    = Some (TypeError "unsupported format string passed to NoneType.__format__").
Proof. reflexivity. Qed.

(** C3 (what the code does): with an endpoint missing
    [create_subtopic_edge] leaves the graph alone, logs one warning and
    returns; with both endpoints present it adds exactly one SUBTOPIC_OF edge
    from child to parent and then raises while building its debug message,
    whatever the similarity.  The sibling [create_related_topic_edge] formats
    its similarity with a well-formed specification and returns. *)
Theorem C3_create_subtopic_edge_raises :
  (forall g child parent similarity,
      get_node g child = None \/ get_node g parent = None ->
      exists w, create_subtopic_edge g child parent similarity
                = (g, Returned [w]))
  /\ (forall g child parent similarity,
      is_Some (get_node g child) -> is_Some (get_node g parent) ->
      exists data e,
        create_subtopic_edge g child parent similarity
        = (mkGraph (nodes g)
                   (edges g ++ [mkEdge child parent "SUBTOPIC_OF" data]),
           Raised e))
  /\ snd (create_subtopic_edge Examples.chain_graph "A" "B" (Some 0.9%Q))
     = Raised (ValueError "Invalid format specifier")
  /\ snd (create_subtopic_edge Examples.chain_graph "A" "B" None)
     = Raised (TypeError "unsupported format string passed to NoneType.__format__")
  /\ snd (create_related_topic_edge Examples.chain_graph "A" "B" 0.9%Q)
     = Returned [].
Proof.
  repeat split; try reflexivity.
  - intros g child parent similarity H. unfold create_subtopic_edge.
    destruct (get_node g child) as [c|] eqn:Hc.
    + destruct H as [H|H]; [done|]. rewrite H. eauto.
    + eauto.
  - intros g child parent similarity [c Hc] [p Hp].
    unfold create_subtopic_edge. rewrite Hc, Hp.
    destruct similarity as [q|].
    + rewrite subtopic_format_float. unfold add_edge. eauto.
    + rewrite subtopic_format_none. unfold add_edge. eauto.
Qed.

(** ** Hierarchy statistics *)

Lemma filter_fmap_NoDup {A B} (f : A -> B) (p : A -> bool) (l : list A) :
  NoDup (map f l) -> NoDup (map f (List.filter p l)).
Proof.
  induction l as [|n l IH]; simpl; [done|].
  intros [Hn Hl]%NoDup_cons. specialize (IH Hl).
  destruct (p n); [|done]. simpl. apply NoDup_cons. split; [|done].
  intros Hin. apply Hn. apply list_elem_of_fmap in Hin as (m & -> & Hm).
  apply list_elem_of_fmap. exists m. split; [done|].
  apply list_elem_of_In. apply list_elem_of_In in Hm.
  by apply filter_In in Hm as [? _].
Qed.

Lemma query_NoDup (g : MGraph) (ty : string) : NoDup (map node_id (query g ty)).
Proof.
  unfold query. apply filter_fmap_NoDup.
  rewrite map_map. simpl. apply (NoDup_fst_map_to_list (nodes g)).
Qed.

Lemma count_topic_fold (g : MGraph) (l : list MNode) (c : counters) :
  c_root_topics (fold_left (count_topic g) l c)
    = Aux.marked (has_children g) l ∪ c_root_topics c
  /\ c_child_topics (fold_left (count_topic g) l c)
    = Aux.marked (has_parent g) l ∪ c_child_topics c.
Proof.
  revert c. induction l as [|n l IH]; intros c; simpl.
  - unfold Aux.marked. simpl. split; set_solver.
  - destruct (IH (count_topic g c n)) as [-> ->]. clear IH.
    unfold count_topic, Aux.marked, has_children, has_parent. simpl.
    destruct (get_edges g None (Some (node_id n)) (Some "SUBTOPIC_OF"));
      destruct (get_edges g (Some (node_id n)) None (Some "SUBTOPIC_OF"));
      simpl; split; set_solver.
Qed.

Lemma marked_size (p : string -> bool) (l : list MNode) :
  NoDup (map node_id l) ->
  size (Aux.marked p l) = length (List.filter (fun n => p (node_id n)) l).
Proof.
  intros Hnd. unfold Aux.marked. rewrite size_list_to_set.
  - by rewrite length_map.
  - by apply filter_fmap_NoDup.
Qed.

Lemma four_way_count {A} (p q : A -> bool) (l : list A) :
  (Z.of_nat (length l) - Z.of_nat (length (List.filter p l))
     - Z.of_nat (length (List.filter q l))
   = Z.of_nat (length (List.filter (fun x => negb (p x) && negb (q x)) l))
     - Z.of_nat (length (List.filter (fun x => p x && q x) l)))%Z.
Proof.
  induction l as [|x l IH]; simpl; [done|].
  destruct (p x), (q x); simpl; lia.
Qed.

Lemma orphan_topics_by_subtraction (fuel : nat) (g : MGraph)
    (stats : hierarchy_statistics) :
  get_hierarchy_statistics fuel g = Some stats ->
  orphan_topics stats
    = (Z.of_nat (orphans_direct g) - Z.of_nat (both_root_and_child g))%Z.
Proof.
  unfold get_hierarchy_statistics.
  destruct (_calculate_max_depth fuel g); [|done].
  intros [= <-]. simpl.
  destruct (count_topic_fold g (query g "Topic") (mkCounters 0 0 ∅ ∅)) as [-> ->].
  simpl. rewrite !union_empty_r_L.
  rewrite !marked_size by apply query_NoDup.
  apply (four_way_count (fun n => has_children g (node_id n))
                        (fun n => has_parent g (node_id n))).
Qed.

(** C4 (what the code does): [orphan_topics] is total - roots - children,
    which is the number of topics with neither children nor a parent minus
    the number of topics that have both.  On the chain A -> B -> C, where B
    has a child and a parent and no topic is an orphan, the record says -1. *)
Theorem C4_orphan_topics_subtracts :
  (forall fuel g stats,
      get_hierarchy_statistics fuel g = Some stats ->
      orphan_topics stats
      = (Z.of_nat (orphans_direct g) - Z.of_nat (both_root_and_child g))%Z)
  /\ orphans_direct Examples.chain_graph = 0%nat
  /\ both_root_and_child Examples.chain_graph = 1%nat
  /\ orphan_topics <$>
       get_hierarchy_statistics (traversal_fuel Examples.chain_graph)
                                Examples.chain_graph
     = Some (-1)%Z.
Proof.
  split; [apply orphan_topics_by_subtraction|].
  split; [|split]; vm_compute; reflexivity.
Qed.

(** ** Depth and path traversals *)

Section Traversal.

Variable g : MGraph.

Lemma targets_size : size (Aux.targets g) <= length (edges g).
Proof.
  unfold Aux.targets. generalize (edges g). intros l.
  induction l as [|e l IH].
  - change (size (∅ : gset string) <= 0). by rewrite size_empty.
  - change (size ({[to_node e]} ∪ list_to_set (map to_node l) : gset string)
            <= S (length l)).
    rewrite size_union_alt, size_singleton.
    pose proof (subseteq_size (list_to_set (map to_node l) ∖ {[to_node e]})
                  (list_to_set (map to_node l) : gset string)
                  ltac:(set_solver)).
    lia.
Qed.

Lemma get_edges_target (src dst ty : option string) (e : MEdge) :
  In e (get_edges g src dst ty) -> to_node e ∈ Aux.targets g.
Proof.
  unfold get_edges, Aux.targets. intros [He _]%filter_In.
  apply elem_of_list_to_set, list_elem_of_fmap.
  exists e. split; [done|]. by apply list_elem_of_In.
Qed.

Lemma unvisited_shrinks (x : string) (visited : gset string) :
  x ∈ Aux.targets g -> x ∉ visited ->
  size (Aux.targets g ∖ ({[x]} ∪ visited)) < size (Aux.targets g ∖ visited).
Proof. intros Hx Hv. apply subset_size. set_solver. Qed.

Lemma max_parent_depth_total (f : string -> option nat) (es : list MEdge)
    (acc : nat) :
  (forall e, In e es -> is_Some (f (to_node e))) ->
  is_Some (max_parent_depth f es acc).
Proof.
  revert acc. induction es as [|e es IH]; intros acc H; simpl; [eauto|].
  destruct (H e (or_introl eq_refl)) as [d ->].
  apply IH. intros e' He'. apply H. by right.
Qed.

Lemma depth_unfold (fuel : nat) (topic_id : string) (visited : gset string) :
  _get_topic_depth (S fuel) g topic_id visited
  = if bool_decide (topic_id ∈ visited) then Some 0%nat
    else match get_edges g (Some topic_id) None (Some "SUBTOPIC_OF") with
         | [] => Some 0%nat
         | _ =>
             match max_parent_depth
                     (fun p => _get_topic_depth fuel g p ({[topic_id]} ∪ visited))
                     (get_edges g (Some topic_id) None (Some "SUBTOPIC_OF"))
                     0 with
             | Some d => Some (d + 1)%nat
             | None => None
             end
         end.
Proof. reflexivity. Qed.

Lemma path_unfold (fuel : nat) (current_id : string) (path : list string)
    (visited : gset string) :
  topic_path_loop (S fuel) g current_id path visited
  = match get_edges g (Some current_id) None (Some "SUBTOPIC_OF") with
    | [] => Some path
    | first :: _ =>
        if bool_decide (to_node first ∈ visited) then Some path
        else topic_path_loop fuel g (to_node first) (path ++ [to_node first])%list
                             ({[to_node first]} ∪ visited)
    end.
Proof. reflexivity. Qed.

(** A call on a target of some edge returns when the fuel exceeds the
    number of targets not yet on the path. *)
Lemma depth_total_target (n : nat) :
  forall fuel topic_id visited,
    topic_id ∈ Aux.targets g ->
    size (Aux.targets g ∖ visited) <= n -> n < fuel ->
    is_Some (_get_topic_depth fuel g topic_id visited).
Proof.
  induction n as [|n IH]; intros fuel topic_id visited Ht Hsz Hfuel;
    (destruct fuel as [|fuel]; [lia|]); rewrite depth_unfold;
    (case_bool_decide; [by eauto|]);
    pose proof (unvisited_shrinks topic_id visited Ht ltac:(done)) as Hlt;
    [lia|].
  destruct (get_edges g (Some topic_id) None (Some "SUBTOPIC_OF"))
    as [|e es] eqn:Hes; [by eauto|].
  rewrite <- Hes.
  destruct (max_parent_depth_total
              (fun p => _get_topic_depth fuel g p ({[topic_id]} ∪ visited))
              (get_edges g (Some topic_id) None (Some "SUBTOPIC_OF")) 0)
    as [d Hd].
  - intros e' He'. apply IH; [by eapply get_edges_target|lia|lia].
  - rewrite Hd. eauto.
Qed.

Lemma depth_total (fuel : nat) (topic_id : string) :
  traversal_fuel g <= fuel -> is_Some (_get_topic_depth fuel g topic_id ∅).
Proof.
  unfold traversal_fuel. pose proof targets_size as Hsz. intros Hfuel.
  destruct fuel as [|fuel]; [lia|]. rewrite depth_unfold.
  case_bool_decide; [by eauto|].
  destruct (get_edges g (Some topic_id) None (Some "SUBTOPIC_OF"))
    as [|e es] eqn:Hes; [by eauto|].
  rewrite <- Hes.
  destruct (max_parent_depth_total
              (fun p => _get_topic_depth fuel g p ({[topic_id]} ∪ ∅))
              (get_edges g (Some topic_id) None (Some "SUBTOPIC_OF")) 0)
    as [d Hd].
  - intros e' He'.
    apply (depth_total_target (size (Aux.targets g)));
      [by eapply get_edges_target| |lia].
    apply subseteq_size. set_solver.
  - rewrite Hd. eauto.
Qed.

Lemma max_parent_depth_ext (f f' : string -> option nat) (es : list MEdge)
    (acc d : nat) :
  (forall p x, f p = Some x -> f' p = Some x) ->
  max_parent_depth f es acc = Some d -> max_parent_depth f' es acc = Some d.
Proof.
  intros Hf. revert acc. induction es as [|e es IH]; intros acc; simpl; [done|].
  destruct (f (to_node e)) as [x|] eqn:Hx; [|done].
  rewrite (Hf _ _ Hx). apply IH.
Qed.

(** More fuel does not change a result. *)
Lemma depth_fuel_mono (fuel : nat) :
  forall topic_id visited d,
    _get_topic_depth fuel g topic_id visited = Some d ->
    _get_topic_depth (S fuel) g topic_id visited = Some d.
Proof.
  induction fuel as [|fuel IH]; intros topic_id visited d; [done|].
  rewrite (depth_unfold (S fuel)), (depth_unfold fuel).
  case_bool_decide; [done|].
  destruct (get_edges g (Some topic_id) None (Some "SUBTOPIC_OF"))
    as [|e es]; [done|].
  destruct (max_parent_depth
              (fun p => _get_topic_depth fuel g p ({[topic_id]} ∪ visited))
              (e :: es) 0) as [x|] eqn:Hx; [|done].
  intros Hd.
  erewrite max_parent_depth_ext; [exact Hd| |exact Hx].
  intros p y. apply IH.
Qed.

Lemma depth_fuel_le (fuel fuel' : nat) (topic_id : string)
    (visited : gset string) (d : nat) :
  fuel <= fuel' ->
  _get_topic_depth fuel g topic_id visited = Some d ->
  _get_topic_depth fuel' g topic_id visited = Some d.
Proof.
  induction 1 as [|fuel' _ IH]; [done|].
  intros H. by apply depth_fuel_mono, IH.
Qed.

Lemma max_depth_loop_total (fuel : nat) (l : list MNode) (acc : nat) :
  traversal_fuel g <= fuel -> is_Some (max_depth_loop fuel g l acc).
Proof.
  intros Hfuel. revert acc. induction l as [|n l IH]; intros acc; simpl; [eauto|].
  destruct (depth_total fuel (node_id n) Hfuel) as [d ->]. apply IH.
Qed.

Lemma path_total (n : nat) :
  forall fuel current_id path visited,
    size (Aux.targets g ∖ visited) <= n -> n < fuel ->
    is_Some (topic_path_loop fuel g current_id path visited).
Proof.
  induction n as [|n IH]; intros fuel current_id path visited Hsz Hfuel;
    (destruct fuel as [|fuel]; [lia|]); rewrite path_unfold;
    (destruct (get_edges g (Some current_id) None (Some "SUBTOPIC_OF"))
      as [|e es] eqn:Hes; [by eauto|]);
    (case_bool_decide; [by eauto|]);
    (assert (to_node e ∈ Aux.targets g) as Ht
       by (eapply get_edges_target; rewrite Hes; by left));
    pose proof (unvisited_shrinks (to_node e) visited Ht ltac:(done)).
  - lia.
  - apply IH; lia.
Qed.

Lemma topic_path_total (fuel : nat) (topic_id : string) :
  traversal_fuel g <= fuel -> is_Some (get_topic_path fuel g topic_id).
Proof.
  unfold traversal_fuel, get_topic_path. pose proof targets_size. intros Hfuel.
  apply (path_total (size (Aux.targets g))); [|lia].
  apply subseteq_size. set_solver.
Qed.

End Traversal.

(** C7: on every graph the depth of a topic, the maximum depth and the path
    of a topic are returned once the fuel reaches the number of edges plus
    two, and more fuel does not change the depth; a topic that is already on
    the current path has depth 0 and is not descended into; the path stops
    when the first parent has been visited.  On the cycle A -> B -> C -> A
    the depth of A is 3 and its path is A, B, C. *)
Theorem C7_depth_and_path_terminate :
  (forall g topic_id fuel,
      traversal_fuel g <= fuel ->
      exists d, _get_topic_depth fuel g topic_id ∅ = Some d
                /\ _get_topic_depth (traversal_fuel g) g topic_id ∅ = Some d)
  /\ (forall g fuel,
      traversal_fuel g <= fuel -> exists d, _calculate_max_depth fuel g = Some d)
  /\ (forall g topic_id fuel,
      traversal_fuel g <= fuel ->
      exists path, get_topic_path fuel g topic_id = Some path)
  /\ (forall g topic_id fuel (visited : gset string),
      topic_id ∈ visited ->
      _get_topic_depth (S fuel) g topic_id visited = Some 0%nat)
  /\ (forall g current_id fuel path (visited : gset string) first others,
      get_edges g (Some current_id) None (Some "SUBTOPIC_OF") = first :: others ->
      to_node first ∈ visited ->
      topic_path_loop (S fuel) g current_id path visited = Some path)
  /\ _get_topic_depth (traversal_fuel Examples.cycle_graph)
                      Examples.cycle_graph "A" ∅ = Some 3%nat
  /\ _calculate_max_depth (traversal_fuel Examples.cycle_graph)
                          Examples.cycle_graph = Some 3%nat
  /\ get_topic_path (traversal_fuel Examples.cycle_graph)
                    Examples.cycle_graph "A" = Some ["A"; "B"; "C"].
Proof.
  split; [|split; [|split; [|split; [|split]]]].
  - intros g topic_id fuel Hfuel.
    destruct (depth_total g (traversal_fuel g) topic_id ltac:(lia)) as [d Hd].
    exists d. split; [|done]. by eapply depth_fuel_le.
  - intros g fuel Hfuel. by apply max_depth_loop_total.
  - intros g topic_id fuel Hfuel. by apply topic_path_total.
  - intros g topic_id fuel visited Hin. rewrite depth_unfold.
    by rewrite bool_decide_eq_true_2.
  - intros g current_id fuel path visited first others Hes Hin.
    rewrite path_unfold, Hes. by rewrite bool_decide_eq_true_2.
  - repeat split; vm_compute; reflexivity.
Qed.

(** ** Clustering *)

Section Clustering.

Import Clusterer.

Variable cosine_similarity : list (list Q) -> matrix.
Variable average_linkage_cut : matrix -> Q -> list nat.
Variable cfg : Clusterer.config.

Abbreviation hc := (_hierarchical_clustering average_linkage_cut cfg).
Abbreviation loop := (clusters_loop average_linkage_cut cfg).

Lemma loop_nil recurse ts labels sim clusters :
  loop recurse ts labels sim [] clusters = Some clusters.
Proof. reflexivity. Qed.

Lemma loop_cons recurse ts labels sim label rest clusters :
  loop recurse ts labels sim (label :: rest) clusters
  = let cluster_indices := where_label labels label in
    let cluster_topics := Aux.group ts labels label in
    if (length cluster_topics <? min_cluster_size cfg)%nat then
      loop recurse ts labels sim rest clusters
    else if (max_cluster_size cfg <? length cluster_topics)%nat then
      let sub_similarity := submatrix sim cluster_indices in
      match recurse cluster_topics (hc cluster_topics sub_similarity)
                    sub_similarity with
      | None => None
      | Some sub_clusters =>
          loop recurse ts labels sim rest (clusters ++ sub_clusters)%list
      end
    else
      let cluster_sim_matrix := submatrix sim cluster_indices in
      match cluster_topics !! argmax (map mean cluster_sim_matrix) with
      | None => loop recurse ts labels sim rest clusters
      | Some centroid_topic =>
          loop recurse ts labels sim rest
               (clusters ++ [mkCluster (length clusters + 1) cluster_topics
                                       centroid_topic
                                       (mean (upper_triangle cluster_sim_matrix))
                                       (length cluster_topics)])%list
      end.
Proof. reflexivity. Qed.

Lemma create_unfold fuel ts labels sim :
  _create_clusters average_linkage_cut cfg (S fuel) ts labels sim
  = loop (_create_clusters average_linkage_cut cfg fuel) ts labels sim
         (unique_labels labels) [].
Proof. reflexivity. Qed.

(** *** Size bounds *)

Lemma loop_within_bounds recurse ts labels sim :
  (forall ts' labels' sim' r,
      recurse ts' labels' sim' = Some r -> Forall (Aux.within_bounds cfg) r) ->
  forall visit clusters r,
    Forall (Aux.within_bounds cfg) clusters ->
    loop recurse ts labels sim visit clusters = Some r ->
    Forall (Aux.within_bounds cfg) r.
Proof.
  intros Hrec. induction visit as [|label rest IH]; intros clusters r Hacc.
  - rewrite loop_nil. by intros [= <-].
  - rewrite loop_cons. cbv zeta.
    destruct (Nat.ltb_spec (length (Aux.group ts labels label))
                           (min_cluster_size cfg)) as [Hmin|Hmin];
      [by apply IH|].
    destruct (Nat.ltb_spec (max_cluster_size cfg)
                           (length (Aux.group ts labels label))) as [Hmax|Hmax].
    + destruct (recurse _ _ _) as [sub|] eqn:Hsub; [|done].
      apply IH. apply Forall_app. split; [done|]. by eapply Hrec.
    + destruct (Aux.group ts labels label !! _) as [centroid|]; [|by apply IH].
      apply IH. apply Forall_app. split; [done|].
      apply Forall_cons. split; [|by apply Forall_nil].
      unfold Aux.within_bounds. simpl. lia.
Qed.

Lemma create_within_bounds fuel :
  forall ts labels sim r,
    _create_clusters average_linkage_cut cfg fuel ts labels sim = Some r ->
    Forall (Aux.within_bounds cfg) r.
Proof.
  induction fuel as [|fuel IH]; intros ts labels sim r; [done|].
  rewrite create_unfold. intros Hr.
  eapply loop_within_bounds; [exact IH|by apply Forall_nil|exact Hr].
Qed.

Lemma cluster_topics_within_bounds fuel topics r :
  cluster_topics cosine_similarity average_linkage_cut cfg fuel topics = Some r ->
  Forall (Aux.within_bounds cfg) r.
Proof.
  unfold cluster_topics.
  destruct (length topics <? 2)%nat; [intros [= <-]; by apply Forall_nil|].
  destruct (length _ <? 2)%nat; [intros [= <-]; by apply Forall_nil|].
  destruct (_compute_similarity_matrix _ _); [|done].
  apply create_within_bounds.
Qed.

(** *** Termination *)

Lemma loop_total recurse ts labels sim :
  (forall label,
      max_cluster_size cfg < length (Aux.group ts labels label) ->
      forall sub,
        is_Some (recurse (Aux.group ts labels label)
                         (hc (Aux.group ts labels label) sub) sub)) ->
  forall visit clusters, is_Some (loop recurse ts labels sim visit clusters).
Proof.
  intros Hrec. induction visit as [|label rest IH]; intros clusters.
  - rewrite loop_nil. eauto.
  - rewrite loop_cons. cbv zeta.
    destruct (Nat.ltb_spec (length (Aux.group ts labels label))
                           (min_cluster_size cfg)) as [Hmin|Hmin]; [apply IH|].
    destruct (Nat.ltb_spec (max_cluster_size cfg)
                           (length (Aux.group ts labels label))) as [Hmax|Hmax].
    + destruct (Hrec label Hmax (submatrix sim (where_label labels label)))
        as [sub ->]. apply IH.
    + destruct (Aux.group ts labels label !! _); apply IH.
Qed.

(** Without an oversized group there is no recursive call. *)
Lemma create_total_no_oversized fuel ts labels sim :
  (forall label,
      length (Aux.group ts labels label) <= max_cluster_size cfg) ->
  is_Some (_create_clusters average_linkage_cut cfg (S fuel) ts labels sim).
Proof.
  intros Hsmall. rewrite create_unfold. apply loop_total.
  intros label Hbig. specialize (Hsmall label). lia.
Qed.

End Clustering.

(** C8: every cluster returned by [cluster_topics] has at least
    [min_cluster_size] and at most [max_cluster_size] topics, and its [size]
    field is the number of its topics: smaller label groups are dropped and
    larger ones are never returned whole. *)
Theorem C8_cluster_sizes_within_bounds
    (cosine_similarity : list (list Q) -> matrix)
    (average_linkage_cut : matrix -> Q -> list nat)
    (cfg : Clusterer.config) (fuel : nat) (topics : list Clusterer.Topic)
    (clusters : list Clusterer.TopicCluster) :
  Clusterer.cluster_topics cosine_similarity average_linkage_cut cfg fuel topics
    = Some clusters ->
  forall c, In c clusters ->
    Clusterer.min_cluster_size cfg <= length (Clusterer.topics c)
    /\ length (Clusterer.topics c) <= Clusterer.max_cluster_size cfg
    /\ Clusterer.size c = length (Clusterer.topics c).
Proof.
  intros Hrun c Hc.
  pose proof (cluster_topics_within_bounds _ _ _ _ _ _ Hrun) as Hall.
  rewrite Forall_forall in Hall.
  destruct (Hall c) as (Hmin & Hmax & Hsize); [by apply list_elem_of_In|].
  rewrite <- Hsize. done.
Qed.

(** C8 on the three example topics: the only cluster is T1, T2 with
    centroid T1; T3 alone is below the minimum size and is dropped. *)
Lemma C8_cluster_sizes_witness :
  exists clusters,
    Clusterer.cluster_topics Examples.cosine_123 SciPy.average_linkage_cut
      Examples.cfg_08 1 [Examples.T1; Examples.T2; Examples.T3] = Some clusters
    /\ map (fun c => map Clusterer.id (Clusterer.topics c)) clusters
       = [["T1"; "T2"]]
    /\ map (fun c => Clusterer.id (Clusterer.centroid_topic c)) clusters = ["T1"]
    /\ forall c, In c clusters ->
         2 <= length (Clusterer.topics c) /\ length (Clusterer.topics c) <= 20
         /\ Clusterer.size c = length (Clusterer.topics c).
Proof.
  eexists. split; [vm_compute; reflexivity|].
  split; [reflexivity|]. split; [reflexivity|].
  apply (C8_cluster_sizes_within_bounds Examples.cosine_123
           SciPy.average_linkage_cut Examples.cfg_08 1
           [Examples.T1; Examples.T2; Examples.T3]).
  vm_compute; reflexivity.
Defined.

(** *** The recursion on a group that cannot be split *)

Section Unsplittable.

Import Clusterer.

Variable average_linkage_cut : matrix -> Q -> list nat.
Variable cfg : Clusterer.config.

(** The loop does not return once the recursive call for one of its labels
    does not. *)
Lemma loop_stuck recurse ts labels sim label :
  min_cluster_size cfg <= length (Aux.group ts labels label) ->
  max_cluster_size cfg < length (Aux.group ts labels label) ->
  recurse (Aux.group ts labels label)
          (_hierarchical_clustering average_linkage_cut cfg
             (Aux.group ts labels label)
             (submatrix sim (where_label labels label)))
          (submatrix sim (where_label labels label)) = None ->
  forall visit clusters,
    label ∈ visit ->
    clusters_loop average_linkage_cut cfg recurse ts labels sim visit clusters
    = None.
Proof.
  intros Hmin Hmax Hrec. induction visit as [|l visit IH]; intros clusters Hin.
  - by apply elem_of_nil in Hin.
  - rewrite loop_cons. cbv zeta.
    destruct (decide (l = label)) as [->|Hne].
    + rewrite (proj2 (Nat.ltb_ge _ _)) by done.
      rewrite (proj2 (Nat.ltb_lt _ _)) by done.
      by rewrite Hrec.
    + assert (label ∈ visit) as Hin' by set_solver.
      destruct (_ <? _)%nat; [by apply IH|].
      destruct (_ <? _)%nat.
      * destruct (recurse (Aux.group ts labels l) _ _); [by apply IH|done].
      * destruct (_ !! _); by apply IH.
Qed.

(** A group that re-clustering returns whole is re-clustered again, with
    the same arguments, at every depth. *)
Lemma create_clusters_stuck ts sim label :
  let labels := _hierarchical_clustering average_linkage_cut cfg ts sim in
  label ∈ unique_labels labels ->
  Aux.group ts labels label = ts ->
  submatrix sim (where_label labels label) = sim ->
  min_cluster_size cfg <= length ts ->
  max_cluster_size cfg < length ts ->
  forall fuel,
    _create_clusters average_linkage_cut cfg fuel ts labels sim = None.
Proof.
  intros labels Hin Hgroup Hsub Hmin Hmax.
  induction fuel as [|fuel IH]; [done|].
  rewrite create_unfold. apply (loop_stuck _ _ _ _ label); [| |  |done].
  - by rewrite Hgroup.
  - by rewrite Hgroup.
  - rewrite Hgroup, Hsub. exact IH.
Qed.

Lemma unsplittable_never_returns ts labels sim label :
  let group := Aux.group ts labels label in
  let sub := submatrix sim (where_label labels label) in
  let sub_labels := _hierarchical_clustering average_linkage_cut cfg group sub in
  label ∈ unique_labels labels ->
  min_cluster_size cfg <= length group ->
  max_cluster_size cfg < length group ->
  (exists l, l ∈ unique_labels sub_labels
             /\ Aux.group group sub_labels l = group
             /\ submatrix sub (where_label sub_labels l) = sub) ->
  forall fuel,
    _create_clusters average_linkage_cut cfg fuel ts labels sim = None.
Proof.
  intros group sub sub_labels Hin Hmin Hmax (l & Hl & Hgroup & Hsub) fuel.
  destruct fuel as [|fuel]; [done|].
  rewrite create_unfold. apply (loop_stuck _ _ _ _ label); [done|done| |done].
  by apply (create_clusters_stuck group sub l).
Qed.

End Unsplittable.

Lemma uniform_small_never_returns (fuel : nat) :
  Clusterer.cluster_topics Examples.cosine_uniform SciPy.average_linkage_cut
    Examples.cfg_small fuel [Examples.U1; Examples.U2; Examples.U3] = None.
Proof.
  change (Clusterer._create_clusters SciPy.average_linkage_cut
            Examples.cfg_small fuel [Examples.U1; Examples.U2; Examples.U3]
            (Clusterer._hierarchical_clustering SciPy.average_linkage_cut
               Examples.cfg_small [Examples.U1; Examples.U2; Examples.U3]
               Examples.uniform_similarity)
            Examples.uniform_similarity = None).
  apply (create_clusters_stuck _ _ _ _ 1).
  - apply list_elem_of_In. vm_compute. by left.
  - vm_compute. reflexivity.
  - vm_compute. reflexivity.
  - vm_compute. lia.
  - vm_compute. lia.
Qed.

Lemma uniform_default_never_returns (fuel : nat) :
  Clusterer.cluster_topics Examples.cosine_ones SciPy.average_linkage_cut
    Examples.cfg_default fuel (Examples.uniform_topics 21) = None.
Proof.
  change (Clusterer._create_clusters SciPy.average_linkage_cut
            Examples.cfg_default fuel (Examples.uniform_topics 21)
            (Clusterer._hierarchical_clustering SciPy.average_linkage_cut
               Examples.cfg_default (Examples.uniform_topics 21)
               (Examples.ones 21))
            (Examples.ones 21) = None).
  apply (create_clusters_stuck _ _ _ _ 1).
  - apply list_elem_of_In. vm_compute. by left.
  - vm_compute. reflexivity.
  - vm_compute. reflexivity.
  - vm_compute. lia.
  - vm_compute. lia.
Qed.

(** C2: [_create_clusters] re-clusters an oversized group with the same
    threshold and calls itself on the result, without a bound on the depth,
    a test for progress or a fallback.  Whenever re-clustering returns an
    oversized group whole, the call does not return at any depth of
    recursion (Python ends it with a RecursionError).  This happens for
    three topics with the same embedding when clusters hold at most two
    topics, and for twenty-one such topics under the default
    configuration. *)
Theorem C2_unsplittable_group_never_returns :
  (forall average_linkage_cut cfg ts labels sim label,
      let group := Aux.group ts labels label in
      let sub := submatrix sim (Clusterer.where_label labels label) in
      let sub_labels :=
        Clusterer._hierarchical_clustering average_linkage_cut cfg group sub in
      label ∈ Clusterer.unique_labels labels ->
      Clusterer.min_cluster_size cfg <= length group ->
      Clusterer.max_cluster_size cfg < length group ->
      (exists l, l ∈ Clusterer.unique_labels sub_labels
                 /\ Aux.group group sub_labels l = group
                 /\ submatrix sub (Clusterer.where_label sub_labels l) = sub) ->
      forall fuel,
        Clusterer._create_clusters average_linkage_cut cfg fuel ts labels sim
        = None)
  /\ (forall fuel,
        Clusterer.cluster_topics Examples.cosine_uniform
          SciPy.average_linkage_cut Examples.cfg_small fuel
          [Examples.U1; Examples.U2; Examples.U3] = None)
  /\ (forall fuel,
        Clusterer.cluster_topics Examples.cosine_ones
          SciPy.average_linkage_cut Examples.cfg_default fuel
          (Examples.uniform_topics 21) = None).
Proof.
  split; [|split].
  - intros cut cfg ts labels sim label. apply unsplittable_never_returns.
  - apply uniform_small_never_returns.
  - apply uniform_default_never_returns.
Qed.

(** ** build_related_topics *)

Section RelatedTopics.

Variable cfg : config.
Variable sims : gmap (string * string) Q.
Variable g0 : MGraph.

Lemma pair_key_sym (a b : string) : pair_key a b = pair_key b a.
Proof.
  unfold pair_key, String.ltb. rewrite (String.compare_antisym a b).
  destruct (String.compare b a) eqn:Hc; simpl; try done.
  apply String.compare_eq_iff in Hc. by subst.
Qed.

Lemma pair_key_inj (a b c d : string) :
  pair_key a b = pair_key c d -> (a = c /\ b = d) \/ (a = d /\ b = c).
Proof.
  unfold pair_key. destruct (String.ltb b a), (String.ltb d c);
    intros [= -> ->]; auto.
Qed.

Lemma lookup_similarity_none (a b : string) :
  sims !! (a, b) = None -> sims !! (b, a) = None ->
  lookup_similarity sims a b = None /\ lookup_similarity sims b a = None.
Proof. unfold lookup_similarity. by intros -> ->. Qed.

Abbreviation related_inv := (Aux.related_inv g0).
Abbreviation sound := (Aux.sound cfg sims).

Lemma related_step_spec (a b : string) (st : related_state)
    (created : list (string * string * Q)) :
  is_Some (get_node g0 a) -> is_Some (get_node g0 b) ->
  related_inv st created ->
  exists st' extra,
    related_step cfg sims a b st = inl st'
    /\ related_inv st' (created ++ extra)
    /\ Forall (fun p => fst p = (a, b) /\ sound p) extra
    /\ (forall s, lookup_similarity sims a b = Some s ->
                  (related_threshold cfg <= s)%Q ->
                  pair_key a b ∈ map Aux.key_of (created ++ extra)).
Proof.
  intros [na Ha] [nb Hb] (Hg & Hcount & Hproc & Hnd).
  unfold related_step.
  case_bool_decide as Hseen.
  { exists st, []. rewrite app_nil_r. repeat split; try done.
    - by apply Hproc.
    - by apply Hproc.
    - intros s _ _. by apply Hproc. }
  destruct (lookup_similarity sims a b) as [s|] eqn:Hs.
  2:{ exists st, []. rewrite app_nil_r. repeat split; try done.
      - by apply Hproc.
      - by apply Hproc. }
  destruct (Qle_bool (related_threshold cfg) s) eqn:Hle.
  2:{ exists st, []. rewrite app_nil_r. repeat split; try done.
      - by apply Hproc.
      - by apply Hproc.
      - intros s' [= <-] Hs'. apply Qle_bool_iff in Hs'. congruence. }
  apply Qle_bool_iff in Hle.
  unfold create_related_topic_edge.
  assert (get_node (st_graph st) a = Some na) as -> by (by rewrite Hg).
  assert (get_node (st_graph st) b = Some nb) as -> by (by rewrite Hg).
  change (PyFormat.format_error (Some s) ".3f") with (@None exn).
  eexists _, [(a, b, s)]. split; [reflexivity|].
  assert (pair_key a b ∉ map Aux.key_of created) as Hfresh.
  { intros Hin. apply Hseen. by apply Hproc. }
  split; [|split].
  - unfold Aux.related_inv. simpl. rewrite Hg. unfold add_edge. simpl.
    rewrite flat_map_app, !map_app, length_app. simpl.
    rewrite <- !app_assoc. simpl. repeat split; try done.
    + lia.
    + intros Hk. apply elem_of_app.
      apply elem_of_union in Hk as [Hk|Hk].
      * right. apply elem_of_singleton in Hk. subst. apply list_elem_of_here.
      * left. by apply Hproc.
    + intros Hk. apply elem_of_union.
      apply elem_of_app in Hk as [Hk|Hk].
      * right. by apply Hproc.
      * left. apply list_elem_of_singleton in Hk. subst.
        by apply elem_of_singleton.
    + apply NoDup_app. repeat split; try done.
      * intros k Hk Hk'. apply list_elem_of_singleton in Hk'. by subst.
      * apply NoDup_singleton.
  - apply Forall_cons. split; [|by apply Forall_nil]. by repeat split.
  - intros _ _ _. rewrite map_app. apply elem_of_app. right.
    apply list_elem_of_here.
Qed.

Lemma related_inv_keys_mono (created extra : list (string * string * Q))
    (k : string * string) :
  k ∈ map Aux.key_of created -> k ∈ map Aux.key_of (created ++ extra).
Proof. intros Hk. rewrite map_app. apply elem_of_app. by left. Qed.

Lemma related_inner_spec (a : string) (rest : list string) :
  is_Some (get_node g0 a) ->
  (forall b, b ∈ rest -> is_Some (get_node g0 b)) ->
  forall st created,
    related_inv st created ->
    exists st' extra,
      related_inner cfg sims a rest st = inl st'
      /\ related_inv st' (created ++ extra)
      /\ Forall (fun p => fst (fst p) = a /\ snd (fst p) ∈ rest /\ sound p) extra
      /\ (forall b s, b ∈ rest -> lookup_similarity sims a b = Some s ->
                      (related_threshold cfg <= s)%Q ->
                      pair_key a b ∈ map Aux.key_of (created ++ extra)).
Proof.
  intros Ha. induction rest as [|b rest IH]; intros Hnodes st created Hinv.
  - exists st, []. rewrite app_nil_r.
    split; [done|]. split; [done|]. split; [by apply Forall_nil|].
    intros b s Hb. by apply elem_of_nil in Hb.
  - destruct (related_step_spec a b st created Ha
                (Hnodes b (list_elem_of_here _ _)) Hinv)
      as (st1 & e1 & Hstep & Hinv1 & Hsound1 & Hdone1).
    destruct (IH (fun c Hc => Hnodes c (list_elem_of_further _ _ _ Hc))
                 st1 (created ++ e1) Hinv1)
      as (st2 & e2 & Hrun & Hinv2 & Hsound2 & Hdone2).
    exists st2, (e1 ++ e2). simpl. rewrite Hstep, Hrun.
    rewrite app_assoc. split; [done|]. split; [done|]. split.
    + apply Forall_app. split.
      * eapply Forall_impl; [exact Hsound1|].
        intros [[x y] s] [[= -> ->] Hs]. simpl. split; [done|].
        split; [apply list_elem_of_here|done].
      * eapply Forall_impl; [exact Hsound2|].
        intros [[x y] s] (Hx & Hy & Hs). simpl in *. split; [done|].
        split; [by apply list_elem_of_further|done].
    + intros c s Hc Hs Hle. apply elem_of_cons in Hc as [->|Hc].
      * apply related_inv_keys_mono. by eapply Hdone1.
      * by eapply Hdone2.
Qed.

Lemma related_outer_spec (ids : list string) :
  (forall a, a ∈ ids -> is_Some (get_node g0 a)) ->
  forall st created,
    related_inv st created ->
    exists st' extra,
      related_outer cfg sims ids st = inl st'
      /\ related_inv st' (created ++ extra)
      /\ Forall (fun p => [fst (fst p); snd (fst p)] `sublist_of` ids /\ sound p)
                extra
      /\ (forall a b s, [a; b] `sublist_of` ids ->
                        lookup_similarity sims a b = Some s ->
                        (related_threshold cfg <= s)%Q ->
                        pair_key a b ∈ map Aux.key_of (created ++ extra)).
Proof.
  induction ids as [|a ids IH]; intros Hnodes st created Hinv.
  - exists st, []. rewrite app_nil_r.
    split; [done|]. split; [done|]. split; [by apply Forall_nil|].
    intros a b s Hsub. by apply sublist_nil_r in Hsub.
  - destruct (related_inner_spec a ids (Hnodes a (list_elem_of_here _ _))
                (fun c Hc => Hnodes c (list_elem_of_further _ _ _ Hc))
                st created Hinv)
      as (st1 & e1 & Hrun1 & Hinv1 & Hsound1 & Hdone1).
    destruct (IH (fun c Hc => Hnodes c (list_elem_of_further _ _ _ Hc))
                 st1 (created ++ e1) Hinv1)
      as (st2 & e2 & Hrun2 & Hinv2 & Hsound2 & Hdone2).
    exists st2, (e1 ++ e2). simpl. rewrite Hrun1, Hrun2.
    rewrite app_assoc. split; [done|]. split; [done|]. split.
    + apply Forall_app. split.
      * eapply Forall_impl; [exact Hsound1|].
        intros [[x y] s] (Hx & Hy & Hs). simpl in *. subst x.
        split; [|done]. apply sublist_skip. by apply singleton_sublist_l.
      * eapply Forall_impl; [exact Hsound2|].
        intros [[x y] s] (Hsub & Hs). simpl in *.
        split; [|done]. by apply sublist_cons.
    + intros x y s Hsub Hs Hle.
      apply sublist_cons_r in Hsub as [Hsub|(l' & [= -> <-] & Hsub)].
      * by eapply Hdone2.
      * apply related_inv_keys_mono. eapply Hdone1; [|done|done].
        by apply singleton_sublist_l.
Qed.

End RelatedTopics.

(** C5: when every id of [topic_ids] is a node of the graph,
    [build_related_topics] returns normally; the pairs it creates have
    pairwise distinct normalized keys (the key of (a, b) is that of (b, a)),
    so no unordered pair is acted on twice; every created pair is a pair of
    the list, in list order, whose similarity (looked up in either direction)
    is at least [related_threshold]; every such pair of the list has its key
    among the created ones; a pair whose similarity is present in neither
    direction is never created; each created pair adds exactly the two edges
    a -> b and b -> a with the same similarity payload; and the returned count
    is the number of created pairs. *)
Theorem C5_build_related_topics (cfg : config) (g : MGraph)
    (topic_ids : list string) (sims : gmap (string * string) Q) :
  (forall a, a ∈ topic_ids -> is_Some (get_node g a)) ->
  exists created : list (string * string * Q),
    build_related_topics cfg g topic_ids sims
      = (mkGraph (nodes g) (edges g ++ flat_map Aux.related_edges created),
         inr (length created))
    /\ NoDup (map Aux.key_of created)
    /\ (forall a b, pair_key a b = pair_key b a)
    /\ (forall a b s, (a, b, s) ∈ created ->
          [a; b] `sublist_of` topic_ids
          /\ lookup_similarity sims a b = Some s
          /\ (related_threshold cfg <= s)%Q)
    /\ (forall a b s, [a; b] `sublist_of` topic_ids ->
          lookup_similarity sims a b = Some s ->
          (related_threshold cfg <= s)%Q ->
          pair_key a b ∈ map Aux.key_of created)
    /\ (forall a b, sims !! (a, b) = None -> sims !! (b, a) = None ->
          pair_key a b ∉ map Aux.key_of created).
Proof.
  intros Hnodes.
  destruct (related_outer_spec cfg sims g topic_ids Hnodes (mkRelated g 0 ∅) [])
    as (st & created & Hrun & (Hg & Hcount & Hproc & Hnd) & Hsound & Hdone).
  { unfold Aux.related_inv. simpl. rewrite app_nil_r.
    split; [by destruct g|]. split; [done|]. split; [|apply NoDup_nil_2].
    intros k. split; intros Hk;
      [by apply elem_of_empty in Hk|by apply elem_of_nil in Hk]. }
  simpl in *. exists created. unfold build_related_topics. rewrite Hrun.
  rewrite Hg, Hcount. split; [done|]. split; [done|].
  split; [apply pair_key_sym|].
  rewrite Forall_forall in Hsound.
  assert (forall a b s, (a, b, s) ∈ created ->
            [a; b] `sublist_of` topic_ids
            /\ lookup_similarity sims a b = Some s
            /\ (related_threshold cfg <= s)%Q) as Hcreated.
  { intros a b s Hin. destruct (Hsound _ Hin) as (Hsub & Hs & Hle). done. }
  split; [exact Hcreated|]. split; [exact Hdone|].
  intros a b Hab Hba Hin.
  apply list_elem_of_fmap in Hin as ([[x y] s] & Hkey & Hin).
  destruct (Hcreated _ _ _ Hin) as (_ & Hs & _).
  destruct (lookup_similarity_none sims a b Hab Hba) as [Hn1 Hn2].
  unfold Aux.key_of in Hkey. simpl in Hkey.
  apply pair_key_inj in Hkey as [[-> ->]|[-> ->]]; congruence.
Qed.

(** C5 on the three example topics with threshold 0.5: only T1, T2
    qualify; two edges are created and the count is 1. *)
Lemma C5_build_related_topics_witness :
  build_related_topics Examples.builder_cfg Examples.topics_graph
    ["T1"; "T2"; "T3"] Examples.lookup_123
  = (mkGraph (nodes Examples.topics_graph)
       [mkEdge "T1" "T2" "RELATED_TOPIC" [("similarity", 0.9998%Q)];
        mkEdge "T2" "T1" "RELATED_TOPIC" [("similarity", 0.9998%Q)]],
     inr 1)
  /\ exists created : list (string * string * Q),
       build_related_topics Examples.builder_cfg Examples.topics_graph
         ["T1"; "T2"; "T3"] Examples.lookup_123
       = (mkGraph (nodes Examples.topics_graph)
            (edges Examples.topics_graph
             ++ flat_map Aux.related_edges created),
          inr (length created))
       /\ NoDup (map Aux.key_of created).
Proof.
  split; [vm_compute; reflexivity|].
  destruct (C5_build_related_topics Examples.builder_cfg Examples.topics_graph
              ["T1"; "T2"; "T3"] Examples.lookup_123) as (created & H1 & H2 & _).
  - intros a Ha.
    repeat (apply elem_of_cons in Ha as [->|Ha]; [vm_compute; eauto|]).
    by apply elem_of_nil in Ha.
  - exists created. split; [exact H1|exact H2].
Defined.

(** ** Diversity metrics *)

Section Entropy.

Import Analysis.
Local Open Scope R_scope.

Lemma ln_2_pos : 0 < ln 2.
Proof. rewrite <- ln_1. apply ln_increasing; Lra.lra. Qed.

Lemma log2_small (n : nat) : (n <= 1)%nat -> log2 (INR n) = 0.
Proof.
  intros Hn. unfold log2.
  assert (ln (INR n) = 0) as ->; [|unfold Rdiv; apply Rmult_0_l].
  destruct n as [|[|n]]; [|rewrite INR_IZR_INZ; apply ln_1|lia].
  change (INR 0) with 0.
  unfold ln. destruct (Rlt_dec 0 0) as [Hlt|_]; [|reflexivity].
  exfalso. exact (Rlt_irrefl 0 Hlt).
Qed.

Lemma log2_large (n : nat) : (2 <= n)%nat -> 0 < log2 (INR n).
Proof.
  intros Hn. unfold log2. apply Rdiv_lt_0_compat; [|apply ln_2_pos].
  rewrite <- ln_1. apply ln_increasing; [Lra.lra|].
  replace 1 with (INR 1) by (rewrite INR_IZR_INZ; done). apply lt_INR. lia.
Qed.

Lemma log2_quarter : log2 (/ 4) = -2.
Proof.
  unfold log2. rewrite ln_Rinv by Lra.lra.
  replace 4 with (2 * 2) by Lra.lra. rewrite ln_mult by Lra.lra.
  pose proof ln_2_pos. field. Lra.lra.
Qed.

Lemma log2_four : log2 4 = 2.
Proof.
  unfold log2. replace 4 with (2 * 2) by Lra.lra. rewrite ln_mult by Lra.lra.
  pose proof ln_2_pos. field. Lra.lra.
Qed.

Lemma Rsum_filter_positive (h : R -> R) (ps : list R) :
  h 0 = 0 -> Forall (fun p => 0 <= p) ps ->
  Rsum (map h (List.filter positive ps)) = Rsum (map h ps).
Proof.
  intros Hh. induction 1 as [|p ps Hp _ IH]; [done|].
  simpl. unfold positive at 1. destruct (Rlt_dec 0 p) as [Hpos|Hneg].
  - simpl. by rewrite IH.
  - assert (p = 0) as -> by Lra.lra. rewrite IH, Hh. Lra.lra.
Qed.

Lemma probabilities_nonneg (fs : list nat) (total : nat) :
  (0 < total)%nat ->
  Forall (fun p => 0 <= p) (map (fun f => INR f / INR total) fs).
Proof.
  intros Htotal. apply Forall_forall. intros p Hp.
  apply list_elem_of_fmap in Hp as (f & -> & _).
  apply Rmult_le_pos; [apply pos_INR|].
  left. apply Rinv_0_lt_compat. by apply lt_0_INR.
Qed.

(** The entropy computed from the positive probabilities only is the
    Shannon entropy over all topics. *)
Lemma entropy_pair_spec (fs : list nat) (n : nat) :
  let total := list_sum fs in
  (total = 0%nat -> entropy_pair fs n = (0, 0))
  /\ ((0 < total)%nat -> fst (entropy_pair fs n) = shannon_entropy fs)
  /\ ((0 < total)%nat -> (n <= 1)%nat -> snd (entropy_pair fs n) = 0)
  /\ ((0 < total)%nat -> (2 <= n)%nat ->
      snd (entropy_pair fs n) = shannon_entropy fs / log2 (INR n)).
Proof.
  intros total.
  assert ((0 < total)%nat ->
          - Rsum (map (fun p => p * log2 p)
                   (List.filter positive
                      (map (fun f => INR f / INR total) fs)))
          = shannon_entropy fs) as Hsum.
  { intros Htotal. unfold shannon_entropy. fold total. f_equal.
    rewrite Rsum_filter_positive;
      [|apply Rmult_0_l|by apply probabilities_nonneg].
    by rewrite map_map. }
  unfold entropy_pair. fold total.
  destruct (Nat.ltb_spec 0 total) as [Hpos|Hzero].
  - split; [lia|]. simpl. split; [done|]. split.
    + intros _ Hn. rewrite (log2_small n Hn).
      destruct (Rlt_dec 0 0) as [Hlt|_]; [exfalso; exact (Rlt_irrefl 0 Hlt)|done].
    + intros _ Hn. pose proof (log2_large n Hn).
      destruct (Rlt_dec 0 (log2 (INR n))); [|done].
      by rewrite Hsum.
  - split; [done|]. repeat split; lia.
Qed.

Lemma entropy_four_equal :
  entropy_pair [10; 10; 10; 10]%nat 4 = (2, 1).
Proof.
  destruct (entropy_pair_spec [10; 10; 10; 10]%nat 4) as (_ & H1 & _ & H2).
  specialize (H1 ltac:(simpl; lia)). specialize (H2 ltac:(simpl; lia) ltac:(lia)).
  assert (shannon_entropy [10; 10; 10; 10]%nat = 2) as Hs.
  { unfold shannon_entropy, Rsum.
    change (list_sum [10; 10; 10; 10]%nat) with 40%nat.
    cbn [map fold_right]. rewrite !INR_IZR_INZ.
    change (Z.of_nat 10) with 10%Z. change (Z.of_nat 40) with 40%Z.
    replace (10 / 40) with (/ 4) by Lra.lra. rewrite log2_quarter. Lra.lra. }
  rewrite Hs in H1, H2.
  replace (INR 4) with 4 in H2 by (rewrite INR_IZR_INZ; done).
  rewrite log2_four in H2.
  destruct (entropy_pair _ _) as [e ne]. simpl in *. subst. f_equal. Lra.lra.
Qed.

End Entropy.

(** C9: when the graph has a page and a topic, [calculate_diversity_metrics]
    returns a record whose [topic_entropy] is the base-2 Shannon entropy of
    the distribution of the topics' incoming HAS_TOPIC counts and whose
    [normalized_entropy] is that entropy divided by log2 of the number of
    topics; both are 0 when the total frequency is 0, and the normalized
    entropy is 0 when there is a single topic.  For four topics of frequency
    10 each the entropy is exactly 2 and the normalized entropy exactly 1. *)
Theorem C9_diversity_entropy (g : MGraph) :
  query g "Page" <> [] -> query g "Topic" <> [] ->
  let frequencies := Analysis.topic_frequencies g (query g "Topic") in
  let topic_count := length (query g "Topic") in
  exists m,
    Analysis.calculate_diversity_metrics g = Some m
    /\ (list_sum frequencies = 0%nat ->
        Analysis.topic_entropy m = 0%R /\ Analysis.normalized_entropy m = 0%R)
    /\ ((0 < list_sum frequencies)%nat ->
        Analysis.topic_entropy m = Analysis.shannon_entropy frequencies)
    /\ ((0 < list_sum frequencies)%nat -> (topic_count <= 1)%nat ->
        Analysis.normalized_entropy m = 0%R)
    /\ ((0 < list_sum frequencies)%nat -> (2 <= topic_count)%nat ->
        Analysis.normalized_entropy m
        = (Analysis.shannon_entropy frequencies
           / Analysis.log2 (INR topic_count))%R)
    /\ (frequencies = [10; 10; 10; 10]%nat ->
        Analysis.topic_entropy m = 2%R /\ Analysis.normalized_entropy m = 1%R).
Proof.
  intros Hpages Htopics frequencies topic_count.
  unfold Analysis.calculate_diversity_metrics.
  fold frequencies topic_count.
  destruct (query g "Page") as [|page pages] eqn:Hp; [done|].
  destruct (query g "Topic") as [|topic topics] eqn:Ht; [done|].
  eexists. split; [reflexivity|]. simpl Analysis.topic_entropy.
  simpl Analysis.normalized_entropy.
  destruct (entropy_pair_spec frequencies topic_count) as (H0 & H1 & H2 & H3).
  split; [intros Hz; by rewrite (H0 Hz)|].
  split; [done|]. split; [done|]. split; [done|].
  intros Hfs. subst topic_count.
  assert (length (topic :: topics) = 4%nat) as ->.
  { apply (f_equal length) in Hfs. unfold frequencies in Hfs.
    unfold Analysis.topic_frequencies in Hfs. by rewrite length_map in Hfs. }
  rewrite Hfs, entropy_four_equal. done.
Qed.

(** C9 on a graph with one page and four topics of frequency 10. *)
Lemma C9_diversity_entropy_witness :
  exists m,
    Analysis.calculate_diversity_metrics Examples.diversity_graph = Some m
    /\ Analysis.topic_entropy m = 2%R /\ Analysis.normalized_entropy m = 1%R.
Proof.
  destruct (C9_diversity_entropy Examples.diversity_graph)
    as (m & Hm & _ & _ & _ & _ & Hex).
  - vm_compute. discriminate.
  - vm_compute. discriminate.
  - exists m. split; [exact Hm|]. apply Hex. vm_compute. reflexivity.
Defined.

(** ** build_hierarchy *)

Section Hierarchy.

Import Clusterer.

(** *** The enumeration and the sort *)

Lemma enumerate_lookup (topics : list Topic) (i : nat) (t : Topic) :
  (i, t) ∈ enumerate topics <-> topics !! i = Some t.
Proof.
  unfold enumerate. rewrite elem_of_lookup_imap. split.
  - by intros (j & y & [= -> ->] & H).
  - intros H. by exists i, t.
Qed.

Lemma imap_pair_fst (topics : list Topic) (k : nat) :
  map fst (imap (fun i t => (k + i, t)) topics) = seq k (length topics).
Proof.
  revert k. induction topics as [|t topics IH]; intros k; [done|].
  rewrite imap_cons. simpl. rewrite Nat.add_0_r. f_equal.
  rewrite <- IH. f_equal. apply imap_ext. intros i x _. simpl. f_equal. lia.
Qed.

Lemma imap_pair_snd (topics : list Topic) (k : nat) :
  map snd (imap (fun i t => (k + i, t)) topics) = topics.
Proof.
  revert k. induction topics as [|t topics IH]; intros k; [done|].
  rewrite imap_cons. simpl. f_equal.
  rewrite <- (IH (S k)) at 2. f_equal.
  apply imap_ext. intros i x _. simpl. f_equal. lia.
Qed.

Lemma enumerate_fst (topics : list Topic) :
  map fst (enumerate topics) = seq 0 (length topics).
Proof. apply (imap_pair_fst topics 0). Qed.

Lemma enumerate_snd (topics : list Topic) : map snd (enumerate topics) = topics.
Proof. apply (imap_pair_snd topics 0). Qed.

Lemma enumerate_idf (topics : list Topic) :
  map Aux.idf (enumerate topics) = map id topics.
Proof.
  rewrite <- (enumerate_snd topics) at 2. by rewrite map_map.
Qed.

Lemma enumerate_length (topics : list Topic) :
  length (enumerate topics) = length topics.
Proof. apply length_imap. Qed.

Lemma insert_desc_perm (x : ref) (l : list ref) : insert_desc x l ≡ₚ x :: l.
Proof.
  induction l as [|y l IH]; simpl; [done|].
  destruct (frequency y.2 <=? frequency x.2)%Z; [done|].
  rewrite IH. apply Permutation_swap.
Qed.

Lemma sorted_perm (l : list ref) : sorted_by_frequency l ≡ₚ l.
Proof.
  induction l as [|x l IH]; simpl; [done|].
  by rewrite insert_desc_perm, IH.
Qed.

Lemma insert_desc_sorted (x : ref) (l : list ref) :
  Forall (fun y => fst x < fst y) l ->
  StronglySorted Aux.freq_desc l ->
  StronglySorted Aux.freq_desc (insert_desc x l).
Proof.
  intros Hfst. induction 1 as [|y l Hl IH Hy]; simpl.
  - apply SSorted_cons; [apply SSorted_nil|by apply Forall_nil].
  - apply Forall_cons in Hfst as [Hxy Hfst].
    destruct (Z.leb_spec (frequency y.2) (frequency x.2)) as [Hle|Hgt].
    + apply SSorted_cons; [by apply SSorted_cons|].
      assert (Aux.freq_desc x y) as Hfirst.
      { unfold Aux.freq_desc. destruct (decide (frequency y.2 = frequency x.2));
          [right; done|left; lia]. }
      apply Forall_cons. split; [done|].
      rewrite Forall_forall in Hy, Hfst. apply Forall_forall. intros z Hz.
      specialize (Hy z Hz). specialize (Hfst z Hz).
      unfold Aux.freq_desc in *. lia.
    + apply SSorted_cons; [by apply IH|].
      rewrite insert_desc_perm. apply Forall_cons. split; [|done].
      unfold Aux.freq_desc. left. lia.
Qed.

Lemma sorted_sorted_from (topics : list Topic) (k : nat) :
  StronglySorted Aux.freq_desc
    (sorted_by_frequency (imap (fun i t => (k + i, t)) topics)).
Proof.
  revert k. induction topics as [|t topics IH]; intros k; [apply SSorted_nil|].
  rewrite imap_cons. simpl.
  assert (imap ((fun i t => (k + i, t)) ∘ S) topics
          = imap (fun i t => (S k + i, t)) topics) as ->.
  { apply imap_ext. intros i x _. simpl. f_equal. lia. }
  apply insert_desc_sorted; [|apply IH].
  rewrite sorted_perm. apply Forall_forall. intros y Hy.
  apply elem_of_lookup_imap in Hy as (i & u & -> & _). simpl. lia.
Qed.

Lemma sorted_sorted (topics : list Topic) :
  StronglySorted Aux.freq_desc (sorted_by_frequency (enumerate topics)).
Proof. apply (sorted_sorted_from topics 0). Qed.

(** *** The index from ids to positions *)

Lemma topic_index_fold (l : list ref) (m : gmap string nat) :
  NoDup (map Aux.idf l) ->
  forall r, r ∈ l ->
    fold_left (fun m (r : ref) => <[id r.2 := r.1]> m) l m !! Aux.idf r
    = Some r.1.
Proof.
  revert m. induction l as [|x l IH]; intros m Hnd r Hr.
  - by apply elem_of_nil in Hr.
  - apply NoDup_cons in Hnd as [Hx Hnd]. simpl.
    apply elem_of_cons in Hr as [->|Hr]; [|by apply IH].
    clear IH. revert m. induction l as [|y l IH]; intros m; simpl.
    + by rewrite lookup_insert_eq.
    + apply not_elem_of_cons in Hx as [Hxy Hx].
      apply NoDup_cons in Hnd as [_ Hnd].
      rewrite insert_insert_ne by done. by apply IH.
Qed.

Lemma make_topic_index_lookup (topics : list Topic) (r : ref) :
  NoDup (map id topics) -> r ∈ enumerate topics ->
  make_topic_index topics !! id r.2 = Some r.1.
Proof.
  intros Hnd Hr. apply (topic_index_fold (enumerate topics) ∅); [|done].
  by rewrite enumerate_idf.
Qed.

End Hierarchy.

Section BestParent.

Import Clusterer.

Variable thr : Q.
Variable sim : ref -> Q.

Lemma Qle_bool_false (a b : Q) : Qle_bool a b = false -> (b < a)%Q.
Proof.
  intros H. apply Qnot_le_lt. intros Hle. apply Qle_bool_iff in Hle. congruence.
Qed.

Abbreviation best_inv := (Aux.best_inv thr sim).

Lemma best_parent_from_inv (todo : list ref) :
  forall seen max_sim best,
    best_inv seen (max_sim, best) ->
    best_inv (seen ++ todo) (Aux.best_parent_from thr sim todo max_sim best).
Proof.
  induction todo as [|r todo IH]; intros seen max_sim best Hinv.
  - by rewrite app_nil_r.
  - simpl. replace (seen ++ r :: todo) with ((seen ++ [r]) ++ todo)
      by (by rewrite <- app_assoc).
    destruct (Qle_bool (sim r) max_sim) eqn:Hmax; simpl.
    + (* not greater than the maximum so far *)
      apply Qle_bool_iff in Hmax. apply IH.
      unfold Aux.best_inv in *. simpl in *. destruct best as [p|].
      * destruct Hinv as (-> & Hthr & before & after & -> & Hb & Ha).
        split; [done|]. split; [done|].
        exists before, (after ++ [r]). split; [by rewrite <- app_assoc|].
        split; [done|]. intros x [Hx|Hx]%elem_of_app; [by apply Ha|].
        apply list_elem_of_singleton in Hx. by subst.
      * destruct Hinv as (-> & Hseen). split; [done|].
        intros x [Hx|Hx]%elem_of_app; [by apply Hseen|].
        apply list_elem_of_singleton in Hx. subst. intros [Hgt _].
        Lqa.lra.
    + apply Qle_bool_false in Hmax.
      destruct (Qle_bool thr (sim r)) eqn:Hthr.
      * (* a new maximum that reaches the threshold *)
        apply Qle_bool_iff in Hthr. apply IH.
        unfold Aux.best_inv in *. simpl in *.
        split; [done|]. split; [done|].
        exists seen, []. split; [done|]. split; [|by intros x Hx%elem_of_nil].
        intros x Hx. destruct best as [p|].
        -- destruct Hinv as (-> & _ & before & after & -> & Hb & Ha).
           apply elem_of_app in Hx as [Hx|Hx].
           ++ specialize (Hb x Hx). Lqa.lra.
           ++ apply elem_of_cons in Hx as [->|Hx]; [done|].
              specialize (Ha x Hx). Lqa.lra.
        -- destruct Hinv as (-> & Hseen). specialize (Hseen x Hx).
           destruct (Qlt_le_dec (sim x) (sim r)) as [|Hge]; [done|].
           exfalso. apply Hseen. split; Lqa.lra.
      * (* greater, but below the threshold *)
        apply Qle_bool_false in Hthr. apply IH.
        unfold Aux.best_inv in *. simpl in *. destruct best as [p|].
        -- destruct Hinv as (-> & Hp & before & after & -> & Hb & Ha).
           Lqa.lra.
        -- destruct Hinv as (-> & Hseen). split; [done|].
           intros x [Hx|Hx]%elem_of_app; [by apply Hseen|].
           apply list_elem_of_singleton in Hx. subst. intros [_ Hge].
           Lqa.lra.
Qed.

Lemma best_parent_from_spec (roots : list ref) :
  best_inv roots (Aux.best_parent_from thr sim roots (-1) None).
Proof.
  apply (best_parent_from_inv roots [] (-1)%Q None).
  split; [done|]. by intros r Hr%elem_of_nil.
Qed.

Lemma is_best_elem (roots : list ref) (p : ref) :
  Aux.is_best sim roots p -> p ∈ roots.
Proof.
  intros (before & after & -> & _). apply elem_of_app. right.
  apply list_elem_of_here.
Qed.

Lemma is_best_max (roots : list ref) (p r : ref) :
  Aux.is_best sim roots p -> r ∈ roots -> (sim r <= sim p)%Q.
Proof.
  intros (before & after & -> & Hb & Ha) [Hr|Hr]%elem_of_app.
  - apply Qlt_le_weak. by apply Hb.
  - apply elem_of_cons in Hr as [->|Hr]; [apply Qle_refl|by apply Ha].
Qed.

Lemma is_best_unique (roots : list ref) (p q : ref) :
  Aux.is_best sim roots p -> Aux.is_best sim roots q -> p = q.
Proof.
  intros (b1 & a1 & -> & Hb1 & Ha1) (b2 & a2 & Heq & Hb2 & Ha2).
  revert b2 Heq Hb2. induction b1 as [|x b1 IH]; intros [|y b2] Heq Hb2.
  - by injection Heq.
  - injection Heq as <- Heq.
    assert (q ∈ a1) as Hq.
    { rewrite Heq. apply elem_of_app. right. apply list_elem_of_here. }
    specialize (Ha1 q Hq). specialize (Hb2 p (list_elem_of_here _ _)).
    Lqa.lra.
  - injection Heq as -> Heq.
    assert (p ∈ a2) as Hp.
    { rewrite <- Heq. apply elem_of_app. right. apply list_elem_of_here. }
    specialize (Ha2 p Hp). specialize (Hb1 q (list_elem_of_here _ _)).
    Lqa.lra.
  - injection Heq as <- Heq. apply (IH (fun r Hr => Hb1 r (list_elem_of_further _ _ _ Hr))
                                      b2 Heq).
    intros r Hr. apply Hb2. by apply list_elem_of_further.
Qed.

Lemma is_best_exists (roots : list ref) :
  roots <> [] -> exists p, Aux.is_best sim roots p.
Proof.
  induction roots as [|r roots IH]; [done|]. intros _.
  destruct roots as [|r' roots].
  - exists r, [], []. split; [done|]. split; by intros x Hx%elem_of_nil.
  - destruct (IH ltac:(done)) as (p & before & after & Heq & Hb & Ha).
    destruct (Qlt_le_dec (sim r) (sim p)) as [Hlt|Hge].
    + exists p, (r :: before), after. rewrite Heq. split; [done|].
      split; [|done]. intros x [->|Hx]%elem_of_cons; [done|by apply Hb].
    + exists r, [], (r' :: roots). split; [done|].
      split; [by intros x Hx%elem_of_nil|].
      intros x Hx. rewrite Heq in Hx.
      apply elem_of_app in Hx as [Hx|Hx].
      * specialize (Hb x Hx). Lqa.lra.
      * apply elem_of_cons in Hx as [->|Hx]; [done|].
        specialize (Ha x Hx). Lqa.lra.
Qed.

End BestParent.

Section HierarchyFold.

Import Clusterer.

(** *** Keys and child lists under the two updates of the dictionary *)

Lemma entries_ids_flat (l : list (string * list string)) :
  Aux.entries_ids l ≡ₚ flat_map (fun e => fst e :: snd e) l.
Proof.
  unfold Aux.entries_ids. induction l as [|e l IH]; simpl; [done|].
  apply Permutation_skip. rewrite Permutation_app_swap_app.
  by apply Permutation_app_head.
Qed.

Lemma entries_ids_perm (l1 l2 : list (string * list string)) :
  l1 ≡ₚ l2 -> Aux.entries_ids l1 ≡ₚ Aux.entries_ids l2.
Proof.
  intros Hperm. rewrite !entries_ids_flat. by apply Permutation_flat_map.
Qed.

Lemma kc_insert_fresh (h : gmap string (list string)) (k : string) :
  h !! k = None ->
  Aux.keys_and_children (<[k := []]> h) ≡ₚ k :: Aux.keys_and_children h.
Proof.
  intros Hk. unfold Aux.keys_and_children.
  rewrite (entries_ids_perm _ _ (map_to_list_insert h k [] Hk)). done.
Qed.

Lemma kc_append (h : gmap string (list string)) (k c : string)
    (l : list string) :
  h !! k = Some l ->
  Aux.keys_and_children (<[k := l ++ [c]]> h) ≡ₚ c :: Aux.keys_and_children h.
Proof.
  intros Hk. unfold Aux.keys_and_children.
  rewrite <- (entries_ids_perm _ _ (map_to_list_delete h k l Hk)).
  rewrite <- (insert_delete_eq h).
  rewrite (entries_ids_perm _ _
             (map_to_list_insert (delete k h) k (l ++ [c])
                                 (lookup_delete_eq h k))).
  rewrite !entries_ids_flat. simpl.
  rewrite (perm_swap k c). apply Permutation_skip.
  rewrite <- app_assoc. simpl. symmetry. apply Permutation_middle.
Qed.

Lemma NoDup_map_app_ne {A B} (f : A -> B) (l1 l2 : list A) (x y : A) :
  NoDup (map f (l1 ++ l2)) -> x ∈ l1 -> y ∈ l2 -> f x <> f y.
Proof.
  rewrite map_app. intros (_ & Hdisj & _)%NoDup_app Hx Hy Heq.
  apply (Hdisj (f x)).
  - apply list_elem_of_fmap. by exists x.
  - rewrite Heq. apply list_elem_of_fmap. by exists y.
Qed.

Variable cfg : config.
Variable M : matrix.
Variable topic_index : gmap string nat.
Variable roots : list ref.

Hypothesis roots_indexed :
  forall r, r ∈ roots -> topic_index !! Aux.idf r = Some (fst r).

Abbreviation parent := (Aux.parent_of cfg M roots).
Abbreviation inv := (Aux.hinv cfg M roots).

(** With every root in the index, the inner loop raises no [KeyError] and
    computes [best_parent_from]. *)
Lemma best_parent_loop_pure (topic_idx : nat) (todo : list ref) :
  (forall r, r ∈ todo -> topic_index !! Aux.idf r = Some (fst r)) ->
  forall max_sim best,
    best_parent_loop cfg M topic_index topic_idx todo max_sim best
    = Some (Aux.best_parent_from (similarity_threshold cfg)
              (fun r => mat_get M topic_idx (fst r)) todo max_sim best).
Proof.
  induction todo as [|r todo IH]; intros Hidx max_sim best; [done|].
  simpl. unfold Aux.idf in Hidx.
  rewrite (Hidx r (list_elem_of_here _ _)).
  destruct (negb _ && _); apply IH; intros x Hx; apply Hidx;
    by apply list_elem_of_further.
Qed.

Lemma parent_in_roots (t p : ref) : parent t = Some p -> p ∈ roots.
Proof.
  unfold Aux.parent_of. intros Hp.
  pose proof (best_parent_from_spec (similarity_threshold cfg)
                (Aux.sim_to M t) roots) as Hinv.
  unfold Aux.best_inv in Hinv. rewrite Hp in Hinv.
  destruct Hinv as (_ & _ & Hbest). by eapply is_best_elem.
Qed.

(** *** The loop over the roots *)

Lemma assign_roots_inv (todo : list ref) :
  forall R st,
    NoDup (map Aux.idf (R ++ todo)) -> NoDup (map fst (R ++ todo)) ->
    inv R [] st -> inv (R ++ todo) [] (assign_roots todo st).
Proof.
  induction todo as [|x todo IH]; intros R st Hids Hpos Hinv.
  - by rewrite app_nil_r.
  - simpl. replace (R ++ x :: todo) with ((R ++ [x]) ++ todo) in *
      by (by rewrite <- app_assoc).
    apply IH; [done|done|].
    destruct Hinv as (H1 & H2 & H3 & H4 & H5 & H6 & H7).
    assert (forall r, r ∈ R -> Aux.idf r <> Aux.idf x) as Hidx.
    { intros r Hr. apply (NoDup_map_app_ne Aux.idf R ([x] ++ todo));
        [by rewrite app_assoc|done|]. apply list_elem_of_here. }
    assert (forall r, r ∈ R -> fst r <> fst x) as Hposx.
    { intros r Hr. apply (NoDup_map_app_ne fst R ([x] ++ todo));
        [by rewrite app_assoc|done|]. apply list_elem_of_here. }
    assert (hierarchy st !! Aux.idf x = None) as Hfresh.
    { apply eq_None_not_Some. intros Hsome. apply H1 in Hsome as [Hin|Hin].
      - apply list_elem_of_fmap in Hin as (r & Heq & Hr).
        by apply (Hidx r Hr).
      - destruct Hin as (t & Ht & _). by apply elem_of_nil in Ht. }
    unfold Aux.hinv. simpl. rewrite !app_nil_r in *.
    split; [|split; [|split; [|split; [|split; [|split]]]]].
    + intros k. rewrite lookup_insert_is_Some, H1, map_app, elem_of_app.
      simpl. rewrite list_elem_of_singleton. unfold Aux.idf. split.
      * intros [ <- |[_ [Hk|Hk]]]; [left; by right|left; by left|by right].
      * intros [[Hk| -> ]|Hk]; [|by left|].
        -- destruct (decide (id x.2 = k)); [by left|right]. split; [done|].
           by left.
        -- destruct (decide (id x.2 = k)); [by left|right]. split; [done|].
           by right.
    + intros t p Ht. by apply elem_of_nil in Ht.
    + intros t Ht. by apply elem_of_nil in Ht.
    + rewrite (kc_insert_fresh _ _ Hfresh), H4, map_app. simpl.
      apply Permutation_cons_append.
    + intros r [Hr|Hr]%elem_of_app.
      * rewrite lookup_insert_ne; [by apply H5|].
        intros Heq. by apply (Hposx r Hr).
      * apply list_elem_of_singleton in Hr. subst. by rewrite lookup_insert_eq.
    + intros t Ht. by apply elem_of_nil in Ht.
    + intros i. rewrite lookup_insert_is_Some, map_app, elem_of_app. simpl.
      rewrite list_elem_of_singleton. intros [ <- |[_ Hi]]; [by right|left].
      by apply H7.
Qed.

(** *** The loop over the remaining topics *)

Lemma assign_children_inv (todo : list ref) :
  forall P st,
    NoDup (map Aux.idf (roots ++ P ++ todo)) ->
    NoDup (map fst (roots ++ P ++ todo)) ->
    (forall t, t ∈ todo -> topic_index !! Aux.idf t = Some (fst t)) ->
    inv roots P st ->
    exists st',
      assign_children cfg M topic_index roots todo st = Some st'
      /\ inv roots (P ++ todo) st'.
Proof.
  induction todo as [|t todo IH]; intros P st Hids Hpos Hidx Hinv.
  - exists st. by rewrite app_nil_r.
  - simpl. unfold Aux.idf in Hidx.
    rewrite (Hidx t (list_elem_of_here _ _)).
    rewrite (best_parent_loop_pure (fst t) roots roots_indexed).
    replace (P ++ t :: todo) with ((P ++ [t]) ++ todo) in *
      by (by rewrite <- app_assoc).
    assert (forall x, x ∈ roots ++ P -> Aux.idf x <> Aux.idf t) as Hidt.
    { intros x Hx. apply (NoDup_map_app_ne Aux.idf (roots ++ P) (t :: todo));
        [|done|apply list_elem_of_here].
      by rewrite <- !app_assoc in *. }
    assert (forall x, x ∈ roots ++ P -> fst x <> fst t) as Hpost.
    { intros x Hx. apply (NoDup_map_app_ne fst (roots ++ P) (t :: todo));
        [|done|apply list_elem_of_here].
      by rewrite <- !app_assoc in *. }
    assert (forall r x, r ∈ roots -> x ∈ P -> Aux.idf r <> Aux.idf x) as Hrp.
    { intros r x Hr Hx.
      apply (NoDup_map_app_ne Aux.idf roots ((P ++ [t]) ++ todo));
        [done|done|]. apply elem_of_app. left. apply elem_of_app. by left. }
    destruct Hinv as (H1 & H2 & H3 & H4 & H5 & H6 & H7).
    change (Aux.best_parent_from (similarity_threshold cfg)
              (fun r => mat_get M (fst t) (fst r)) roots (-1) None)
      with (Aux.best_parent_from (similarity_threshold cfg)
              (Aux.sim_to M t) roots (-1) None).
    destruct (Aux.best_parent_from (similarity_threshold cfg)
                (Aux.sim_to M t) roots (-1) None) as [ms [p|]] eqn:Hbest.
    + (* a parent was found *)
      assert (parent t = Some p) as Hparent
        by (unfold Aux.parent_of; by rewrite Hbest).
      pose proof (parent_in_roots t p Hparent) as Hp.
      assert (is_Some (hierarchy st !! Aux.idf p)) as [l Hl].
      { apply H1. left. apply list_elem_of_fmap. by exists p. }
      unfold Aux.idf in Hl. rewrite Hl.
      apply IH; [done|done| |].
      { intros x Hx. apply Hidx. by apply list_elem_of_further. }
      unfold Aux.hinv. simpl.
      split; [|split; [|split; [|split; [|split; [|split]]]]].
      * intros k. rewrite lookup_insert_is_Some, H1. split.
        -- intros [ <- |[_ [Hk|(x & Hx & Hxp & Hxk)]]].
           ++ left. apply list_elem_of_fmap. by exists p.
           ++ by left.
           ++ right. exists x. split; [|done]. apply elem_of_app. by left.
        -- intros [Hk|(x & Hx & Hxp & Hxk)].
           ++ destruct (decide (id p.2 = k)); [by left|right].
              split; [done|]. by left.
           ++ destruct (decide (id p.2 = k)); [by left|right].
              split; [done|]. right.
              apply elem_of_app in Hx as [Hx|Hx]; [by exists x|].
              apply list_elem_of_singleton in Hx. subst. congruence.
      * intros x q [Hx|Hx]%elem_of_app Hq.
        -- destruct (H2 x q Hx Hq) as (lq & Hlq & Hin).
           destruct (decide (id p.2 = Aux.idf q)) as [Heq|Hne].
           ++ rewrite <- Heq, lookup_insert_eq. eexists. split; [done|].
              rewrite <- Heq in Hlq. rewrite Hl in Hlq.
              injection Hlq as <-. apply elem_of_app. by left.
           ++ rewrite lookup_insert_ne by done. eauto.
        -- apply list_elem_of_singleton in Hx. subst x.
           rewrite Hparent in Hq. injection Hq as <-.
           unfold Aux.idf at 1. rewrite lookup_insert_eq.
           eexists. split; [done|]. apply elem_of_app. right.
           apply list_elem_of_here.
      * intros x [Hx|Hx]%elem_of_app Hq.
        -- rewrite lookup_insert_ne; [by apply H3|].
           apply (Hrp p x Hp Hx).
        -- apply list_elem_of_singleton in Hx. subst x. congruence.
      * rewrite (kc_append _ _ _ _ Hl), H4, !map_app. simpl.
        rewrite app_assoc. apply Permutation_cons_append.
      * intros r Hr. rewrite lookup_insert_ne; [by apply H5|].
        intros Heq. apply (Hpost r); [|done]. apply elem_of_app. by left.
      * intros x [Hx|Hx]%elem_of_app.
        -- rewrite lookup_insert_ne; [by apply H6|].
           intros Heq. apply (Hpost x); [|done]. apply elem_of_app. by right.
        -- apply list_elem_of_singleton in Hx. subst x.
           rewrite lookup_insert_eq. unfold Aux.level_of. by rewrite Hparent.
      * intros i. rewrite lookup_insert_is_Some, !map_app, !elem_of_app. simpl.
        rewrite list_elem_of_singleton.
        intros [ <- |[_ Hi]]; [right; by right|].
        apply H7 in Hi. rewrite map_app, elem_of_app in Hi.
        destruct Hi; [by left|right; by left].
    + (* no parent: the topic becomes a root *)
      assert (parent t = None) as Hparent
        by (unfold Aux.parent_of; by rewrite Hbest).
      assert (hierarchy st !! Aux.idf t = None) as Hfresh.
      { apply eq_None_not_Some. intros Hsome.
        apply H1 in Hsome as [Hin|(x & Hx & _ & Heq)].
        - apply list_elem_of_fmap in Hin as (r & Heq & Hr).
          apply (Hidt r); [|done]. apply elem_of_app. by left.
        - apply (Hidt x); [|done]. apply elem_of_app. by right. }
      apply IH; [done|done| |].
      { intros x Hx. apply Hidx. by apply list_elem_of_further. }
      unfold Aux.hinv. simpl.
      split; [|split; [|split; [|split; [|split; [|split]]]]].
      * intros k. rewrite lookup_insert_is_Some, H1. split.
        -- intros [ <- |[_ [Hk|(x & Hx & Hxp & Hxk)]]].
           ++ right. exists t. split; [|done]. apply elem_of_app. right.
              apply list_elem_of_here.
           ++ by left.
           ++ right. exists x. split; [|done]. apply elem_of_app. by left.
        -- intros [Hk|(x & Hx & Hxp & Hxk)].
           ++ destruct (decide (id t.2 = k)); [by left|right].
              split; [done|]. by left.
           ++ destruct (decide (id t.2 = k)); [by left|right].
              split; [done|]. right.
              apply elem_of_app in Hx as [Hx|Hx]; [by exists x|].
              apply list_elem_of_singleton in Hx. by subst.
      * intros x q [Hx|Hx]%elem_of_app Hq.
        -- destruct (H2 x q Hx Hq) as (lq & Hlq & Hin).
           rewrite lookup_insert_ne; [eauto|].
           intros Heq. apply (Hidt q); [|done].
           apply elem_of_app. left. by eapply parent_in_roots.
        -- apply list_elem_of_singleton in Hx. subst x. congruence.
      * intros x [Hx|Hx]%elem_of_app Hq.
        -- rewrite lookup_insert_ne; [by apply H3|].
           intros Heq. apply (Hidt x); [|done]. apply elem_of_app. by right.
        -- apply list_elem_of_singleton in Hx. subst x.
           unfold Aux.idf. by rewrite lookup_insert_eq.
      * rewrite (kc_insert_fresh _ _ Hfresh), H4, !map_app. simpl.
        rewrite app_assoc. apply Permutation_cons_append.
      * intros r Hr. rewrite lookup_insert_ne; [by apply H5|].
        intros Heq. apply (Hpost r); [|done]. apply elem_of_app. by left.
      * intros x [Hx|Hx]%elem_of_app.
        -- rewrite lookup_insert_ne; [by apply H6|].
           intros Heq. apply (Hpost x); [|done]. apply elem_of_app. by right.
        -- apply list_elem_of_singleton in Hx. subst x.
           rewrite lookup_insert_eq. unfold Aux.level_of. by rewrite Hparent.
      * intros i. rewrite lookup_insert_is_Some, !map_app, !elem_of_app. simpl.
        rewrite list_elem_of_singleton.
        intros [ <- |[_ Hi]]; [right; by right|].
        apply H7 in Hi. rewrite map_app, elem_of_app in Hi.
        destruct Hi; [by left|right; by left].
Qed.

End HierarchyFold.

Lemma flat_map_NoDup_inj {A B} (f : A -> list B) (l : list A) (x y : A) (c : B) :
  NoDup (flat_map f l) -> x ∈ l -> y ∈ l -> c ∈ f x -> c ∈ f y -> x = y.
Proof.
  induction l as [|e l IH]; intros Hnd Hx Hy Hcx Hcy.
  - by apply elem_of_nil in Hx.
  - simpl in Hnd. apply NoDup_app in Hnd as (_ & Hdisj & Hnd).
    assert (forall z, z ∈ l -> c ∈ f z -> c ∈ flat_map f l) as Hin.
    { intros z Hz Hc. apply list_elem_of_In, in_flat_map. exists z.
      split; by apply list_elem_of_In. }
    apply elem_of_cons in Hx as [->|Hx]; apply elem_of_cons in Hy as [->|Hy].
    + done.
    + exfalso. apply (Hdisj c Hcx). by apply (Hin y).
    + exfalso. apply (Hdisj c Hcy). by apply (Hin x).
    + by apply IH.
Qed.

(** In a dictionary whose keys and child lists hold no id twice, an id is
    the child of at most one key. *)
Lemma child_of_one_key (h : gmap string (list string)) (k1 k2 c : string)
    (l1 l2 : list string) :
  NoDup (Aux.keys_and_children h) ->
  h !! k1 = Some l1 -> h !! k2 = Some l2 -> c ∈ l1 -> c ∈ l2 -> k1 = k2.
Proof.
  unfold Aux.keys_and_children. rewrite entries_ids_flat.
  intros Hnd H1 H2 Hc1 Hc2.
  apply elem_of_map_to_list in H1, H2.
  assert ((k1, l1) = (k2, l2)) as [= -> _]; [|done].
  apply (flat_map_NoDup_inj (fun e => fst e :: snd e) (map_to_list h) _ _ c);
    try done; simpl; by apply list_elem_of_further.
Qed.


Lemma imap_ids (f : nat -> Clusterer.Topic -> Clusterer.Topic)
    (l : list Clusterer.Topic) :
  (forall i t, Clusterer.id (f i t) = Clusterer.id t) ->
  map Clusterer.id (imap f l) = map Clusterer.id l.
Proof.
  revert f. induction l as [|t l IH]; intros f Hf; [done|].
  rewrite imap_cons. simpl. rewrite Hf. f_equal. apply IH.
  intros i u. apply Hf.
Qed.

Section BuildHierarchy.

Import Clusterer.

Variable cosine_similarity : list (list Q) -> matrix.
Variable cfg : config.
Variable topics : list Topic.
Variable embeddings : list (list Q).

Hypothesis embeddings_present : mapM embedding topics = Some embeddings.
Hypothesis ids_distinct : NoDup (map id topics).
Hypothesis two_topics : 2 <= length topics.

Let M := cosine_similarity embeddings.
Let sorted_topics := sorted_by_frequency (enumerate topics).
Let root_count := Nat.max 1 (length topics / 5).
Let root_topics := take root_count sorted_topics.
Let rest := drop root_count sorted_topics.

Lemma sorted_split : root_topics ++ rest = sorted_topics.
Proof. apply take_drop. Qed.

Lemma sorted_ids_NoDup : NoDup (map Aux.idf sorted_topics).
Proof.
  unfold sorted_topics.
  rewrite (Permutation_map Aux.idf (sorted_perm (enumerate topics))).
  by rewrite enumerate_idf.
Qed.

Lemma sorted_pos_NoDup : NoDup (map fst sorted_topics).
Proof.
  unfold sorted_topics.
  rewrite (Permutation_map fst (sorted_perm (enumerate topics))).
  rewrite enumerate_fst. apply NoDup_seq.
Qed.

Lemma sorted_elem (r : ref) :
  r ∈ sorted_topics <-> topics !! fst r = Some (snd r).
Proof.
  unfold sorted_topics. rewrite (sorted_perm (enumerate topics)).
  destruct r as [i t]. apply enumerate_lookup.
Qed.

Lemma sorted_indexed (r : ref) :
  r ∈ sorted_topics -> make_topic_index topics !! Aux.idf r = Some (fst r).
Proof.
  intros Hr. apply make_topic_index_lookup; [done|].
  unfold sorted_topics in Hr. by rewrite (sorted_perm (enumerate topics)) in Hr.
Qed.

Lemma idf_inj_sorted (x y : ref) :
  x ∈ sorted_topics -> y ∈ sorted_topics -> Aux.idf x = Aux.idf y -> x = y.
Proof.
  intros Hx Hy Heq.
  apply list_elem_of_lookup in Hx as [i Hi].
  apply list_elem_of_lookup in Hy as [j Hj].
  assert (i = j) as ->; [|congruence].
  apply (NoDup_lookup (map Aux.idf sorted_topics) i j (Aux.idf x));
    [apply sorted_ids_NoDup| |].
  - change (map Aux.idf ?l) with (Aux.idf <$> l).
    by rewrite list_lookup_fmap, Hi.
  - change (map Aux.idf ?l) with (Aux.idf <$> l).
    by rewrite list_lookup_fmap, Hj, Heq.
Qed.

Lemma roots_nonempty : root_topics <> [].
Proof.
  intros Hnil. apply (f_equal length) in Hnil.
  unfold root_topics, sorted_topics in Hnil.
  rewrite length_take, (Permutation_length (sorted_perm _)),
    enumerate_length in Hnil.
  unfold root_count in Hnil. simpl in Hnil. lia.
Qed.

(** [build_hierarchy] raises nothing and ends in a state that satisfies the
    invariant for all roots and all remaining topics. *)
Lemma build_hierarchy_inv :
  exists st,
    build_hierarchy cosine_similarity cfg topics
    = Some (hierarchy st, apply_levels (levels st) topics)
    /\ Aux.hinv cfg M root_topics root_topics rest st.
Proof.
  unfold build_hierarchy.
  destruct (Nat.ltb_spec (length topics) 2) as [|_]; [lia|].
  unfold _compute_similarity_matrix. rewrite embeddings_present.
  assert (length (sorted_by_frequency (enumerate topics)) = length topics)
    as -> by (by rewrite (Permutation_length (sorted_perm _)), enumerate_length).
  fold sorted_topics root_count root_topics rest M.
  pose proof sorted_ids_NoDup as Hids. pose proof sorted_pos_NoDup as Hpos.
  rewrite <- sorted_split in Hids, Hpos.
  assert (forall r, r ∈ root_topics ->
            make_topic_index topics !! Aux.idf r = Some (fst r)) as Hroots.
  { intros r Hr. apply sorted_indexed. rewrite <- sorted_split.
    apply elem_of_app. by left. }
  pose proof (assign_roots_inv cfg M root_topics root_topics [] (mkH ∅ ∅)) as H0.
  simpl in H0. destruct (assign_children_inv cfg M (make_topic_index topics)
                           root_topics Hroots rest []
                           (assign_roots root_topics (mkH ∅ ∅)))
    as (st & Hrun & Hinv).
  - done.
  - done.
  - intros t Ht. apply sorted_indexed. rewrite <- sorted_split.
    apply elem_of_app. by right.
  - apply H0.
    + rewrite map_app in Hids. by apply NoDup_app in Hids as (? & _ & _).
    + rewrite map_app in Hpos. by apply NoDup_app in Hpos as (? & _ & _).
    + unfold Aux.hinv. simpl.
      split; [|split; [|split; [|split; [|split; [|split]]]]].
      * intros k. rewrite lookup_empty. split.
        -- by intros []%is_Some_None.
        -- intros [Hk|(t & Ht & _)]; by apply elem_of_nil in Hk || apply elem_of_nil in Ht.
      * intros t p Ht. by apply elem_of_nil in Ht.
      * intros t Ht. by apply elem_of_nil in Ht.
      * unfold Aux.keys_and_children. by rewrite map_to_list_empty.
      * intros r Hr. by apply elem_of_nil in Hr.
      * intros t Ht. by apply elem_of_nil in Ht.
      * intros i. rewrite lookup_empty. by intros []%is_Some_None.
  - exists st. rewrite Hrun. done.
Qed.

Lemma apply_levels_lookup (lv : gmap nat Z) (i : nat) :
  apply_levels lv topics !! i
  = (fun t => match lv !! i with Some l => set_level t l | None => t end)
      <$> topics !! i.
Proof. unfold apply_levels. apply list_lookup_imap. Qed.

Lemma apply_levels_ids (lv : gmap nat Z) :
  map id (apply_levels lv topics) = map id topics.
Proof.
  unfold apply_levels. apply imap_ids. intros i t. by destruct (lv !! i).
Qed.

(** The level an object carries afterwards. *)
Lemma level_after (st : hstate) (r : ref) (l : Z) :
  r ∈ sorted_topics -> levels st !! fst r = Some l ->
  apply_levels (levels st) topics !! fst r = Some (set_level (snd r) l).
Proof.
  intros Hr Hl. rewrite apply_levels_lookup, Hl.
  apply sorted_elem in Hr. by rewrite Hr.
Qed.


Lemma in_roots_sorted (r : ref) : r ∈ root_topics -> r ∈ sorted_topics.
Proof.
  intros Hr. rewrite <- sorted_split. apply elem_of_app. by left.
Qed.

Lemma in_rest_sorted (r : ref) : r ∈ rest -> r ∈ sorted_topics.
Proof.
  intros Hr. rewrite <- sorted_split. apply elem_of_app. by right.
Qed.

Lemma root_rest_ids (r t : ref) :
  r ∈ root_topics -> t ∈ rest -> Aux.idf r <> Aux.idf t.
Proof.
  intros Hr Ht. apply (NoDup_map_app_ne Aux.idf root_topics rest); [|done|done].
  rewrite sorted_split. by apply sorted_ids_NoDup.
Qed.

(** A topic that was given a parent is not a key. *)
Lemma child_not_key (st : hstate) (t p : ref) :
  Aux.hinv cfg M root_topics root_topics rest st ->
  t ∈ rest -> Aux.parent_of cfg M root_topics t = Some p ->
  hierarchy st !! Aux.idf t = None.
Proof.
  intros (H1 & _) Ht Hp. apply eq_None_not_Some. intros Hsome.
  apply H1 in Hsome as [Hin|(x & Hx & Hxp & Heq)].
  - apply list_elem_of_fmap in Hin as (r & Heq & Hr).
    by apply (root_rest_ids r t).
  - apply idf_inj_sorted in Heq;
      [|by apply in_rest_sorted|by apply in_rest_sorted].
    congruence.
Qed.

(** Every object afterwards is a root at level 0 or a remaining topic at
    the level chosen for it. *)
Lemma topic_after (st : hstate) (t' : Topic) :
  Aux.hinv cfg M root_topics root_topics rest st ->
  t' ∈ apply_levels (levels st) topics ->
  exists r,
    id t' = Aux.idf r
    /\ ((r ∈ root_topics /\ level t' = 0%Z)
        \/ (r ∈ rest /\ level t' = Aux.level_of cfg M root_topics r)).
Proof.
  intros (_ & _ & _ & _ & H5 & H6 & _) Hin.
  apply list_elem_of_lookup in Hin as [i Hi].
  rewrite apply_levels_lookup in Hi.
  destruct (topics !! i) as [t|] eqn:Ht; [|done]. injection Hi as <-.
  assert ((i, t) ∈ sorted_topics) as Hr by (by apply sorted_elem).
  exists (i, t). rewrite <- sorted_split in Hr.
  apply elem_of_app in Hr as [Hr|Hr].
  - pose proof (H5 _ Hr) as Hl. simpl in Hl. rewrite Hl.
    split; [done|]. left. done.
  - pose proof (H6 _ Hr) as Hl. simpl in Hl. rewrite Hl.
    split; [done|]. right. done.
Qed.

Lemma hierarchy_partition :
  exists H topics',
    build_hierarchy cosine_similarity cfg topics = Some (H, topics')
    /\ map id topics' = map id topics
    /\ (forall t', t' ∈ topics' -> level t' = 0%Z \/ level t' = 1%Z)
    /\ (forall t', t' ∈ topics' -> (is_Some (H !! id t') <-> level t' = 0%Z))
    /\ (forall t', t' ∈ topics' -> level t' = 1%Z ->
          exists k l, H !! k = Some l /\ id t' ∈ l
                      /\ forall k' l', H !! k' = Some l' -> id t' ∈ l' -> k' = k)
    /\ Aux.keys_and_children H ≡ₚ map id topics.
Proof.
  destruct build_hierarchy_inv as (st & Hrun & Hinv).
  exists (hierarchy st), (apply_levels (levels st) topics).
  pose proof Hinv as (H1 & H2 & H3 & H4 & H5 & H6 & H7).
  assert (Aux.keys_and_children (hierarchy st) ≡ₚ map id topics) as Hperm.
  { rewrite H4, sorted_split. unfold sorted_topics.
    rewrite (Permutation_map Aux.idf (sorted_perm (enumerate topics))).
    by rewrite enumerate_idf. }
  split; [done|]. split; [apply apply_levels_ids|].
  split; [|split; [|split; [|done]]].
  - intros t' Hin.
    destruct (topic_after st t' Hinv Hin) as (r & _ & [[_ Hl]|[_ Hl]]);
      [by left|].
    rewrite Hl. unfold Aux.level_of.
    destruct (Aux.parent_of _ _ _ _); [by right|by left].
  - intros t' Hin.
    destruct (topic_after st t' Hinv Hin) as (r & -> & [[Hr Hl]|[Hr Hl]]).
    + split; [done|]. intros _. apply H1. left.
      apply list_elem_of_fmap. by exists r.
    + rewrite Hl. unfold Aux.level_of.
      destruct (Aux.parent_of cfg M root_topics r) as [p|] eqn:Hp.
      * rewrite (child_not_key st r p Hinv Hr Hp). split; [|done].
        by intros []%is_Some_None.
      * rewrite (H3 r Hr Hp). split; [done|]. eauto.
  - intros t' Hin Hlevel.
    destruct (topic_after st t' Hinv Hin) as (r & -> & [[Hr Hl]|[Hr Hl]]);
      [congruence|].
    rewrite Hl in Hlevel. unfold Aux.level_of in Hlevel.
    destruct (Aux.parent_of cfg M root_topics r) as [p|] eqn:Hp; [|done].
    destruct (H2 r p Hr Hp) as (l & Hl' & Hc).
    exists (Aux.idf p), l. split; [done|]. split; [done|].
    intros k' l' Hk' Hc'.
    apply (child_of_one_key (hierarchy st) k' (Aux.idf p) (Aux.idf r) l' l);
      try done.
    rewrite Hperm. done.
Qed.

Lemma hierarchy_placement :
  (-1 < similarity_threshold cfg)%Q ->
  exists H topics',
    build_hierarchy cosine_similarity cfg topics = Some (H, topics')
    /\ (forall r, r ∈ root_topics ->
          is_Some (H !! Aux.idf r)
          /\ level <$> topics' !! fst r = Some 0%Z)
    /\ (forall t, t ∈ rest ->
          exists p,
            Aux.is_best (Aux.sim_to M t) root_topics p
            /\ ((similarity_threshold cfg <= Aux.sim_to M t p)%Q ->
                (exists l, H !! Aux.idf p = Some l /\ Aux.idf t ∈ l)
                /\ H !! Aux.idf t = None
                /\ level <$> topics' !! fst t = Some 1%Z)
            /\ ((Aux.sim_to M t p < similarity_threshold cfg)%Q ->
                H !! Aux.idf t = Some []
                /\ level <$> topics' !! fst t = Some 0%Z)).
Proof.
  intros Hthr.
  destruct build_hierarchy_inv as (st & Hrun & Hinv).
  exists (hierarchy st), (apply_levels (levels st) topics).
  pose proof Hinv as (H1 & H2 & H3 & H4 & H5 & H6 & H7).
  split; [done|]. split.
  - intros r Hr. split.
    + apply H1. left. apply list_elem_of_fmap. by exists r.
    + rewrite (level_after st r 0%Z);
        [done|by apply in_roots_sorted|by apply H5].
  - intros t Ht.
    destruct (is_best_exists (Aux.sim_to M t) root_topics
                roots_nonempty) as [p Hbest].
    exists p. split; [done|].
    pose proof (best_parent_from_spec (similarity_threshold cfg)
                  (Aux.sim_to M t) root_topics) as Hspec.
    pose proof (H6 t Ht) as Hlevel. unfold Aux.level_of in Hlevel.
    unfold Aux.best_inv in Hspec.
    destruct (Aux.parent_of cfg M root_topics t) as [q|] eqn:Hq;
      unfold Aux.parent_of in Hq; rewrite Hq in Hspec.
    + destruct Hspec as (_ & Hge & Hbest').
      assert (q = p) as -> by (by eapply is_best_unique).
      split.
      * intros _. split; [by apply (H2 t p Ht)|].
        split; [by apply (child_not_key st t p Hinv Ht)|].
        rewrite (level_after st t 1%Z);
          [done|by apply in_rest_sorted|done].
      * intros Hlt. exfalso. Lqa.lra.
    + destruct Hspec as (_ & Hnone).
      pose proof (Hnone p (is_best_elem _ _ _ Hbest)) as Hp.
      split.
      * intros Hge. exfalso. apply Hp. split; Lqa.lra.
      * intros _. split; [by apply (H3 t Ht)|].
        rewrite (level_after st t 0%Z);
          [done|by apply in_rest_sorted|done].
Qed.

End BuildHierarchy.

(** *** The example of three topics *)

Lemma assign_children_cons cfg M topic_index roots t rest st :
  Clusterer.assign_children cfg M topic_index roots (t :: rest) st
  = match topic_index !! Clusterer.id (snd t) with
    | None => None
    | Some topic_idx =>
        match Clusterer.best_parent_loop cfg M topic_index topic_idx roots
                                         (-1) None with
        | None => None
        | Some (_, Some best_parent) =>
            match Clusterer.hierarchy st !! Clusterer.id (snd best_parent) with
            | None => None
            | Some children =>
                Clusterer.assign_children cfg M topic_index roots rest
                  (Clusterer.mkH
                     (<[Clusterer.id (snd best_parent)
                        := children ++ [Clusterer.id (snd t)]]>
                        (Clusterer.hierarchy st))
                     (<[fst t := 1%Z]> (Clusterer.levels st)))
            end
        | Some (_, None) =>
            Clusterer.assign_children cfg M topic_index roots rest
              (Clusterer.mkH (<[Clusterer.id (snd t) := []]>
                                (Clusterer.hierarchy st))
                             (<[fst t := 0%Z]> (Clusterer.levels st)))
        end
    end.
Proof. reflexivity. Qed.

Lemma example_hierarchy (cosine_similarity : list (list Q) -> matrix) :
  let M := cosine_similarity [[1; 0]; [0.98; 0.02]; [0; 1]]%Q in
  (0.8 <= mat_get M 1 0)%Q -> (mat_get M 2 0 < 0.8)%Q ->
  Clusterer.build_hierarchy cosine_similarity Examples.cfg_08
    [Examples.T1; Examples.T2; Examples.T3]
  = Some (list_to_map [("T1", ["T2"]); ("T3", [])],
          [Examples.T1; Clusterer.set_level Examples.T2 1; Examples.T3]).
Proof.
  intros M Hchild Hroot.
  set (idx := Clusterer.make_topic_index [Examples.T1; Examples.T2; Examples.T3]).
  set (roots := [(0, Examples.T1)] : list Clusterer.ref).
  assert (Clusterer.best_parent_loop Examples.cfg_08 M idx 1 roots (-1) None
          = Some (mat_get M 1 0, Some (0, Examples.T1))) as Hbp2.
  { change (Clusterer.best_parent_loop Examples.cfg_08 M idx 1 roots (-1) None)
      with (if negb (Qle_bool (mat_get M 1 0) (-1))
               && Qle_bool 0.8 (mat_get M 1 0)
            then Some (mat_get M 1 0, Some (0, Examples.T1))
            else Some ((-1)%Q, @None Clusterer.ref)).
    assert (Qle_bool 0.8 (mat_get M 1 0) = true) as ->
      by (by apply Qle_bool_iff).
    destruct (Qle_bool (mat_get M 1 0) (-1)) eqn:Hle; [|done].
    apply Qle_bool_iff in Hle. exfalso. Lqa.lra. }
  assert (Clusterer.best_parent_loop Examples.cfg_08 M idx 2 roots (-1) None
          = Some ((-1)%Q, None)) as Hbp3.
  { change (Clusterer.best_parent_loop Examples.cfg_08 M idx 2 roots (-1) None)
      with (if negb (Qle_bool (mat_get M 2 0) (-1))
               && Qle_bool 0.8 (mat_get M 2 0)
            then Some (mat_get M 2 0, Some (0, Examples.T1))
            else Some ((-1)%Q, @None Clusterer.ref)).
    assert (Qle_bool 0.8 (mat_get M 2 0) = false) as ->.
    { destruct (Qle_bool 0.8 (mat_get M 2 0)) eqn:Hle; [|done].
      apply Qle_bool_iff in Hle. exfalso. Lqa.lra. }
    by rewrite andb_false_r. }
  change (Clusterer.build_hierarchy cosine_similarity Examples.cfg_08
            [Examples.T1; Examples.T2; Examples.T3])
    with (match Clusterer.assign_children Examples.cfg_08 M idx roots
                  [(1, Examples.T2); (2, Examples.T3)]
                  (Clusterer.assign_roots roots (Clusterer.mkH ∅ ∅)) with
          | None => None
          | Some st' =>
              Some (Clusterer.hierarchy st',
                    Clusterer.apply_levels (Clusterer.levels st')
                      [Examples.T1; Examples.T2; Examples.T3])
          end).
  rewrite assign_children_cons.
  change (idx !! Clusterer.id (snd (1, Examples.T2))) with (Some 1).
  cbv beta iota. rewrite Hbp2. cbv beta iota.
  change (Clusterer.hierarchy (Clusterer.assign_roots roots (Clusterer.mkH ∅ ∅))
            !! Clusterer.id (snd (0, Examples.T1)))
    with (Some (@nil string)).
  cbv beta iota. rewrite assign_children_cons.
  change (idx !! Clusterer.id (snd (2, Examples.T3))) with (Some 2).
  cbv beta iota. rewrite Hbp3. cbv beta iota.
  vm_compute. reflexivity.
Qed.

(** C10: for at least two topics with pairwise distinct ids and embeddings
    present, [build_hierarchy] returns a dictionary [H] that partitions the
    topics: the ids are unchanged; every topic's level is 0 or 1; a topic's
    id is a key of [H] exactly when its level is 0; the id of a level-1 topic
    is in the child list of exactly one key; and the keys of [H] together
    with all its child lists hold every input id exactly once. *)
Theorem C10_build_hierarchy_partition
    (cosine_similarity : list (list Q) -> matrix) (cfg : Clusterer.config)
    (topics : list Clusterer.Topic) (embeddings : list (list Q)) :
  mapM Clusterer.embedding topics = Some embeddings ->
  NoDup (map Clusterer.id topics) ->
  2 <= length topics ->
  exists H topics',
    Clusterer.build_hierarchy cosine_similarity cfg topics = Some (H, topics')
    /\ map Clusterer.id topics' = map Clusterer.id topics
    /\ (forall t', t' ∈ topics' ->
          Clusterer.level t' = 0%Z \/ Clusterer.level t' = 1%Z)
    /\ (forall t', t' ∈ topics' ->
          (is_Some (H !! Clusterer.id t') <-> Clusterer.level t' = 0%Z))
    /\ (forall t', t' ∈ topics' -> Clusterer.level t' = 1%Z ->
          exists k l,
            H !! k = Some l /\ Clusterer.id t' ∈ l
            /\ forall k' l', H !! k' = Some l' -> Clusterer.id t' ∈ l' -> k' = k)
    /\ Aux.keys_and_children H ≡ₚ map Clusterer.id topics.
Proof.
  intros Hemb Hids Hlen.
  exact (hierarchy_partition cosine_similarity cfg topics embeddings
           Hemb Hids Hlen).
Qed.

(** C10 on the three example topics. *)
Lemma C10_build_hierarchy_partition_witness :
  exists H topics',
    Clusterer.build_hierarchy Examples.cosine_123 Examples.cfg_08
      [Examples.T1; Examples.T2; Examples.T3] = Some (H, topics')
    /\ map Clusterer.id topics' = ["T1"; "T2"; "T3"]
    /\ Aux.keys_and_children H ≡ₚ ["T1"; "T2"; "T3"].
Proof.
  destruct (C10_build_hierarchy_partition Examples.cosine_123 Examples.cfg_08
              [Examples.T1; Examples.T2; Examples.T3]
              [[1; 0]; [0.98; 0.02]; [0; 1]]%Q)
    as (H & topics' & Hrun & Hids & _ & _ & _ & Hperm).
  - reflexivity.
  - vm_compute. repeat constructor; set_solver.
  - vm_compute. lia.
  - exists H, topics'. split; [exact Hrun|]. split; [exact Hids|exact Hperm].
Defined.

(** C1 fails as stated in two places.  A single topic is not made a root:
    the result is the empty dictionary.  And a topic whose greatest
    similarity to a root is exactly -1 is promoted to a root even when the
    threshold is -1 (or lower), because the running maximum starts at -1 and
    must be exceeded. *)
Lemma C1_single_topic_and_minus_one :
  Clusterer.build_hierarchy Examples.cosine_123 Examples.cfg_08 [Examples.T1]
    = Some (∅, [Examples.T1])
  /\ (Clusterer.similarity_threshold Examples.cfg_minus_one
      <= mat_get (Examples.cosine_opposite []) 1 0)%Q
  /\ Clusterer.build_hierarchy Examples.cosine_opposite Examples.cfg_minus_one
       [Examples.Ta; Examples.Tb]
     = Some (list_to_map [("Ta", []); ("Tb", [])], [Examples.Ta; Examples.Tb]).
Proof.
  split; [reflexivity|]. split; [vm_compute; discriminate|].
  vm_compute. reflexivity.
Qed.

(** C1 as amended: for at least two topics with pairwise distinct ids and
    embeddings present, and a similarity threshold above -1,
    [build_hierarchy] sorts the topics by descending frequency (topics of
    equal frequency keep their order), makes the first max(1, count // 5) of
    them roots at level 0 and, for every remaining topic, takes the root of
    maximum similarity, the earliest on a tie: when that similarity reaches
    the threshold the topic becomes a level-1 child of that root (and no
    key), otherwise it becomes a root with an empty child list at level 0.
    With fewer than two topics the result is the empty dictionary and no
    topic is touched.  For T1 (freq 10), T2 (freq 8), T3 (freq 5) with threshold 0.8, any
    similarity matrix with sim(T2,T1) >= 0.8 and sim(T3,T1) < 0.8 gives
    {T1: [T2], T3: []}. *)
Theorem C1_build_hierarchy :
  (forall (cosine_similarity : list (list Q) -> matrix) (cfg : Clusterer.config)
          (topics : list Clusterer.Topic) (embeddings : list (list Q)),
      mapM Clusterer.embedding topics = Some embeddings ->
      NoDup (map Clusterer.id topics) ->
      2 <= length topics ->
      (-1 < Clusterer.similarity_threshold cfg)%Q ->
      let M := cosine_similarity embeddings in
      let sorted_topics :=
        Clusterer.sorted_by_frequency (Clusterer.enumerate topics) in
      let root_count := Nat.max 1 (length topics / 5) in
      let root_topics := take root_count sorted_topics in
      let rest := drop root_count sorted_topics in
      sorted_topics ≡ₚ Clusterer.enumerate topics
      /\ StronglySorted Aux.freq_desc sorted_topics
      /\ exists H topics',
          Clusterer.build_hierarchy cosine_similarity cfg topics
          = Some (H, topics')
          /\ (forall r, r ∈ root_topics ->
                is_Some (H !! Aux.idf r)
                /\ Clusterer.level <$> topics' !! fst r = Some 0%Z)
          /\ (forall t, t ∈ rest ->
                exists p,
                  Aux.is_best (Aux.sim_to M t) root_topics p
                  /\ ((Clusterer.similarity_threshold cfg <= Aux.sim_to M t p)%Q ->
                      (exists l, H !! Aux.idf p = Some l /\ Aux.idf t ∈ l)
                      /\ H !! Aux.idf t = None
                      /\ Clusterer.level <$> topics' !! fst t = Some 1%Z)
                  /\ ((Aux.sim_to M t p < Clusterer.similarity_threshold cfg)%Q ->
                      H !! Aux.idf t = Some []
                      /\ Clusterer.level <$> topics' !! fst t = Some 0%Z)))
  /\ (forall cosine_similarity cfg (topics : list Clusterer.Topic),
      length topics < 2 ->
      Clusterer.build_hierarchy cosine_similarity cfg topics = Some (∅, topics))
  /\ (forall cosine_similarity : list (list Q) -> matrix,
      let M := cosine_similarity [[1; 0]; [0.98; 0.02]; [0; 1]]%Q in
      (0.8 <= mat_get M 1 0)%Q -> (mat_get M 2 0 < 0.8)%Q ->
      Clusterer.build_hierarchy cosine_similarity Examples.cfg_08
        [Examples.T1; Examples.T2; Examples.T3]
      = Some (list_to_map [("T1", ["T2"]); ("T3", [])],
              [Examples.T1; Clusterer.set_level Examples.T2 1; Examples.T3])).
Proof.
  split; [|split; [|exact example_hierarchy]].
  2:{ intros cosine_similarity cfg topics Hlen. unfold Clusterer.build_hierarchy.
      by destruct (Nat.ltb_spec (length topics) 2) as [_|Hge]; [|lia]. }
  intros cosine_similarity cfg topics embeddings Hemb Hids Hlen Hthr
         M sorted_topics root_count root_topics rest.
  split; [apply sorted_perm|]. split; [apply sorted_sorted|].
  exact (hierarchy_placement cosine_similarity cfg topics embeddings
           Hemb Hids Hlen Hthr).
Qed.

(** C1 as amended, on the three example topics with their cosine
    similarities. *)
Lemma C1_build_hierarchy_witness :
  Clusterer.build_hierarchy Examples.cosine_123 Examples.cfg_08
    [Examples.T1; Examples.T2; Examples.T3]
  = Some (list_to_map [("T1", ["T2"]); ("T3", [])],
          [Examples.T1; Clusterer.set_level Examples.T2 1; Examples.T3])
  /\ exists H topics',
       Clusterer.build_hierarchy Examples.cosine_123 Examples.cfg_08
         [Examples.T1; Examples.T2; Examples.T3] = Some (H, topics')
       /\ is_Some (H !! "T1").
Proof.
  split.
  - apply (proj2 (proj2 C1_build_hierarchy) Examples.cosine_123);
      vm_compute; [discriminate|reflexivity].
  - destruct (proj1 C1_build_hierarchy Examples.cosine_123 Examples.cfg_08
                [Examples.T1; Examples.T2; Examples.T3]
                [[1; 0]; [0.98; 0.02]; [0; 1]]%Q)
      as (_ & _ & H & topics' & Hrun & Hroots & _).
    + reflexivity.
    + vm_compute. repeat constructor; set_solver.
    + vm_compute. lia.
    + vm_compute. reflexivity.
    + exists H, topics'. split; [exact Hrun|].
      apply (Hroots (0, Examples.T1)). vm_compute. left.
Defined.

(** ** build_hierarchy_from_clusters *)

Section FromClusters.

Import HierarchyOps AuxOps.

Variable sims : gmap (string * string) Q.

Lemma create_subtopic_edge_absent (g : MGraph) (c p : string)
    (similarity : option Q) :
  both_present g (c, p) = false ->
  exists w, create_subtopic_edge g c p similarity = (g, Returned [w]).
Proof.
  unfold both_present, create_subtopic_edge. simpl.
  destruct (get_node g c); [|by eauto].
  destruct (get_node g p); [done|by eauto].
Qed.

Lemma create_subtopic_edge_present (g : MGraph) (c p : string)
    (similarity : option Q) :
  both_present g (c, p) = true ->
  create_subtopic_edge g c p similarity
  = (add_edge g c p "SUBTOPIC_OF" (subtopic_data similarity),
     Raised (subtopic_exn similarity)).
Proof.
  unfold both_present, create_subtopic_edge. simpl.
  destruct (get_node g c); [|done]. destruct (get_node g p); [|done].
  intros _. by destruct similarity as [q|].
Qed.

Lemma pairs_loop_app (g : MGraph) (l1 l2 : list (string * string)) (n : nat) :
  pairs_loop g sims (l1 ++ l2) n
  = match pairs_loop g sims l1 n with
    | (g', inr n') => pairs_loop g' sims l2 n'
    | (g', inl e) => (g', inl e)
    end.
Proof.
  revert g n. induction l1 as [|p l1 IH]; intros g n; simpl; [done|].
  destruct (create_subtopic_edge g p.1 p.2 _) as [g' [w|e]]; [|done].
  apply IH.
Qed.

Lemma subtopic_children_pairs (g : MGraph) (parent_id : string)
    (child_ids : list string) (n : nat) :
  subtopic_children g sims parent_id child_ids n
  = pairs_loop g sims (map (fun child => (child, parent_id)) child_ids) n.
Proof.
  revert g n. induction child_ids as [|c cs IH]; intros g n; simpl; [done|].
  destruct (create_subtopic_edge g c parent_id _) as [g' [w|e]]; [|done].
  apply IH.
Qed.

Lemma hierarchy_items_pairs (g : MGraph) (items : list (string * list string))
    (n : nat) :
  hierarchy_items g sims items n = pairs_loop g sims (child_pairs items) n.
Proof.
  revert g n. induction items as [|[p cs] items IH]; intros g n; [done|].
  change (child_pairs ((p, cs) :: items))
    with (map (fun child => (child, p)) cs ++ child_pairs items).
  rewrite pairs_loop_app. simpl. rewrite subtopic_children_pairs.
  destruct (pairs_loop g sims _ n) as [g' [e|n']]; [done|]. apply IH.
Qed.

Lemma pairs_loop_absent (g : MGraph) (pairs : list (string * string)) (n : nat) :
  Forall (fun p => both_present g p = false) pairs ->
  pairs_loop g sims pairs n = (g, inr (n + length pairs)).
Proof.
  revert n. induction pairs as [|[c p] pairs IH]; intros n Hall; simpl.
  - by rewrite Nat.add_0_r.
  - apply Forall_cons in Hall as [Hp Hall].
    destruct (create_subtopic_edge_absent g c p (lookup_similarity sims c p) Hp)
      as [w ->].
    rewrite IH by done. do 2 f_equal. lia.
Qed.

Lemma pairs_loop_first (g : MGraph) (before after : list (string * string))
    (c p : string) (n : nat) :
  Forall (fun q => both_present g q = false) before ->
  both_present g (c, p) = true ->
  pairs_loop g sims (before ++ (c, p) :: after) n
  = (add_edge g c p "SUBTOPIC_OF" (subtopic_data (lookup_similarity sims c p)),
     inl (subtopic_exn (lookup_similarity sims c p))).
Proof.
  intros Hbefore Hp. rewrite pairs_loop_app, pairs_loop_absent by done.
  simpl. by rewrite create_subtopic_edge_present.
Qed.

End FromClusters.

(** X1: [build_hierarchy_from_clusters] returns only when no (child,
    parent) pair of the hierarchy has both ids in the graph: the graph is
    then left as it was and the returned count is the number of child
    entries, although no edge was created.  Otherwise it stops at the first
    pair with both ids in the graph: the graph has gained that one
    SUBTOPIC_OF edge, from the child to the parent, and the call raises
    (ValueError when a similarity was found for the pair, TypeError when
    not). *)
Theorem X1_build_hierarchy_from_clusters
    (g : MGraph) (items : list (string * list string))
    (sims : gmap (string * string) Q) :
  (Forall (fun p => AuxOps.both_present g p = false) (AuxOps.child_pairs items) ->
   HierarchyOps.build_hierarchy_from_clusters g items sims
   = (g, inr (length (AuxOps.child_pairs items))))
  /\ (forall before c p after,
        AuxOps.child_pairs items = before ++ (c, p) :: after ->
        Forall (fun q => AuxOps.both_present g q = false) before ->
        AuxOps.both_present g (c, p) = true ->
        HierarchyOps.build_hierarchy_from_clusters g items sims
        = (mkGraph (nodes g)
             (edges g ++ [mkEdge c p "SUBTOPIC_OF"
                            (AuxOps.subtopic_data (lookup_similarity sims c p))]),
           inl (AuxOps.subtopic_exn (lookup_similarity sims c p)))).
Proof.
  unfold HierarchyOps.build_hierarchy_from_clusters.
  rewrite hierarchy_items_pairs. split.
  - intros Hall. by rewrite pairs_loop_absent.
  - intros before c p after -> Hbefore Hp. by rewrite pairs_loop_first.
Qed.

(** X1 on the graph of the three example topics: the pair (T9, T1) is
    skipped because T9 is no node, the pair (T2, T1) gets its edge and the
    call raises. *)
Lemma X1_build_hierarchy_from_clusters_witness :
  HierarchyOps.build_hierarchy_from_clusters
    Examples.topics_graph [("T1", ["T9"; "T2"])] Examples.lookup_123
  = (mkGraph (nodes Examples.topics_graph)
       (edges Examples.topics_graph
        ++ [mkEdge "T2" "T1" "SUBTOPIC_OF"
              (AuxOps.subtopic_data
                 (lookup_similarity Examples.lookup_123 "T2" "T1"))]),
     inl (AuxOps.subtopic_exn
            (lookup_similarity Examples.lookup_123 "T2" "T1"))).
Proof.
  apply (proj2 (X1_build_hierarchy_from_clusters
                  Examples.topics_graph [("T1", ["T9"; "T2"])]
                  Examples.lookup_123)
               [("T9", "T1")] "T2" "T1" []).
  - reflexivity.
  - apply Forall_cons. split; [reflexivity|apply Forall_nil; exact I].
  - reflexivity.
Defined.

(** ** The store: queried nodes *)

Lemma query_elem (g : MGraph) (ty : string) (n : MNode) :
  n ∈ query g ty ->
  node_type n = ty /\ nodes g !! node_id n = Some (node_type n, node_name n).
Proof.
  unfold query. intros Hn. apply list_elem_of_In, filter_In in Hn as [Hn Hty].
  apply bool_decide_eq_true in Hty. split; [done|].
  apply list_elem_of_In, list_elem_of_fmap in Hn as ([k [t nm]] & -> & Hk).
  apply elem_of_map_to_list in Hk. done.
Qed.

Lemma query_complete (g : MGraph) (ty : string) (k : string)
    (nm : option string) :
  nodes g !! k = Some (ty, nm) -> mkNode k ty nm ∈ query g ty.
Proof.
  intros Hk. unfold query. apply list_elem_of_In, filter_In. split.
  - apply list_elem_of_In, list_elem_of_fmap. exists (k, (ty, nm)).
    split; [done|]. by apply elem_of_map_to_list.
  - by apply bool_decide_eq_true.
Qed.

Lemma query_get_node (g : MGraph) (ty : string) (n : MNode) :
  n ∈ query g ty -> get_node g (node_id n) = Some n.
Proof.
  intros [_ Hn]%query_elem. unfold get_node. rewrite Hn. by destruct n.
Qed.

Lemma add_node_same (g : MGraph) (n : MNode) :
  nodes g !! node_id n = Some (node_type n, node_name n) -> add_node g n = g.
Proof.
  intros Hn. unfold add_node. rewrite insert_id by done. by destruct g.
Qed.

(** ** calculate_all_centralities *)

Lemma centrality_unit_interval (g : MGraph) (topic_id : string) :
  (0 <= calculate_centrality g topic_id <= 1)%Q.
Proof.
  unfold calculate_centrality.
  pose proof (score_bounds
    (length (get_edges g None (Some topic_id) (Some "HAS_TOPIC"))) 10
    ltac:(Lqa.lra)) as Hh.
  pose proof (score_bounds
    (length (get_edges g None (Some topic_id) (Some "SUBTOPIC_OF"))) 5
    ltac:(Lqa.lra)) as Hs.
  pose proof (score_bounds
    (length (get_edges g (Some topic_id) None (Some "RELATED_TOPIC"))) 10
    ltac:(Lqa.lra)) as Hr.
  cbv zeta. Lqa.lra.
Qed.

Lemma centrality_fold (g : MGraph) (l : list MNode) :
  (forall n, n ∈ l -> nodes g !! node_id n = Some ("Topic", node_name n)) ->
  forall (a : node_attrs) (m : gmap string Q),
  exists a' m',
    fold_left HierarchyOps.centrality_step l (g, a, m) = (g, a', m')
    /\ (forall k, m' !! k = if bool_decide (k ∈ map node_id l)
                            then Some (calculate_centrality g k) else m !! k)
    /\ (forall k, centrality_attr a' !! k
                  = if bool_decide (k ∈ map node_id l)
                    then Some (calculate_centrality g k)
                    else centrality_attr a !! k)
    /\ category_attr a' = category_attr a.
Proof.
  induction l as [|n l IH]; intros Hl a m.
  - exists a, m. simpl. repeat split; done.
  - simpl. rewrite add_node_same by (simpl; apply Hl; by left).
    destruct (IH (fun x Hx => Hl x ltac:(by right))
                 (set_centrality a (node_id n)
                                 (calculate_centrality g (node_id n)))
                 (<[node_id n := calculate_centrality g (node_id n)]> m))
      as (a' & m' & -> & Hm & Ha & Hc).
    exists a', m'. split; [done|]. split; [|split; [|done]].
    + intros k. rewrite Hm. case_bool_decide as Hk.
      * rewrite bool_decide_eq_true_2; [done|]. by right.
      * destruct (decide (k = node_id n)) as [->|Hne].
        -- rewrite lookup_insert_eq.
           rewrite bool_decide_eq_true_2; [done|]. by left.
        -- rewrite lookup_insert_ne by done.
           rewrite bool_decide_eq_false_2; [done|].
           intros [?|?]%elem_of_cons; done.
    + intros k. rewrite Ha. simpl. case_bool_decide as Hk.
      * rewrite bool_decide_eq_true_2; [done|]. by right.
      * destruct (decide (k = node_id n)) as [->|Hne].
        -- rewrite lookup_insert_eq.
           rewrite bool_decide_eq_true_2; [done|]. by left.
        -- rewrite lookup_insert_ne by done.
           rewrite bool_decide_eq_false_2; [done|].
           intros [?|?]%elem_of_cons; done.
Qed.

Lemma all_centralities_spec (g : MGraph) (a : node_attrs) :
  exists a' m',
    HierarchyOps.calculate_all_centralities g a = (g, a', m')
    /\ (forall k, m' !! k = if bool_decide (k ∈ AuxOps.topic_ids g)
                            then Some (calculate_centrality g k) else None)
    /\ (forall k, centrality_attr a' !! k
                  = if bool_decide (k ∈ AuxOps.topic_ids g)
                    then Some (calculate_centrality g k)
                    else centrality_attr a !! k)
    /\ category_attr a' = category_attr a.
Proof.
  unfold HierarchyOps.calculate_all_centralities.
  destruct (centrality_fold g (query g "Topic")) with (a := a) (m := ∅ : gmap string Q)
    as (a' & m' & Hrun & Hm & Ha & Hc).
  - intros n Hn. apply query_elem in Hn as [Hty Hn]. by rewrite Hty in Hn.
  - exists a', m'. split; [done|]. split; [|done].
    intros k. rewrite Hm. by rewrite lookup_empty.
Qed.

(** X2: [calculate_all_centralities] returns a dictionary with exactly one
    entry per Topic node, holding [calculate_centrality] of that topic on
    the graph as it was, a value in [0,1]; the same value is stored as the
    node's centrality attribute; the edges, the types and names of all
    nodes, the centrality of the other nodes and all categories are left as
    they were. *)
Theorem X2_calculate_all_centralities (g : MGraph) (a : node_attrs) :
  exists a' centralities,
    HierarchyOps.calculate_all_centralities g a = (g, a', centralities)
    /\ (forall k, is_Some (centralities !! k) <-> k ∈ AuxOps.topic_ids g)
    /\ (forall k c, centralities !! k = Some c ->
          c = calculate_centrality g k /\ (0 <= c <= 1)%Q
          /\ centrality_attr a' !! k = Some c)
    /\ (forall k, k ∉ AuxOps.topic_ids g ->
          centrality_attr a' !! k = centrality_attr a !! k)
    /\ category_attr a' = category_attr a.
Proof.
  destruct (all_centralities_spec g a) as (a' & m' & Hrun & Hm & Ha & Hc).
  exists a', m'. split; [done|]. split; [|split; [|split; [|done]]].
  - intros k. rewrite Hm. case_bool_decide as Hk.
    + split; [done|]. intros _. by eexists.
    + split; [|done]. by intros [? ?].
  - intros k c. rewrite Hm, Ha. case_bool_decide; [|done].
    intros [= <-]. split; [done|]. split; [|done].
    apply centrality_unit_interval.
  - intros k Hk. rewrite Ha. by rewrite bool_decide_eq_false_2.
Qed.

(** ** Edge counts of the hierarchy statistics *)

Lemma filter_length_or {A} (p q : A -> bool) (l : list A) :
  (forall x, In x l -> p x = true -> q x = true -> False) ->
  length (List.filter (fun x => p x || q x) l)
  = length (List.filter p l) + length (List.filter q l).
Proof.
  induction l as [|x l IH]; intros Hdisj; simpl; [done|].
  specialize (IH (fun y Hy => Hdisj y (or_intror Hy))).
  pose proof (Hdisj x (or_introl eq_refl)) as Hx.
  destruct (p x), (q x); simpl; lia.
Qed.

Lemma filter_length_ext {A} (p q : A -> bool) (l : list A) :
  (forall x, In x l -> p x = q x) ->
  length (List.filter p l) = length (List.filter q l).
Proof.
  induction l as [|x l IH]; intros Hext; simpl; [done|].
  specialize (IH (fun y Hy => Hext y (or_intror Hy))).
  rewrite (Hext x) by (by left).
  destruct (q x); simpl; lia.
Qed.

(** Counting, topic by topic, the edges of a type that leave the topic
    counts every such edge that leaves a topic once. *)
Lemma edges_by_source (es : list MEdge) (ty : string) (ids : list string) :
  NoDup ids ->
  list_sum (map (fun k =>
              length (List.filter (edge_matches (Some k) None (Some ty)) es))
            ids)
  = length (List.filter (fun e => bool_decide (from_node e ∈ ids)
                                  && bool_decide (edge_type e = ty)) es).
Proof.
  induction ids as [|k ids IH]; intros Hnd.
  - transitivity (length (List.filter (fun _ : MEdge => false) es));
      [by induction es|].
    apply filter_length_ext. intros e _.
    by rewrite bool_decide_eq_false_2 by apply not_elem_of_nil.
  - apply NoDup_cons in Hnd as [Hk Hnd].
    change (length (List.filter (edge_matches (Some k) None (Some ty)) es)
            + list_sum (map (fun k =>
                length (List.filter (edge_matches (Some k) None (Some ty)) es))
                ids)
            = length (List.filter
                (fun e => bool_decide (from_node e ∈ k :: ids)
                          && bool_decide (edge_type e = ty)) es)).
    rewrite IH by done.
    rewrite <- filter_length_or.
    + apply filter_length_ext. intros e _.
      unfold edge_matches, opt_matches.
      repeat case_bool_decide; simpl; try done; exfalso; set_solver.
    + intros e _ H1 H2. unfold edge_matches, opt_matches in H1.
      apply andb_true_iff in H1 as [H1 _]. apply andb_true_iff in H1 as [H1 _].
      apply bool_decide_eq_true in H1.
      apply andb_true_iff in H2 as [H2 _]. apply bool_decide_eq_true in H2.
      apply Hk. by rewrite H1.
Qed.


Lemma count_topic_edges (g : MGraph) (l : list MNode) (c : counters) :
  c_subtopic_edges (fold_left (count_topic g) l c)
  = c_subtopic_edges c
    + list_sum (map (fun n => length (get_edges g (Some (node_id n)) None
                                                (Some "SUBTOPIC_OF"))) l)
  /\ c_related_edges (fold_left (count_topic g) l c)
  = c_related_edges c
    + list_sum (map (fun n => length (get_edges g (Some (node_id n)) None
                                                (Some "RELATED_TOPIC"))) l).
Proof.
  revert c. induction l as [|n l IH]; intros c; simpl; [lia|].
  destruct (IH (count_topic g c n)) as [-> ->]. clear IH.
  unfold count_topic. cbv zeta.
  destruct (get_edges g None (Some (node_id n)) (Some "SUBTOPIC_OF"));
    destruct (get_edges g (Some (node_id n)) None (Some "SUBTOPIC_OF"));
    simpl; lia.
Qed.

Lemma has_parent_count (g : MGraph) (l : list MNode) :
  length (List.filter (fun n => has_parent g (node_id n)) l)
  <= list_sum (map (fun n => length (get_edges g (Some (node_id n)) None
                                               (Some "SUBTOPIC_OF"))) l).
Proof.
  induction l as [|topic l IH]; simpl; [done|].
  unfold has_parent at 1.
  destruct (get_edges g (Some (node_id topic)) None (Some "SUBTOPIC_OF"));
    simpl; lia.
Qed.

Lemma statistics_edge_counts (fuel : nat) (g : MGraph)
    (stats : hierarchy_statistics) :
  get_hierarchy_statistics fuel g = Some stats ->
  total_topics stats = length (query g "Topic")
  /\ subtopic_edges stats = length (AuxOps.edges_from_topics g "SUBTOPIC_OF")
  /\ related_topic_edges stats
     = length (AuxOps.edges_from_topics g "RELATED_TOPIC") / 2
  /\ root_topics stats <= total_topics stats
  /\ child_topics stats <= total_topics stats
  /\ child_topics stats <= subtopic_edges stats.
Proof.
  unfold get_hierarchy_statistics.
  destruct (_calculate_max_depth fuel g); [|done].
  intros [= <-]. simpl.
  destruct (count_topic_edges g (query g "Topic") (mkCounters 0 0 ∅ ∅))
    as [Hs Hr].
  destruct (count_topic_fold g (query g "Topic") (mkCounters 0 0 ∅ ∅))
    as [Hroots Hchildren].
  rewrite Hs, Hr, Hroots, Hchildren. simpl. rewrite !union_empty_r_L.
  rewrite !marked_size by apply query_NoDup.
  pose proof (edges_by_source (edges g) "SUBTOPIC_OF" (AuxOps.topic_ids g)
                (query_NoDup g "Topic")) as Hsub.
  pose proof (edges_by_source (edges g) "RELATED_TOPIC" (AuxOps.topic_ids g)
                (query_NoDup g "Topic")) as Hrel.
  unfold AuxOps.topic_ids in Hsub, Hrel. rewrite map_map in Hsub, Hrel.
  unfold AuxOps.edges_from_topics, AuxOps.topic_ids, get_edges.
  rewrite <- Hsub, <- Hrel.
  split; [done|]. split; [done|]. split; [done|].
  split; [apply filter_length_le|]. split; [apply filter_length_le|].
  apply has_parent_count.
Qed.

(** X3: in the record of [get_hierarchy_statistics], [total_topics] is the
    number of Topic nodes, [subtopic_edges] is the number of SUBTOPIC_OF
    edges that leave a Topic node, [related_topic_edges] is half (rounded
    down) the number of RELATED_TOPIC edges that leave a Topic node, and
    neither [root_topics] nor [child_topics] exceeds [total_topics], nor
    [child_topics] the number of [subtopic_edges]. *)
Theorem X3_statistics_edge_counts (fuel : nat) (g : MGraph)
    (stats : hierarchy_statistics) :
  get_hierarchy_statistics fuel g = Some stats ->
  total_topics stats = length (query g "Topic")
  /\ subtopic_edges stats = length (AuxOps.edges_from_topics g "SUBTOPIC_OF")
  /\ related_topic_edges stats
     = length (AuxOps.edges_from_topics g "RELATED_TOPIC") / 2
  /\ root_topics stats <= total_topics stats
  /\ child_topics stats <= total_topics stats
  /\ child_topics stats <= subtopic_edges stats.
Proof. apply statistics_edge_counts. Qed.

(** X3 on the chain A -> B -> C: three topics, two SUBTOPIC_OF edges. *)
Lemma X3_statistics_edge_counts_witness :
  exists stats,
    get_hierarchy_statistics (traversal_fuel Examples.chain_graph)
                             Examples.chain_graph = Some stats
    /\ total_topics stats = length (query Examples.chain_graph "Topic")
    /\ subtopic_edges stats
       = length (AuxOps.edges_from_topics Examples.chain_graph "SUBTOPIC_OF")
    /\ related_topic_edges stats
       = length (AuxOps.edges_from_topics Examples.chain_graph "RELATED_TOPIC") / 2
    /\ root_topics stats <= total_topics stats
    /\ child_topics stats <= total_topics stats
    /\ child_topics stats <= subtopic_edges stats.
Proof.
  eexists. split; [vm_compute; reflexivity|].
  apply (X3_statistics_edge_counts (traversal_fuel Examples.chain_graph)
           Examples.chain_graph).
  vm_compute. reflexivity.
Defined.

(** ** The path of a topic *)

Section Path.

Import AuxOps.

Variable g : MGraph.

Lemma parent_chain_snoc (path : list string) (cur p : string) :
  last path = Some cur -> first_parent g cur = Some p ->
  parent_chain g path -> parent_chain g (path ++ [p]).
Proof.
  intros Hlast Hp Hchain i a b Ha Hb.
  assert (S i < length (path ++ [p])) as Hlen by (by eapply lookup_lt_Some).
  rewrite length_app in Hlen. simpl in Hlen.
  rewrite lookup_app_l in Ha by lia.
  destruct (decide (S i < length path)) as [Hlt|Hge].
  - rewrite lookup_app_l in Hb by done. by eapply Hchain.
  - assert (S i = length path) as Hi by lia.
    rewrite lookup_app_r in Hb by lia.
    replace (S i - length path) with 0 in Hb by lia. simpl in Hb.
    injection Hb as <-.
    rewrite last_lookup in Hlast. rewrite <- Hi in Hlast. simpl in Hlast.
    congruence.
Qed.

Lemma path_loop_spec (fuel : nat) :
  forall current_id path visited r,
    topic_path_loop fuel g current_id path visited = Some r ->
    last path = Some current_id ->
    visited = list_to_set path ->
    NoDup path -> parent_chain g path ->
    NoDup r /\ parent_chain g r /\ path_end g r
    /\ exists suffix, r = path ++ suffix.
Proof.
  induction fuel as [|fuel IH]; intros cur path visited r; [done|].
  rewrite path_unfold. intros Hrun Hlast Hvis Hnd Hchain.
  destruct (get_edges g (Some cur) None (Some "SUBTOPIC_OF"))
    as [|first others] eqn:Hes.
  - injection Hrun as <-. split; [done|]. split; [done|].
    split; [|exists []; by rewrite app_nil_r].
    exists cur. split; [done|]. left. unfold first_parent. by rewrite Hes.
  - assert (first_parent g cur = Some (to_node first)) as Hfp
      by (unfold first_parent; by rewrite Hes).
    case_bool_decide as Hin.
    + injection Hrun as <-. split; [done|]. split; [done|].
      split; [|exists []; by rewrite app_nil_r].
      exists cur. split; [done|]. right. exists (to_node first).
      split; [done|]. subst visited. by apply elem_of_list_to_set in Hin.
    + apply IH in Hrun as (Hnd' & Hchain' & Hend & suffix & ->).
      * split; [done|]. split; [done|]. split; [done|].
        exists (to_node first :: suffix). by rewrite <- app_assoc.
      * by rewrite last_snoc.
      * subst visited. rewrite list_to_set_app_L. simpl. set_solver.
      * apply NoDup_app. split; [done|]. split; [|apply NoDup_singleton].
        intros x Hx ->%list_elem_of_singleton. apply Hin. subst visited.
        by apply elem_of_list_to_set.
      * by eapply parent_chain_snoc.
Qed.

Lemma topic_path_spec (fuel : nat) (topic_id : string) (path : list string) :
  get_topic_path fuel g topic_id = Some path ->
  (exists rest, path = topic_id :: rest)
  /\ NoDup path /\ parent_chain g path /\ path_end g path.
Proof.
  unfold get_topic_path. intros Hrun.
  apply path_loop_spec in Hrun as (Hnd & Hchain & Hend & suffix & ->).
  - split; [by exists suffix|]. done.
  - done.
  - simpl. set_solver.
  - apply NoDup_singleton.
  - intros i a b Ha Hb. by destruct i.
Qed.

End Path.

(** X4: the path returned by [get_topic_path] starts at the topic asked
    for, names no topic twice, follows from each topic to the target of its
    first outgoing SUBTOPIC_OF edge, and ends at a topic that has no such
    edge or whose first parent is already on the path. *)
Theorem X4_get_topic_path (g : MGraph) (fuel : nat) (topic_id : string)
    (path : list string) :
  get_topic_path fuel g topic_id = Some path ->
  (exists rest, path = topic_id :: rest)
  /\ NoDup path
  /\ (forall i a b, path !! i = Some a -> path !! S i = Some b ->
        exists first others,
          get_edges g (Some a) None (Some "SUBTOPIC_OF") = first :: others
          /\ to_node first = b)
  /\ AuxOps.path_end g path.
Proof.
  intros Hrun. apply topic_path_spec in Hrun as (Hhead & Hnd & Hchain & Hend).
  split; [done|]. split; [done|]. split; [|done].
  intros i a b Ha Hb. specialize (Hchain i a b Ha Hb).
  unfold AuxOps.first_parent in Hchain.
  destruct (get_edges g (Some a) None (Some "SUBTOPIC_OF")) as [|first others];
    [done|].
  injection Hchain as <-. by exists first, others.
Qed.

(** X4 on the cycle A -> B -> C -> A: the path of A is A, B, C. *)
Lemma X4_get_topic_path_witness :
  NoDup ["A"; "B"; "C"] /\ AuxOps.path_end Examples.cycle_graph ["A"; "B"; "C"].
Proof.
  pose proof (X4_get_topic_path Examples.cycle_graph
                (traversal_fuel Examples.cycle_graph) "A" ["A"; "B"; "C"]
                ltac:(vm_compute; reflexivity)) as (_ & Hnd & _ & Hend).
  exact (conj Hnd Hend).
Defined.

(** ** The depth of a topic *)

Section Depth.

Import AuxOps.

Variable g : MGraph.

Lemma sources_size : size (sources g) <= length (all_subtopic_edges g).
Proof.
  unfold sources. generalize (all_subtopic_edges g). intros l.
  induction l as [|e l IH].
  - change (size (∅ : gset string) <= 0). by rewrite size_empty.
  - change (size ({[from_node e]} ∪ list_to_set (map from_node l) : gset string)
            <= S (length l)).
    rewrite size_union_alt, size_singleton.
    pose proof (subseteq_size (list_to_set (map from_node l) ∖ {[from_node e]})
                  (list_to_set (map from_node l) : gset string)
                  ltac:(set_solver)).
    lia.
Qed.

Lemma parent_edge_source (topic_id : string) (e : MEdge) :
  In e (get_edges g (Some topic_id) None (Some "SUBTOPIC_OF")) ->
  topic_id ∈ sources g.
Proof.
  unfold get_edges. intros [He Hm]%filter_In.
  unfold edge_matches, opt_matches in Hm.
  apply andb_true_iff in Hm as [Hm Hty].
  apply andb_true_iff in Hm as [Hfrom _].
  apply bool_decide_eq_true in Hfrom, Hty.
  unfold sources, all_subtopic_edges, get_edges.
  apply elem_of_list_to_set, list_elem_of_fmap. exists e. split; [done|].
  apply list_elem_of_In, filter_In. split; [done|].
  unfold edge_matches, opt_matches. simpl. by apply bool_decide_eq_true.
Qed.

Lemma max_parent_depth_bound (f : string -> option nat) (bound : nat)
    (es : list MEdge) :
  (forall p x, f p = Some x -> x <= bound) ->
  forall acc d,
    acc <= bound -> max_parent_depth f es acc = Some d -> d <= bound.
Proof.
  intros Hf. induction es as [|e es IH]; intros acc d Hacc; simpl.
  - by intros [= <-].
  - destruct (f (to_node e)) as [x|] eqn:Hx; [|done].
    apply IH. specialize (Hf _ _ Hx). lia.
Qed.

Lemma depth_bound (fuel : nat) :
  forall topic_id visited d,
    _get_topic_depth fuel g topic_id visited = Some d ->
    d <= size (sources g ∖ visited).
Proof.
  induction fuel as [|fuel IH]; intros topic_id visited d; [done|].
  rewrite depth_unfold. case_bool_decide as Hv; [intros [= <-]; lia|].
  destruct (get_edges g (Some topic_id) None (Some "SUBTOPIC_OF"))
    as [|e es] eqn:Hes; [intros [= <-]; lia|].
  destruct (max_parent_depth _ (e :: es) 0) as [x|] eqn:Hx; [|done].
  intros [= <-].
  assert (topic_id ∈ sources g) as Hsrc.
  { apply (parent_edge_source topic_id e). rewrite Hes. by left. }
  assert (size (sources g ∖ ({[topic_id]} ∪ visited))
          < size (sources g ∖ visited)) as Hlt
    by (apply subset_size; set_solver).
  eapply max_parent_depth_bound in Hx; [|intros p y; apply IH|lia].
  lia.
Qed.

Lemma depth_zero_iff (fuel : nat) (topic_id : string) (d : nat) :
  _get_topic_depth fuel g topic_id ∅ = Some d ->
  d = 0 <-> has_parent g topic_id = false.
Proof.
  destruct fuel as [|fuel]; [done|]. rewrite depth_unfold.
  rewrite bool_decide_eq_false_2 by set_solver. unfold has_parent.
  destruct (get_edges g (Some topic_id) None (Some "SUBTOPIC_OF"))
    as [|e es]; [by intros [= <-]|].
  destruct (max_parent_depth _ (e :: es) 0) as [x|]; [|done].
  intros [= <-]. split; [lia|done].
Qed.

Lemma topic_depth_bound (fuel : nat) (topic_id : string) (d : nat) :
  _get_topic_depth fuel g topic_id ∅ = Some d ->
  d <= length (all_subtopic_edges g).
Proof.
  intros Hd%depth_bound. pose proof sources_size.
  pose proof (subseteq_size (sources g ∖ ∅) (sources g) ltac:(set_solver)).
  lia.
Qed.

Lemma max_depth_loop_spec (fuel : nat) (l : list MNode) :
  forall acc r,
    max_depth_loop fuel g l acc = Some r ->
    (acc <= length (all_subtopic_edges g) ->
     r <= length (all_subtopic_edges g))
    /\ (r = 0 <->
        acc = 0
        /\ List.filter (fun n => has_parent g (node_id n)) l = []).
Proof.
  induction l as [|n l IH]; intros acc r; simpl.
  - intros [= <-]. split; [done|]. split; [done|]. by intros [? _].
  - destruct (_get_topic_depth fuel g (node_id n) ∅) as [d|] eqn:Hd; [|done].
    intros Hr. apply IH in Hr as [Hle Hzero].
    pose proof (topic_depth_bound _ _ _ Hd) as Hb.
    pose proof (depth_zero_iff _ _ _ Hd) as Hz.
    split; [intros Hacc; apply Hle; lia|].
    rewrite Hzero. destruct (has_parent g (node_id n)).
    + split; [|by intros [_ ?]]. intros [Hmax _].
      assert (d = 0) as Hd0 by lia. apply Hz in Hd0. done.
    + destruct Hz as [_ Hz]. specialize (Hz eq_refl). subst d.
      rewrite Nat.max_0_r. done.
Qed.

End Depth.

(** X5: the depth [_get_topic_depth] gives a topic is at most the number
    of SUBTOPIC_OF edges of the graph, and it is 0 exactly when the topic
    has no outgoing SUBTOPIC_OF edge; accordingly the [hierarchy_depth] of
    the statistics is at most the number of SUBTOPIC_OF edges and is 0
    exactly when [child_topics] is 0. *)
Theorem X5_depth_bounds (g : MGraph) (fuel : nat) :
  (forall topic_id d,
      _get_topic_depth fuel g topic_id ∅ = Some d ->
      d <= length (get_edges g None None (Some "SUBTOPIC_OF"))
      /\ (d = 0 <-> get_edges g (Some topic_id) None (Some "SUBTOPIC_OF") = []))
  /\ (forall stats,
      get_hierarchy_statistics fuel g = Some stats ->
      hierarchy_depth stats <= length (get_edges g None None (Some "SUBTOPIC_OF"))
      /\ (hierarchy_depth stats = 0 <-> child_topics stats = 0)).
Proof.
  split.
  - intros topic_id d Hd. split; [by eapply topic_depth_bound|].
    rewrite (depth_zero_iff g fuel topic_id d Hd). unfold has_parent.
    by destruct (get_edges g (Some topic_id) None (Some "SUBTOPIC_OF")).
  - intros stats. unfold get_hierarchy_statistics, _calculate_max_depth.
    destruct (max_depth_loop fuel g (query g "Topic") 0) as [depth|] eqn:Hdepth;
      [|done].
    intros [= <-]. simpl.
    apply max_depth_loop_spec in Hdepth as [Hle Hzero].
    split; [apply Hle; lia|]. rewrite Hzero.
    destruct (count_topic_fold g (query g "Topic") (mkCounters 0 0 ∅ ∅))
      as [_ ->].
    simpl. rewrite union_empty_r_L, marked_size by apply query_NoDup.
    split.
    + intros [_ ->]. done.
    + intros Hlen. split; [done|]. by apply length_zero_iff_nil.
Qed.

(** ** Statistics after build_related_topics *)

Section RelatedStatistics.

Import AuxOps.

Variable g : MGraph.
Variable created : list (string * string * Q).

(** The graph [build_related_topics] leaves behind. *)
Let g' : MGraph :=
  mkGraph (nodes g) (edges g ++ flat_map Aux.related_edges created).










Hypothesis created_from_topics :
  forall p, p ∈ created -> p.1.1 ∈ topic_ids g /\ p.1.2 ∈ topic_ids g.




End RelatedStatistics.



(** ** Extrema and means *)

Lemma min_nat_le (l : list nat) :
  forall x, Py.min_nat x l <= x /\ forall y, y ∈ l -> Py.min_nat x l <= y.
Proof.
  unfold Py.min_nat. induction l as [|z l IH]; intros x; simpl.
  - split; [done|]. by intros y Hy%elem_of_nil.
  - destruct (IH (Nat.min x z)) as [H1 H2]. split; [lia|].
    intros y [->|Hy]%elem_of_cons; [lia|by apply H2].
Qed.

Lemma max_nat_ge (l : list nat) :
  forall x, x <= Py.max_nat x l /\ forall y, y ∈ l -> y <= Py.max_nat x l.
Proof.
  unfold Py.max_nat. induction l as [|z l IH]; intros x; simpl.
  - split; [done|]. by intros y Hy%elem_of_nil.
  - destruct (IH (Nat.max x z)) as [H1 H2]. split; [lia|].
    intros y [->|Hy]%elem_of_cons; [lia|by apply H2].
Qed.

Lemma min_nat_elem (l : list nat) : forall x, Py.min_nat x l ∈ x :: l.
Proof.
  unfold Py.min_nat. induction l as [|z l IH]; intros x; simpl; [set_solver|].
  specialize (IH (Nat.min x z)).
  apply elem_of_cons in IH as [IH|IH]; [|set_solver].
  rewrite IH. destruct (Nat.min_spec x z) as [[_ ->]|[_ ->]]; set_solver.
Qed.

Lemma max_nat_elem (l : list nat) : forall x, Py.max_nat x l ∈ x :: l.
Proof.
  unfold Py.max_nat. induction l as [|z l IH]; intros x; simpl; [set_solver|].
  specialize (IH (Nat.max x z)).
  apply elem_of_cons in IH as [IH|IH]; [|set_solver].
  rewrite IH. destruct (Nat.max_spec x z) as [[_ ->]|[_ ->]]; set_solver.
Qed.

Lemma min_Q_le (l : list Q) :
  forall x, (Py.min_Q x l <= x)%Q /\ forall y, y ∈ l -> (Py.min_Q x l <= y)%Q.
Proof.
  unfold Py.min_Q. induction l as [|z l IH]; intros x; simpl.
  - split; [Lqa.lra|]. by intros y Hy%elem_of_nil.
  - destruct (Qle_bool x z) eqn:Hxz.
    + apply Qle_bool_iff in Hxz. destruct (IH x) as [H1 H2].
      split; [done|]. intros y [->|Hy]%elem_of_cons; [Lqa.lra|by apply H2].
    + apply Qle_bool_false in Hxz. destruct (IH z) as [H1 H2].
      split; [Lqa.lra|]. intros y [->|Hy]%elem_of_cons; [done|by apply H2].
Qed.

Lemma max_Q_ge (l : list Q) :
  forall x, (x <= Py.max_Q x l)%Q /\ forall y, y ∈ l -> (y <= Py.max_Q x l)%Q.
Proof.
  unfold Py.max_Q. induction l as [|z l IH]; intros x; simpl.
  - split; [Lqa.lra|]. by intros y Hy%elem_of_nil.
  - destruct (Qle_bool z x) eqn:Hzx.
    + apply Qle_bool_iff in Hzx. destruct (IH x) as [H1 H2].
      split; [done|]. intros y [->|Hy]%elem_of_cons; [Lqa.lra|by apply H2].
    + apply Qle_bool_false in Hzx. destruct (IH z) as [H1 H2].
      split; [Lqa.lra|]. intros y [->|Hy]%elem_of_cons; [done|by apply H2].
Qed.

Lemma min_Q_elem (l : list Q) : forall x, Py.min_Q x l ∈ x :: l.
Proof.
  unfold Py.min_Q. induction l as [|z l IH]; intros x; simpl; [set_solver|].
  destruct (Qle_bool x z); [specialize (IH x)|specialize (IH z)]; set_solver.
Qed.

Lemma max_Q_elem (l : list Q) : forall x, Py.max_Q x l ∈ x :: l.
Proof.
  unfold Py.max_Q. induction l as [|z l IH]; intros x; simpl; [set_solver|].
  destruct (Qle_bool z x); [specialize (IH x)|specialize (IH z)]; set_solver.
Qed.

(** ** get_clustering_statistics *)

Lemma list_sum_bounds (l : list nat) (lo hi : nat) :
  (forall y, y ∈ l -> lo <= y <= hi) ->
  lo * length l <= list_sum l <= hi * length l.
Proof.
  induction l as [|z l IH]; intros Hl; simpl; [lia|].
  destruct (Hl z ltac:(by left)) as [H1 H2].
  destruct IH as [H3 H4]; [intros y Hy; apply Hl; by right|]. lia.
Qed.

Lemma clustering_statistics_spec (clusters : list Clusterer.TopicCluster)
    (s : ClustererOps.clustering_statistics) :
  ClustererOps.get_clustering_statistics clusters = Some s ->
  ClustererOps.num_clusters s = length clusters
  /\ ClustererOps.total_topics s = list_sum (map Clusterer.size clusters)
  /\ (forall c, c ∈ clusters ->
        ClustererOps.smallest_cluster s <= Clusterer.size c
        <= ClustererOps.largest_cluster s
        /\ (ClustererOps.min_similarity s <= Clusterer.avg_similarity c
            <= ClustererOps.max_similarity s)%Q)
  /\ (exists c, c ∈ clusters
                /\ Clusterer.size c = ClustererOps.smallest_cluster s)
  /\ (exists c, c ∈ clusters
                /\ Clusterer.size c = ClustererOps.largest_cluster s)
  /\ (exists c, c ∈ clusters
                /\ Clusterer.avg_similarity c = ClustererOps.min_similarity s)
  /\ (exists c, c ∈ clusters
                /\ Clusterer.avg_similarity c = ClustererOps.max_similarity s)
  /\ ClustererOps.smallest_cluster s * ClustererOps.num_clusters s
     <= ClustererOps.total_topics s
     <= ClustererOps.largest_cluster s * ClustererOps.num_clusters s.
Proof.
  unfold ClustererOps.get_clustering_statistics.
  destruct clusters as [|c0 rest] eqn:Hcl; [done|]. rewrite <- Hcl.
  intros [= <-]. cbn [ClustererOps.num_clusters ClustererOps.total_topics
    ClustererOps.smallest_cluster ClustererOps.largest_cluster
    ClustererOps.min_similarity ClustererOps.max_similarity
    ClustererOps.avg_cluster_size ClustererOps.mean_similarity].
  destruct (min_nat_le (map Clusterer.size rest) (Clusterer.size c0))
    as [Hmin0 Hmin].
  destruct (max_nat_ge (map Clusterer.size rest) (Clusterer.size c0))
    as [Hmax0 Hmax].
  destruct (min_Q_le (map Clusterer.avg_similarity rest)
                     (Clusterer.avg_similarity c0)) as [Hqmin0 Hqmin].
  destruct (max_Q_ge (map Clusterer.avg_similarity rest)
                     (Clusterer.avg_similarity c0)) as [Hqmax0 Hqmax].
  assert (forall c, c ∈ clusters ->
            Py.min_nat (Clusterer.size c0) (map Clusterer.size rest)
            <= Clusterer.size c
            <= Py.max_nat (Clusterer.size c0) (map Clusterer.size rest)
            /\ (Py.min_Q (Clusterer.avg_similarity c0)
                         (map Clusterer.avg_similarity rest)
                <= Clusterer.avg_similarity c
                <= Py.max_Q (Clusterer.avg_similarity c0)
                            (map Clusterer.avg_similarity rest))%Q) as Hall.
  { intros c Hc. rewrite Hcl in Hc. apply elem_of_cons in Hc as [->|Hc].
    - done.
    - split; split.
      + apply Hmin. apply list_elem_of_fmap. by exists c.
      + apply Hmax. apply list_elem_of_fmap. by exists c.
      + apply Hqmin. apply list_elem_of_fmap. by exists c.
      + apply Hqmax. apply list_elem_of_fmap. by exists c. }
  assert (forall (f : Clusterer.TopicCluster -> nat) v,
            v ∈ f c0 :: map f rest -> exists c, c ∈ clusters /\ f c = v)
    as Hex.
  { intros f v Hv. rewrite Hcl. apply elem_of_cons in Hv as [->|Hv].
    - exists c0. split; [by left|done].
    - apply list_elem_of_fmap in Hv as (c & -> & Hc). exists c.
      split; [by right|done]. }
  assert (forall (f : Clusterer.TopicCluster -> Q) v,
            v ∈ f c0 :: map f rest -> exists c, c ∈ clusters /\ f c = v)
    as HexQ.
  { intros f v Hv. rewrite Hcl. apply elem_of_cons in Hv as [->|Hv].
    - exists c0. split; [by left|done].
    - apply list_elem_of_fmap in Hv as (c & -> & Hc). exists c.
      split; [by right|done]. }
  split; [done|]. split; [done|]. split; [exact Hall|].
  split; [apply Hex, min_nat_elem|]. split; [apply Hex, max_nat_elem|].
  split; [apply HexQ, min_Q_elem|]. split; [apply HexQ, max_Q_elem|].
  rewrite <- (length_map Clusterer.size clusters).
  apply list_sum_bounds. intros y (c & -> & Hc)%list_elem_of_fmap.
  by apply Hall.
Qed.


(** ** The clusters of cluster_topics *)

Section Clusters.

Import Clusterer AuxOps.

Variable cosine_similarity : list (list Q) -> matrix.
Variable average_linkage_cut : matrix -> Q -> list nat.
Variable cfg : Clusterer.config.

Lemma group_elem (ts : list Topic) (labels : list nat) (label : nat) (t : Topic) :
  t ∈ Aux.group ts labels label -> t ∈ ts.
Proof.
  unfold Aux.group. intros (i & _ & Hi)%list_elem_of_omap.
  by eapply list_elem_of_lookup_2.
Qed.

Lemma well_formed_mono (ts ts' : list Topic) (c : TopicCluster) :
  (forall t, t ∈ ts' -> t ∈ ts) -> well_formed ts' c -> well_formed ts c.
Proof. intros Hsub [Hc Ht]. split; [done|]. intros t Hin. by apply Hsub, Ht. Qed.

Lemma ids_bounded_app (l1 l2 : list TopicCluster) :
  ids_bounded l1 ->
  (forall k c, l2 !! k = Some c -> 1 <= cluster_id c <= length l1 + k + 1) ->
  ids_bounded (l1 ++ l2).
Proof.
  intros H1 H2 k c Hk. apply lookup_app_Some in Hk as [Hk|[Hlen Hk]].
  - by apply H1.
  - apply H2 in Hk. lia.
Qed.

Lemma loop_well_formed recurse ts labels sim :
  (forall ts' labels' sim' r,
      recurse ts' labels' sim' = Some r ->
      Forall (well_formed ts') r /\ ids_bounded r) ->
  forall visit clusters r,
    Forall (well_formed ts) clusters -> ids_bounded clusters ->
    clusters_loop average_linkage_cut cfg recurse ts labels sim visit clusters
      = Some r ->
    Forall (well_formed ts) r /\ ids_bounded r.
Proof.
  intros Hrec. induction visit as [|label rest IH]; intros clusters r Hacc Hids.
  - rewrite loop_nil. by intros [= <-].
  - rewrite loop_cons. cbv zeta.
    destruct (length (Aux.group ts labels label) <? min_cluster_size cfg)%nat;
      [by apply IH|].
    destruct (max_cluster_size cfg <? length (Aux.group ts labels label))%nat.
    + destruct (recurse _ _ _) as [sub|] eqn:Hsub; [|done].
      apply Hrec in Hsub as [Hsub Hsubids].
      apply IH;
        [|apply ids_bounded_app; [done|];
          intros k c Hk; apply Hsubids in Hk; lia].
      apply Forall_app. split; [done|].
      eapply Forall_impl; [exact Hsub|].
      intros c Hc. eapply well_formed_mono; [|exact Hc].
      intros t. apply group_elem.
    + destruct (Aux.group ts labels label !! _) as [centroid|] eqn:Hcen;
        [|by apply IH].
      apply IH.
      * apply Forall_app. split; [done|].
        apply Forall_cons. split; [|by apply Forall_nil].
        split; simpl; [by eapply list_elem_of_lookup_2|].
        intros t. apply group_elem.
      * apply ids_bounded_app; [done|].
        intros k c Hk. apply list_lookup_singleton_Some in Hk as [-> <-].
        simpl. lia.
Qed.

Lemma create_well_formed fuel :
  forall ts labels sim r,
    _create_clusters average_linkage_cut cfg fuel ts labels sim = Some r ->
    Forall (well_formed ts) r /\ ids_bounded r.
Proof.
  induction fuel as [|fuel IH]; intros ts labels sim r; [done|].
  rewrite create_unfold. intros Hr.
  eapply loop_well_formed; [exact IH|by apply Forall_nil| |exact Hr].
  intros k c Hk. by rewrite lookup_nil in Hk.
Qed.

(** Without an oversized group the clusters are numbered 1, 2, 3, ... *)
Lemma loop_ids_consecutive recurse ts labels sim :
  (forall label,
      length (Aux.group ts labels label) <= max_cluster_size cfg) ->
  forall visit clusters r,
    map cluster_id clusters = seq 1 (length clusters) ->
    clusters_loop average_linkage_cut cfg recurse ts labels sim visit clusters
      = Some r ->
    map cluster_id r = seq 1 (length r).
Proof.
  intros Hsmall. induction visit as [|label rest IH]; intros clusters r Hacc.
  - rewrite loop_nil. by intros [= <-].
  - rewrite loop_cons. cbv zeta.
    destruct (length (Aux.group ts labels label) <? min_cluster_size cfg)%nat;
      [by apply IH|].
    destruct (Nat.ltb_spec (max_cluster_size cfg)
                           (length (Aux.group ts labels label))) as [Hmax|Hmax].
    { specialize (Hsmall label). lia. }
    destruct (Aux.group ts labels label !! _) as [centroid|]; [|by apply IH].
    apply IH. rewrite map_app, length_app, seq_app, Hacc. simpl.
    by rewrite Nat.add_comm.
Qed.

(** *** The topics in clusters are no more than the topics given *)

Lemma count_by_key {A} (key : A -> nat) (P : A -> bool) (E : list A)
    (L : list nat) :
  NoDup L ->
  list_sum (map (fun k =>
              length (List.filter (fun p => P p && (key p =? k)%nat) E)) L)
  <= length (List.filter P E).
Proof.
  intros Hnd.
  transitivity (length (List.filter
                  (fun p => P p && bool_decide (key p ∈ L)) E)).
  - apply Nat.eq_le_incl. induction L as [|k L IH].
    + transitivity (length (List.filter (fun _ : A => false) E));
        [by induction E|].
      apply filter_length_ext. intros p _.
      rewrite bool_decide_eq_false_2 by apply not_elem_of_nil.
      by rewrite andb_false_r.
    + apply NoDup_cons in Hnd as [Hk Hnd].
      change (length (List.filter (fun p => P p && (key p =? k)%nat) E)
              + list_sum (map (fun k =>
                  length (List.filter (fun p => P p && (key p =? k)%nat) E)) L)
              = length (List.filter
                  (fun p => P p && bool_decide (key p ∈ k :: L)) E)).
      rewrite IH by done. rewrite <- filter_length_or.
      * apply filter_length_ext. intros p _.
        destruct (P p); [|done]. simpl.
        destruct (Nat.eqb_spec (key p) k) as [->|Hne];
          repeat case_bool_decide; try done; exfalso; set_solver.
      * intros p _ H1 H2.
        apply andb_true_iff in H1 as [_ H1]. apply Nat.eqb_eq in H1.
        apply andb_true_iff in H2 as [_ H2]. apply bool_decide_eq_true in H2.
        apply Hk. by rewrite <- H1.
  - clear Hnd. induction E as [|p E IH]; simpl; [done|].
    destruct (P p); simpl; [|done]. case_bool_decide; simpl; lia.
Qed.

Lemma indexed_below (n : nat) (labels : list nat) :
  forall k,
    length (List.filter (fun p : nat * nat => (p.1 <? n)%nat)
                        (imap (fun i l => (k + i, l)) labels))
    <= n - k.
Proof.
  induction labels as [|x labels IH]; intros k; [simpl; lia|].
  rewrite imap_cons. simpl. rewrite Nat.add_0_r.
  rewrite (imap_ext _ (fun i l => (S k + i, l)))
    by (intros; simpl; f_equal; lia).
  specialize (IH (S k)).
  destruct (Nat.ltb_spec k n); cbn [length]; lia.
Qed.

Lemma omap_lookup_length (ts : list Topic) (idxs : list nat) :
  length (omap (fun i => ts !! i) idxs)
  = length (List.filter (fun i => (i <? length ts)%nat) idxs).
Proof.
  induction idxs as [|i idxs IH]; [done|].
  change (omap (fun i => ts !! i) (i :: idxs))
    with (match ts !! i with
          | Some t => t :: omap (fun i => ts !! i) idxs
          | None => omap (fun i => ts !! i) idxs
          end).
  simpl. destruct (Nat.ltb_spec i (length ts)) as [Hlt|Hge].
  - destruct (lookup_lt_is_Some_2 ts i Hlt) as [t ->]. simpl. by rewrite IH.
  - by rewrite lookup_ge_None_2.
Qed.

Lemma filter_map_fst_length (n label : nat) (E : list (nat * nat)) :
  length (List.filter (fun i => (i <? n)%nat)
            (map fst (List.filter (fun p => (p.2 =? label)%nat) E)))
  = length (List.filter (fun p => (p.1 <? n)%nat && (p.2 =? label)%nat) E).
Proof.
  induction E as [|p E IH]; simpl; [done|].
  destruct (p.2 =? label)%nat; simpl.
  - destruct (p.1 <? n)%nat; simpl; by rewrite IH.
  - by rewrite andb_false_r.
Qed.

Lemma groups_total (ts : list Topic) (labels : list nat) (L : list nat) :
  NoDup L ->
  list_sum (map (fun label => length (Aux.group ts labels label)) L)
  <= length ts.
Proof.
  intros Hnd.
  rewrite (map_ext _ (fun label =>
     length (List.filter (fun p : nat * nat =>
                            (p.1 <? length ts)%nat && (p.2 =? label)%nat)
                         (imap (fun i l => (i, l)) labels)))).
  - etransitivity; [by apply (count_by_key snd)|].
    pose proof (indexed_below (length ts) labels 0) as H.
    rewrite Nat.sub_0_r in H. exact H.
  - intros label. unfold Aux.group, where_label.
    by rewrite omap_lookup_length, filter_map_fst_length.
Qed.

Lemma unique_labels_NoDup (labels : list nat) : NoDup (unique_labels labels).
Proof.
  unfold unique_labels.
  pose proof (filter_fmap_NoDup (fun l : nat => l)
                (fun l => existsb (Nat.eqb l) labels)
                (seq 0 (S (list_max labels)))) as H.
  rewrite !map_id in H. apply H, NoDup_seq.
Qed.

Lemma total_size_app (l1 l2 : list TopicCluster) :
  total_size (l1 ++ l2) = total_size l1 + total_size l2.
Proof. unfold total_size. by rewrite map_app, list_sum_app. Qed.

Lemma loop_total_size recurse ts labels sim :
  (forall ts' labels' sim' r,
      recurse ts' labels' sim' = Some r -> total_size r <= length ts') ->
  forall visit clusters r,
    clusters_loop average_linkage_cut cfg recurse ts labels sim visit clusters
      = Some r ->
    total_size r
    <= total_size clusters
       + list_sum (map (fun label => length (Aux.group ts labels label)) visit).
Proof.
  intros Hrec. induction visit as [|label rest IH]; intros clusters r.
  - rewrite loop_nil. intros [= <-]. simpl. lia.
  - rewrite loop_cons. cbv zeta.
    change (list_sum (map _ (label :: rest)))
      with (length (Aux.group ts labels label)
            + list_sum (map (fun label => length (Aux.group ts labels label))
                            rest)).
    destruct (length (Aux.group ts labels label) <? min_cluster_size cfg)%nat.
    { intros Hr%IH. lia. }
    destruct (max_cluster_size cfg <? length (Aux.group ts labels label))%nat.
    + destruct (recurse _ _ _) as [sub|] eqn:Hsub; [|done].
      apply Hrec in Hsub. intros Hr%IH. rewrite total_size_app in Hr. lia.
    + destruct (Aux.group ts labels label !! _) as [centroid|].
      * intros Hr%IH. rewrite total_size_app in Hr.
        unfold total_size at 3 in Hr. simpl in Hr. lia.
      * intros Hr%IH. lia.
Qed.

Lemma create_total_size fuel :
  forall ts labels sim r,
    _create_clusters average_linkage_cut cfg fuel ts labels sim = Some r ->
    total_size r <= length ts.
Proof.
  induction fuel as [|fuel IH]; intros ts labels sim r; [done|].
  rewrite create_unfold. intros Hr%(loop_total_size _ _ _ _ IH).
  pose proof (groups_total ts labels _ (unique_labels_NoDup labels)).
  unfold total_size in Hr at 2. simpl in Hr. lia.
Qed.

Lemma cluster_topics_spec fuel topics r :
  cluster_topics cosine_similarity average_linkage_cut cfg fuel topics = Some r ->
  Forall (well_formed
            (List.filter (fun t => match embedding t with
                                   | Some _ => true | None => false end)
                         topics)) r
  /\ ids_bounded r
  /\ total_size r <= length topics.
Proof.
  unfold cluster_topics.
  assert (forall ts : list Topic,
             Forall (well_formed ts) [] /\ ids_bounded []
             /\ total_size [] <= length topics) as Hnil.
  { intros ts. split; [by apply Forall_nil|]. split; [|unfold total_size; simpl; lia].
    intros k c Hk. by rewrite lookup_nil in Hk. }
  destruct (length topics <? 2)%nat; [intros [= <-]; apply Hnil|].
  destruct (length _ <? 2)%nat; [intros [= <-]; apply Hnil|].
  destruct (_compute_similarity_matrix _ _); [|done].
  intros Hr. destruct (create_well_formed _ _ _ _ _ Hr) as [Hwf Hids].
  apply create_total_size in Hr.
  split; [done|]. split; [done|].
  pose proof (filter_length_le (fun t => match embedding t with
                                     | Some _ => true | None => false end)
                          topics).
  lia.
Qed.

End Clusters.

(** X8: every cluster returned by [cluster_topics] has one of its own
    topics as centroid, holds only topics of the input that carry an
    embedding, and the cluster at position k (from 0) has an id between 1
    and k + 1; the sizes of all clusters together do not exceed the number
    of topics given.  When no label group is larger than
    [max_cluster_size], [_create_clusters] numbers its clusters 1, 2, 3, ...
    in order. *)
Theorem X8_clusters_well_formed
    (cosine_similarity : list (list Q) -> matrix)
    (average_linkage_cut : matrix -> Q -> list nat)
    (cfg : Clusterer.config) :
  (forall fuel topics clusters,
      Clusterer.cluster_topics cosine_similarity average_linkage_cut cfg fuel
                               topics = Some clusters ->
      (forall k c, clusters !! k = Some c ->
         Clusterer.centroid_topic c ∈ Clusterer.topics c
         /\ (forall t, t ∈ Clusterer.topics c ->
               t ∈ topics /\ is_Some (Clusterer.embedding t))
         /\ 1 <= Clusterer.cluster_id c <= k + 1)
      /\ list_sum (map Clusterer.size clusters) <= length topics)
  /\ (forall fuel ts labels sim clusters,
      (forall label,
          length (Aux.group ts labels label) <= Clusterer.max_cluster_size cfg) ->
      Clusterer._create_clusters average_linkage_cut cfg fuel ts labels sim
        = Some clusters ->
      map Clusterer.cluster_id clusters = seq 1 (length clusters)).
Proof.
  split.
  - intros fuel topics clusters Hrun.
    apply cluster_topics_spec in Hrun as (Hwf & Hids & Hsum).
    split; [|exact Hsum]. intros k c Hk.
    rewrite Forall_forall in Hwf.
    destruct (Hwf c (list_elem_of_lookup_2 _ _ _ Hk)) as [Hcen Hts].
    split; [done|]. split; [|by apply Hids].
    intros t Ht. apply Hts, list_elem_of_In, filter_In in Ht as [Hin Hemb].
    split; [by apply list_elem_of_In|].
    by destruct (Clusterer.embedding t).
  - intros fuel ts labels sim clusters Hsmall. destruct fuel as [|fuel]; [done|].
    rewrite create_unfold. by apply loop_ids_consecutive.
Qed.

(** X9: the statistics of the clusters returned by [cluster_topics]
    respect the configuration: the smallest cluster has at least
    [min_cluster_size] topics, the largest at most [max_cluster_size], and
    [total_topics] does not exceed the number of topics given. *)
Theorem X9_statistics_of_cluster_topics
    (cosine_similarity : list (list Q) -> matrix)
    (average_linkage_cut : matrix -> Q -> list nat)
    (cfg : Clusterer.config) (fuel : nat) (topics : list Clusterer.Topic)
    (clusters : list Clusterer.TopicCluster)
    (s : ClustererOps.clustering_statistics) :
  Clusterer.cluster_topics cosine_similarity average_linkage_cut cfg fuel topics
    = Some clusters ->
  ClustererOps.get_clustering_statistics clusters = Some s ->
  Clusterer.min_cluster_size cfg <= ClustererOps.smallest_cluster s
  /\ ClustererOps.largest_cluster s <= Clusterer.max_cluster_size cfg
  /\ ClustererOps.total_topics s <= length topics
  /\ ClustererOps.num_clusters s * Clusterer.min_cluster_size cfg
     <= ClustererOps.total_topics s.
Proof.
  intros Hrun Hs.
  pose proof (cluster_topics_within_bounds _ _ _ _ _ _ Hrun) as Hb.
  rewrite Forall_forall in Hb.
  destruct (cluster_topics_spec _ _ _ _ _ _ Hrun) as (_ & _ & Hsum).
  destruct (clustering_statistics_spec _ _ Hs)
    as (Hnum & Htot & _ & (c1 & Hc1 & <-) & (c2 & Hc2 & <-) & _).
  rewrite Htot, Hnum.
  split; [by apply Hb|]. split; [by apply Hb|]. split; [exact Hsum|].
  clear Hs Htot Hnum Hsum Hrun Hc1 Hc2.
  induction clusters as [|c l IH]; simpl; [done|].
  pose proof (Hb c ltac:(by left)) as (Hmin & _).
  specialize (IH (fun x Hx => Hb x ltac:(by right))). lia.
Qed.

(** X9 on the three example topics: one cluster of two topics. *)
Lemma X9_statistics_of_cluster_topics_witness :
  exists s,
    ClustererOps.get_clustering_statistics
      [Clusterer.mkCluster 1 [Examples.T1; Examples.T2] Examples.T1 0.9998 2]
    = Some s
    /\ 2 <= ClustererOps.smallest_cluster s
    /\ ClustererOps.largest_cluster s <= 20
    /\ ClustererOps.total_topics s <= 3
    /\ ClustererOps.num_clusters s * 2 <= ClustererOps.total_topics s.
Proof.
  eexists. split; [reflexivity|].
  apply (X9_statistics_of_cluster_topics
           Examples.cosine_123 SciPy.average_linkage_cut Examples.cfg_08 1
           [Examples.T1; Examples.T2; Examples.T3]
           [Clusterer.mkCluster 1 [Examples.T1; Examples.T2] Examples.T1
                                0.9998 2]).
  - vm_compute. reflexivity.
  - reflexivity.
Defined.

(** ** Sorting by a key, greatest first *)

Section SortedDesc.

Context {A : Type}.
Variable key : A -> Q.

Lemma insert_by_perm (x : A) (l : list A) : Py.insert_by key x l ≡ₚ x :: l.
Proof.
  induction l as [|y l IH]; simpl; [done|].
  destruct (Qle_bool (key y) (key x)); [done|].
  rewrite IH. apply Permutation_swap.
Qed.

Lemma sorted_desc_perm (l : list A) : Py.sorted_desc key l ≡ₚ l.
Proof.
  induction l as [|x l IH]; simpl; [done|].
  by rewrite insert_by_perm, IH.
Qed.

Lemma insert_by_sorted (x : A) (l : list A) :
  StronglySorted (AuxOps.key_desc key) l ->
  StronglySorted (AuxOps.key_desc key) (Py.insert_by key x l).
Proof.
  induction 1 as [|y l Hl IH Hy]; simpl.
  - apply SSorted_cons; [apply SSorted_nil|by apply Forall_nil].
  - destruct (Qle_bool (key y) (key x)) eqn:Hle.
    + apply Qle_bool_iff in Hle.
      apply SSorted_cons; [by apply SSorted_cons|].
      apply Forall_cons. split; [done|].
      rewrite Forall_forall in Hy. apply Forall_forall. intros z Hz.
      specialize (Hy z Hz). unfold AuxOps.key_desc in *. Lqa.lra.
    + apply Qle_bool_false in Hle.
      apply SSorted_cons; [by apply IH|].
      rewrite insert_by_perm. apply Forall_cons. split; [|done].
      unfold AuxOps.key_desc. Lqa.lra.
Qed.

Lemma sorted_desc_sorted (l : list A) :
  StronglySorted (AuxOps.key_desc key) (Py.sorted_desc key l).
Proof.
  induction l as [|x l IH]; simpl; [apply SSorted_nil|].
  by apply insert_by_sorted.
Qed.

End SortedDesc.

(** ** Trending and niche topics *)

Section TrendingNiche.

Import AnalysisOps AuxOps.

Variable g : MGraph.
Variable a : node_attrs.

Lemma stats_ids (l : list MNode) :
  map topic_id (map (stats_of g a) l) = map node_id l.
Proof. rewrite map_map. by apply map_ext. Qed.

Lemma selected_spec (key : TopicStats -> Q) (test : MNode -> bool)
    (r : list TopicStats) :
  r = Py.sorted_desc key
        (map (stats_of g a) (List.filter test (query g "Topic"))) ->
  (forall s, s ∈ r <->
             exists topic, topic ∈ query g "Topic" /\ test topic = true
                           /\ s = stats_of g a topic)
  /\ NoDup (map topic_id r)
  /\ StronglySorted (key_desc key) r
  /\ length r = length (List.filter test (query g "Topic")).
Proof.
  intros ->.
  pose proof (sorted_desc_perm key
                (map (stats_of g a) (List.filter test (query g "Topic"))))
    as Hperm.
  split; [|split; [|split]].
  - intros s. rewrite Hperm. rewrite list_elem_of_fmap. split.
    + intros (topic & -> & Ht). apply list_elem_of_In, filter_In in Ht as [Ht Hp].
      exists topic. split; [by apply list_elem_of_In|done].
    + intros (topic & Ht & Hp & ->). exists topic. split; [done|].
      apply list_elem_of_In, filter_In. split; [by apply list_elem_of_In|done].
  - rewrite Hperm, stats_ids. apply filter_fmap_NoDup, query_NoDup.
  - apply sorted_desc_sorted.
  - by rewrite Hperm, length_map.
Qed.


End TrendingNiche.


(** X11: when [max_frequency] is below [threshold], no topic is both
    trending and niche, and the two lists together have at most as many
    entries as there are Topic nodes; when [threshold] is [max_frequency + 1]
    they have exactly as many, so that every topic is in one of the two. *)
Theorem X11_trending_niche_disjoint (g : MGraph) (a : node_attrs)
    (threshold max_frequency : Z) :
  (max_frequency < threshold)%Z ->
  let trending := AnalysisOps.find_trending_topics g a threshold in
  let niche := AnalysisOps.find_niche_topics g a max_frequency in
  (forall s t, s ∈ trending -> t ∈ niche ->
               AnalysisOps.topic_id s <> AnalysisOps.topic_id t)
  /\ length trending + length niche <= length (query g "Topic")
  /\ (threshold = (max_frequency + 1)%Z ->
      length trending + length niche = length (query g "Topic")).
Proof.
  intros Hlt trending niche.
  destruct (selected_spec g a AnalysisOps.trending_key _ trending eq_refl)
    as (Hin1 & _ & _ & Hlen1).
  destruct (selected_spec g a AnalysisOps.niche_key _ niche eq_refl)
    as (Hin2 & _ & _ & Hlen2).
  split; [|split].
  - intros s t (n1 & Hn1 & Hp1 & ->)%Hin1 (n2 & Hn2 & Hp2 & ->)%Hin2 Heq.
    simpl in Heq.
    assert (n1 = n2) as ->.
    { apply query_get_node in Hn1, Hn2. rewrite Heq in Hn1. congruence. }
    apply negb_true_iff, Z.ltb_ge in Hp1, Hp2. lia.
  - rewrite Hlen1, Hlen2. generalize (query g "Topic"). intros l.
    induction l as [|n l IH]; simpl; [done|].
    destruct (Z.ltb_spec (Z.of_nat (AnalysisOps.topic_frequency g n)) threshold),
             (Z.ltb_spec max_frequency (Z.of_nat (AnalysisOps.topic_frequency g n)));
      simpl; lia.
  - intros ->. rewrite Hlen1, Hlen2. generalize (query g "Topic"). intros l.
    induction l as [|n l IH]; simpl; [done|].
    destruct (Z.ltb_spec (Z.of_nat (AnalysisOps.topic_frequency g n))
                         (max_frequency + 1)),
             (Z.ltb_spec max_frequency (Z.of_nat (AnalysisOps.topic_frequency g n)));
      simpl; lia.
Qed.

(** X11 on the graph of four topics with ten mentions each, thresholds 5
    and 2: all four are trending, none is niche. *)
Lemma X11_trending_niche_disjoint_witness :
  length (AnalysisOps.find_trending_topics Examples.diversity_graph
            (mkAttrs ∅ ∅) 5)
  + length (AnalysisOps.find_niche_topics Examples.diversity_graph
              (mkAttrs ∅ ∅) 2)
  <= length (query Examples.diversity_graph "Topic").
Proof.
  apply (X11_trending_niche_disjoint Examples.diversity_graph (mkAttrs ∅ ∅) 5 2).
  reflexivity.
Defined.

(** ** The topic and page mappings *)

Section Mappings.

Import AnalysisOps AuxOps.

Variable g : MGraph.

Lemma fold_insert_by_id {V} (F : string -> V) (l : list MNode) :
  forall (m0 : gmap string V) (k : string),
    fold_left (fun m n => <[node_id n := F (node_id n)]> m) l m0 !! k
    = if bool_decide (k ∈ map node_id l) then Some (F k) else m0 !! k.
Proof.
  induction l as [|n l IH]; intros m0 k.
  - by rewrite bool_decide_eq_false_2 by apply not_elem_of_nil.
  - cbn [fold_left]. rewrite IH. rewrite map_cons. case_bool_decide as Hk.
    + rewrite bool_decide_eq_true_2; [done|]. by right.
    + destruct (decide (k = node_id n)) as [->|Hne].
      * rewrite lookup_insert_eq.
        rewrite bool_decide_eq_true_2; [done|]. by left.
      * rewrite lookup_insert_ne by done.
        rewrite bool_decide_eq_false_2; [done|].
        intros [?|?]%elem_of_cons; done.
Qed.

Lemma topic_page_lookup (t : string) :
  get_topic_page_mapping g !! t
  = if bool_decide (t ∈ topic_ids g)
    then Some (map from_node (get_edges g None (Some t) (Some "HAS_TOPIC")))
    else None.
Proof.
  unfold get_topic_page_mapping.
  rewrite (fold_insert_by_id
             (fun k => map from_node (get_edges g None (Some k) (Some "HAS_TOPIC")))).
  by rewrite lookup_empty.
Qed.

Lemma page_topic_lookup (p : string) :
  get_page_topic_mapping g !! p
  = if bool_decide (p ∈ page_ids g)
    then Some (map to_node (get_edges g (Some p) None (Some "HAS_TOPIC")))
    else None.
Proof.
  unfold get_page_topic_mapping.
  rewrite (fold_insert_by_id
             (fun k => map to_node (get_edges g (Some k) None (Some "HAS_TOPIC")))).
  by rewrite lookup_empty.
Qed.

Lemma occurrences_sources (es : list MEdge) (p t ty : string) :
  occurrences p (map from_node
                   (List.filter (edge_matches None (Some t) (Some ty)) es))
  = length (List.filter (edge_matches (Some p) (Some t) (Some ty)) es).
Proof.
  unfold occurrences. induction es as [|e es IH]; [done|].
  cbn [List.filter].
  assert (edge_matches (Some p) (Some t) (Some ty) e
          = bool_decide (p = from_node e)
            && edge_matches None (Some t) (Some ty) e) as ->
    by (unfold edge_matches, opt_matches; by rewrite andb_assoc).
  destruct (edge_matches None (Some t) (Some ty) e).
  - rewrite andb_true_r. cbn [map List.filter].
    repeat case_bool_decide; cbn [length]; rewrite ?IH; congruence.
  - rewrite andb_false_r. done.
Qed.

Lemma occurrences_targets (es : list MEdge) (p t ty : string) :
  occurrences t (map to_node
                   (List.filter (edge_matches (Some p) None (Some ty)) es))
  = length (List.filter (edge_matches (Some p) (Some t) (Some ty)) es).
Proof.
  unfold occurrences. induction es as [|e es IH]; [done|].
  cbn [List.filter].
  assert (edge_matches (Some p) (Some t) (Some ty) e
          = bool_decide (t = to_node e)
            && edge_matches (Some p) None (Some ty) e) as ->.
  { unfold edge_matches, opt_matches.
    destruct (bool_decide (p = from_node e)), (bool_decide (t = to_node e));
      done. }
  destruct (edge_matches (Some p) None (Some ty) e).
  - rewrite andb_true_r. cbn [map List.filter].
    repeat case_bool_decide; cbn [length]; rewrite ?IH; congruence.
  - rewrite andb_false_r. done.
Qed.

Lemma occurrences_pos (x : string) (l : list string) :
  0 < occurrences x l <-> x ∈ l.
Proof.
  unfold occurrences. induction l as [|y l IH]; simpl.
  - split; [lia|]. by intros ?%elem_of_nil.
  - case_bool_decide as Hy; simpl.
    + subst. split; [intros _; by left|lia].
    + rewrite IH. split; [by right|].
      intros [?|?]%elem_of_cons; [by subst|done].
Qed.

End Mappings.

(** X12: [get_topic_page_mapping] has exactly the Topic nodes as keys and
    [get_page_topic_mapping] exactly the Page nodes; a page occurs in the
    list of a topic as often as the topic occurs in the list of the page,
    namely once per HAS_TOPIC edge from the page to the topic, so a page is
    listed under a topic if and only if the topic is listed under the
    page. *)
Theorem X12_topic_page_mappings (g : MGraph) :
  (forall t, is_Some (AnalysisOps.get_topic_page_mapping g !! t)
             <-> t ∈ AuxOps.topic_ids g)
  /\ (forall p, is_Some (AnalysisOps.get_page_topic_mapping g !! p)
                <-> p ∈ AuxOps.page_ids g)
  /\ (forall t p pages topics,
        AnalysisOps.get_topic_page_mapping g !! t = Some pages ->
        AnalysisOps.get_page_topic_mapping g !! p = Some topics ->
        AuxOps.occurrences p pages
        = length (get_edges g (Some p) (Some t) (Some "HAS_TOPIC"))
        /\ AuxOps.occurrences t topics
           = length (get_edges g (Some p) (Some t) (Some "HAS_TOPIC"))
        /\ (p ∈ pages <-> t ∈ topics)).
Proof.
  split; [|split].
  - intros t. rewrite topic_page_lookup. case_bool_decide.
    + split; [done|]. intros _. by eexists.
    + split; [|done]. by intros [? ?].
  - intros p. rewrite page_topic_lookup. case_bool_decide.
    + split; [done|]. intros _. by eexists.
    + split; [|done]. by intros [? ?].
  - intros t p pages topics. rewrite topic_page_lookup, page_topic_lookup.
    case_bool_decide; [|done]. case_bool_decide; [|done].
    intros [= <-] [= <-]. unfold get_edges.
    pose proof (occurrences_sources (edges g) p t "HAS_TOPIC") as H1.
    pose proof (occurrences_targets (edges g) p t "HAS_TOPIC") as H2.
    split; [done|]. split; [done|].
    rewrite <- !occurrences_pos, H1, H2. done.
Qed.

(** ** analyze_distribution *)

Section Distribution.

Import Analysis AnalysisOps AuxOps.

Lemma ratio_bounds (s n lo hi : nat) :
  0 < n -> lo * n <= s <= hi * n ->
  (INR lo <= INR s / INR n <= INR hi)%R.
Proof.
  intros Hn [H1 H2].
  assert (0 < INR n)%R as Hpos by (apply lt_0_INR; lia).
  apply le_INR in H1, H2. rewrite mult_INR in H1, H2.
  split.
  - apply Rmult_le_reg_r with (INR n); [done|].
    unfold Rdiv. rewrite Rmult_assoc, Rinv_l, Rmult_1_r; [done|Lra.lra].
  - apply Rmult_le_reg_r with (INR n); [done|].
    unfold Rdiv. rewrite Rmult_assoc, Rinv_l, Rmult_1_r; [done|Lra.lra].
Qed.

Lemma Rmean_bounds (l : list nat) (lo hi : nat) :
  l <> [] -> (forall y, y ∈ l -> lo <= y <= hi) ->
  (INR lo <= Rmean l <= INR hi)%R.
Proof.
  intros Hne Hl. unfold Rmean. apply ratio_bounds.
  - destruct l; [done|]. simpl. lia.
  - by apply list_sum_bounds.
Qed.

Lemma insert_asc_perm (x : nat) (l : list nat) : insert_asc x l ≡ₚ x :: l.
Proof.
  induction l as [|y l IH]; simpl; [done|].
  destruct (x <=? y)%nat; [done|]. rewrite IH. apply Permutation_swap.
Qed.

Lemma sorted_asc_perm (l : list nat) : fold_right insert_asc [] l ≡ₚ l.
Proof.
  induction l as [|x l IH]; simpl; [done|].
  by rewrite insert_asc_perm, IH.
Qed.

Lemma Rmedian_bounds (l : list nat) (lo hi : nat) :
  l <> [] -> (forall y, y ∈ l -> lo <= y <= hi) ->
  (INR lo <= Rmedian l <= INR hi)%R.
Proof.
  intros Hne Hl. unfold Rmedian.
  pose proof (sorted_asc_perm l) as Hperm.
  set (s := fold_right insert_asc [] l) in *.
  assert (0 < length s) as Hlen.
  { rewrite Hperm. destruct l; [done|]. simpl. lia. }
  assert (forall k, k < length s -> lo <= nth k s 0 <= hi) as Hnth.
  { intros k Hk. apply Hl. rewrite <- Hperm.
    apply list_elem_of_In, nth_In. done. }
  assert (length s / 2 < length s) as Hhalf
    by (apply Nat.div_lt; lia).
  destruct (Nat.even (length s)).
  - assert (length s / 2 - 1 < length s) as Hhalf' by lia.
    destruct (Hnth (length s / 2 - 1) Hhalf') as [H1 H2].
    destruct (Hnth (length s / 2) Hhalf) as [H3 H4].
    apply le_INR in H1, H2, H3, H4. split; Lra.lra.
  - destruct (Hnth (length s / 2) Hhalf) as [H3 H4].
    apply le_INR in H3, H4. done.
Qed.

Lemma Rmean_total (l : list nat) :
  l <> [] -> (Rmean l * INR (length l) = INR (list_sum l))%R.
Proof.
  intros Hne. unfold Rmean.
  assert (0 < INR (length l))%R
    by (apply lt_0_INR; destruct l; [done|simpl; lia]).
  unfold Rdiv. rewrite Rmult_assoc, Rinv_l, Rmult_1_r; [done|Lra.lra].
Qed.


Variable g : MGraph.



End Distribution.


(** ** calculate_cooccurrence *)

Section Cooccurrence.

Import AnalysisOps AuxOps.

(** *** Incrementing an entry *)

Lemma square_incr (n : nat) (m : list (list nat)) (i j : nat) :
  square n m -> square n (incr m i j).
Proof.
  intros [Hlen Hrows]. unfold incr. split; [by rewrite length_alter|].
  apply Forall_alter; [done|]. intros row _ Hrow. by rewrite length_alter.
Qed.

Lemma cell_incr (n : nat) (m : list (list nat)) (i j a b : nat) :
  square n m -> i < n -> j < n ->
  cell (incr m i j) a b
  = cell m a b + (if (a =? i)%nat && (b =? j)%nat then 1 else 0).
Proof.
  intros [Hlen Hrows] Hi Hj. unfold cell, incr.
  destruct (Nat.eqb_spec a i) as [->|Hai].
  - rewrite list_lookup_alter_eq.
    destruct (lookup_lt_is_Some_2 m i ltac:(lia)) as [row Hrow].
    rewrite Hrow. simpl.
    assert (length row = n) as Hrl.
    { rewrite Forall_forall in Hrows. apply Hrows.
      by eapply list_elem_of_lookup_2. }
    destruct (Nat.eqb_spec b j) as [->|Hbj].
    + rewrite list_lookup_alter_eq.
      destruct (lookup_lt_is_Some_2 row j ltac:(lia)) as [v ->]. simpl. lia.
    + rewrite list_lookup_alter_ne by done. lia.
  - rewrite list_lookup_alter_ne by done. simpl. lia.
Qed.

Lemma cell_outside (n : nat) (m : list (list nat)) (a b : nat) :
  square n m -> n <= a \/ n <= b -> cell m a b = 0.
Proof.
  intros [Hlen Hrows] Hab. unfold cell.
  destruct (m !! a) as [row|] eqn:Hrow; [|done].
  assert (length row = n) as Hrl.
  { rewrite Forall_forall in Hrows. apply Hrows.
    by eapply list_elem_of_lookup_2. }
  apply lookup_lt_Some in Hrow.
  destruct Hab as [Ha|Hb]; [lia|].
  by rewrite lookup_ge_None_2 by lia.
Qed.

(** *** The two loops over the topics of a page *)

Variable idx : gmap string nat.
Variable n : nat.
Hypothesis idx_range : forall y i, idx !! y = Some i -> i < n.

Lemma hits_cons (i : nat) (y : string) (l : list string) :
  hits idx i (y :: l)
  = (if bool_decide (idx !! y = Some i) then 1 else 0) + hits idx i l.
Proof. unfold hits. simpl. by case_bool_decide. Qed.

Lemma inner_spec (i1 : nat) (Hi1 : i1 < n) (M : list string) :
  forall m,
    square n m ->
    square n (cooccurrence_inner idx i1 M m)
    /\ forall a b,
        cell (cooccurrence_inner idx i1 M m) a b
        = cell m a b
          + (if (a =? i1)%nat then hits idx b M else 0)
          + (if (b =? i1)%nat && negb (a =? b)%nat then hits idx a M else 0).
Proof.
  induction M as [|y M IH]; intros m Hsq.
  - split; [done|]. intros a b. unfold hits. simpl.
    destruct (a =? i1)%nat, ((b =? i1)%nat && negb (a =? b)%nat); lia.
  - cbn [cooccurrence_inner].
    destruct (idx !! y) as [i2|] eqn:Hy.
    + pose proof (idx_range _ _ Hy) as Hi2.
      pose proof (square_incr n m i1 i2 Hsq) as Hsq1.
      assert (square n (if (i1 =? i2)%nat then incr m i1 i2
                        else incr (incr m i1 i2) i2 i1)) as Hsq2
        by (destruct (i1 =? i2)%nat; [done|by apply square_incr]).
      destruct (IH _ Hsq2) as [Hsq' Hcell]. split; [done|].
      intros a b. rewrite Hcell, !hits_cons, Hy.
      assert (cell (if (i1 =? i2)%nat then incr m i1 i2
                    else incr (incr m i1 i2) i2 i1) a b
              = cell m a b
                + (if (a =? i1)%nat && (b =? i2)%nat then 1 else 0)
                + (if negb (i1 =? i2)%nat && (a =? i2)%nat && (b =? i1)%nat
                   then 1 else 0)) as ->.
      { destruct (Nat.eqb_spec i1 i2) as [->|Hne]; simpl.
        - rewrite (cell_incr n) by done. lia.
        - rewrite (cell_incr n), (cell_incr n) by done. lia. }
      destruct (Nat.eqb_spec a i1), (Nat.eqb_spec b i1), (Nat.eqb_spec a b),
               (Nat.eqb_spec a i2), (Nat.eqb_spec b i2),
               (Nat.eqb_spec i1 i2);
        subst; simpl; repeat case_bool_decide; simplify_eq; try lia.
    + destruct (IH _ Hsq) as [Hsq' Hcell]. split; [done|].
      intros a b. rewrite Hcell, !hits_cons, Hy.
      rewrite !bool_decide_eq_false_2 by done. done.
Qed.

Lemma triangular (c : nat) : (c + 1) * (c + 1 + 1) / 2 = c * (c + 1) / 2 + (c + 1).
Proof.
  replace ((c + 1) * (c + 1 + 1)) with (c * (c + 1) + (c + 1) * 2) by lia.
  by rewrite Nat.div_add.
Qed.

Lemma page_spec (L : list string) :
  forall m,
    square n m ->
    square n (cooccurrence_page idx L m)
    /\ forall a b,
        cell (cooccurrence_page idx L m) a b
        = cell m a b
          + pair_total (hits idx a L) (hits idx b L) (a =? b)%nat.
Proof.
  induction L as [|x L IH]; intros m Hsq.
  - split; [done|]. intros a b. unfold hits, pair_total. simpl.
    destruct (a =? b)%nat; simpl; lia.
  - cbn [cooccurrence_page].
    destruct (idx !! x) as [i1|] eqn:Hx.
    + pose proof (idx_range _ _ Hx) as Hi1.
      destruct (inner_spec i1 Hi1 (x :: L) m Hsq) as [Hsq1 Hcell1].
      destruct (IH _ Hsq1) as [Hsq' Hcell]. split; [done|].
      intros a b. rewrite Hcell, Hcell1, !hits_cons, Hx.
      unfold pair_total.
      destruct (Nat.eqb_spec a i1), (Nat.eqb_spec b i1), (Nat.eqb_spec a b);
        subst; cbn [negb andb]; repeat case_bool_decide; simplify_eq;
        rewrite ?Nat.add_0_l, ?(Nat.add_comm 1 (hits idx _ L)), ?triangular;
        lia.
    + destruct (IH _ Hsq) as [Hsq' Hcell]. split; [done|].
      intros a b. rewrite Hcell, !hits_cons, Hx.
      by rewrite !bool_decide_eq_false_2 by done.
Qed.

Lemma pages_spec (pages : list (list string)) :
  forall m,
    square n m ->
    square n (fold_left (fun m L => cooccurrence_page idx L m) pages m)
    /\ forall a b,
        cell (fold_left (fun m L => cooccurrence_page idx L m) pages m) a b
        = cell m a b
          + list_sum (map (fun L => pair_total (hits idx a L) (hits idx b L)
                                               (a =? b)%nat) pages).
Proof.
  induction pages as [|L pages IH]; intros m Hsq.
  - split; [done|]. intros a b. simpl. lia.
  - cbn [fold_left]. destruct (page_spec L m Hsq) as [Hsq1 Hcell1].
    destruct (IH _ Hsq1) as [Hsq' Hcell]. split; [done|].
    intros a b. rewrite Hcell, Hcell1. simpl. lia.
Qed.

End Cooccurrence.

(** *** The index of the topics *)

Section TopicIndex.

Import AnalysisOps AuxOps.

Lemma idx_fold_sound (ps : list (nat * MNode)) :
  forall (m : gmap string nat) k i,
    fold_left (fun m (p : nat * MNode) => <[node_id p.2 := p.1]> m) ps m !! k
      = Some i ->
    m !! k = Some i \/ exists nd, (i, nd) ∈ ps /\ node_id nd = k.
Proof.
  induction ps as [|[j nd] ps IH]; intros m k i; simpl; [by left|].
  intros [H|(nd' & Hin & Hk)]%IH.
  - destruct (decide (k = node_id nd)) as [->|Hne].
    + rewrite lookup_insert_eq in H. injection H as <-.
      right. exists nd. split; [by left|done].
    + rewrite lookup_insert_ne in H by done. by left.
  - right. exists nd'. split; [by right|done].
Qed.

Lemma idx_fold_complete (ps : list (nat * MNode)) :
  NoDup (map (fun p : nat * MNode => node_id p.2) ps) ->
  forall (m : gmap string nat) p, p ∈ ps ->
    fold_left (fun m (p : nat * MNode) => <[node_id p.2 := p.1]> m) ps m
      !! node_id p.2 = Some p.1.
Proof.
  induction ps as [|x ps IH]; intros Hnd m p Hp.
  - by apply elem_of_nil in Hp.
  - apply NoDup_cons in Hnd as [Hx Hnd]. simpl.
    apply elem_of_cons in Hp as [->|Hp]; [|by apply IH].
    clear IH Hnd. revert m. induction ps as [|y ps IH]; intros m; simpl.
    + by rewrite lookup_insert_eq.
    + simpl in Hx. apply not_elem_of_cons in Hx as [Hxy Hx].
      rewrite insert_insert_ne by done. by apply IH.
Qed.

Lemma imap_nodes_snd (l : list MNode) (k : nat) :
  map snd (imap (fun i (nd : MNode) => (k + i, nd)) l) = l.
Proof.
  revert k. induction l as [|t l IH]; intros k; [done|].
  rewrite imap_cons. simpl. f_equal.
  rewrite <- (IH (S k)) at 2. f_equal.
  apply imap_ext. intros i x _. simpl. f_equal. lia.
Qed.

Lemma topic_to_idx_lookup (l : list MNode) (k : string) (i : nat) :
  NoDup (map node_id l) ->
  make_topic_to_idx l !! k = Some i <-> node_id <$> l !! i = Some k.
Proof.
  intros Hnd. unfold make_topic_to_idx. split.
  - intros [H|(nd & Hin & <-)]%idx_fold_sound; [by rewrite lookup_empty in H|].
    apply elem_of_lookup_imap in Hin as (j & y & [= -> ->] & Hy).
    by rewrite Hy.
  - intros Hi. destruct (l !! i) as [nd|] eqn:Hnode; [|done].
    injection Hi as <-.
    apply (idx_fold_complete _) with (p := (i, nd)).
    + rewrite <- (imap_nodes_snd l 0) in Hnd at 1. by rewrite map_map in Hnd.
    + apply elem_of_lookup_imap. by exists i, nd.
Qed.

Variable g : MGraph.

Lemma hits_mentions (page : MNode) (i : nat) (nd : MNode) :
  query g "Topic" !! i = Some nd ->
  hits (make_topic_to_idx (query g "Topic")) i (page_topics_of g page)
  = mentions g (node_id page) (node_id nd).
Proof.
  intros Hi. unfold mentions, page_topics_of, get_edges.
  rewrite <- occurrences_targets. unfold hits, occurrences.
  apply filter_length_ext. intros y _.
  apply bool_decide_ext.
  rewrite topic_to_idx_lookup by apply query_NoDup. split.
  - intros Hy. rewrite Hi in Hy. by injection Hy.
  - intros ->. by rewrite Hi.
Qed.

Lemma cooccurrence_spec :
  let n := length (query g "Topic") in
  let m := calculate_cooccurrence g in
  square n m
  /\ forall i j ni nj,
      query g "Topic" !! i = Some ni -> query g "Topic" !! j = Some nj ->
      cell m i j
      = list_sum (map (fun page =>
                         pair_total (mentions g (node_id page) (node_id ni))
                                    (mentions g (node_id page) (node_id nj))
                                    (i =? j)%nat)
                      (query g "Page")).
Proof.
  intros n m. unfold m, calculate_cooccurrence. fold n.
  destruct (Nat.eqb_spec n 0) as [Hn|Hn].
  { rewrite Hn. split; [split; [done|by apply Forall_nil]|].
    intros i j ni nj Hi%lookup_lt_Some. fold n in Hi. lia. }
  set (idx := make_topic_to_idx (query g "Topic")).
  assert (forall y i, idx !! y = Some i -> i < n) as Hrange.
  { intros y i Hy. apply topic_to_idx_lookup in Hy; [|apply query_NoDup].
    destruct (query g "Topic" !! i) eqn:Hi; [|done].
    by apply lookup_lt_Some in Hi. }
  assert (square n (replicate n (replicate n 0))) as Hsq0.
  { split; [by rewrite length_replicate|].
    apply Forall_replicate. by rewrite length_replicate. }
  assert (forall (pages : list MNode) (m0 : list (list nat)),
            fold_left (fun m page =>
                         cooccurrence_page idx (page_topics_of g page) m)
                      pages m0
            = fold_left (fun m L => cooccurrence_page idx L m)
                        (map (page_topics_of g) pages) m0) as Hfold.
  { induction pages as [|p pages IH]; intros m0; [done|]. simpl. apply IH. }
  rewrite Hfold.
  destruct (pages_spec idx n Hrange (map (page_topics_of g) (query g "Page"))
              _ Hsq0) as [Hsq Hcell].
  split; [done|]. intros i j ni nj Hi Hj. rewrite Hcell.
  assert (cell (replicate n (replicate n 0)) i j = 0) as ->.
  { unfold cell. destruct (replicate n (replicate n 0) !! i) as [row|] eqn:Hrow;
      [|done].
    apply lookup_replicate in Hrow as [-> _].
    destruct (replicate n 0 !! j) as [v|] eqn:Hv; [|done].
    by apply lookup_replicate in Hv as [-> _]. }
  rewrite map_map. simpl. f_equal. apply map_ext. intros page. unfold idx.
  by rewrite (hits_mentions page i ni Hi), (hits_mentions page j nj Hj).
Qed.

End TopicIndex.

(** X14: the matrix of [calculate_cooccurrence] has one row and one column
    per Topic node and is symmetric. *)
Theorem X14_cooccurrence_symmetric (g : MGraph) :
  let n := length (query g "Topic") in
  let m := AnalysisOps.calculate_cooccurrence g in
  length m = n
  /\ (forall row, row ∈ m -> length row = n)
  /\ forall i j, AuxOps.cell m i j = AuxOps.cell m j i.
Proof.
  intros n m. destruct (cooccurrence_spec g) as [Hsq Hcell].
  fold n m in Hsq, Hcell.
  split; [apply Hsq|]. split; [by apply Forall_forall, Hsq|].
  intros i j.
  destruct (query g "Topic" !! i) as [ni|] eqn:Hi.
  2:{ apply lookup_ge_None in Hi. fold n in Hi.
      rewrite !(cell_outside n) by (done || lia). done. }
  destruct (query g "Topic" !! j) as [nj|] eqn:Hj.
  2:{ apply lookup_ge_None in Hj. fold n in Hj.
      rewrite !(cell_outside n) by (done || lia). done. }
  rewrite (Hcell i j ni nj Hi Hj), (Hcell j i nj ni Hj Hi).
  f_equal. apply map_ext. intros page. unfold AuxOps.pair_total.
  destruct (Nat.eqb_spec i j) as [->|Hne].
  - rewrite Nat.eqb_refl. congruence.
  - rewrite (proj2 (Nat.eqb_neq j i)) by done. lia.
Qed.

Lemma list_sum_indicator {A} (f : A -> nat) (p : A -> bool) (l : list A) :
  (forall x, x ∈ l -> f x = if p x then 1 else 0) ->
  list_sum (map f l) = length (List.filter p l).
Proof.
  induction l as [|x l IH]; intros Hf; [done|].
  specialize (IH (fun y Hy => Hf y ltac:(by right))).
  pose proof (Hf x ltac:(by left)) as Hx.
  simpl. rewrite Hx. destruct (p x); simpl; lia.
Qed.

(** X15: the entry of the co-occurrence matrix for two different topics is
    the sum, over the Page nodes, of the product of the numbers of HAS_TOPIC
    edges the page has to the one and to the other topic; the diagonal entry
    of a topic is the sum of c * (c + 1) / 2 over the pages, c being the
    number of edges from the page to the topic.  So when no page has more
    than one HAS_TOPIC edge to either topic, the entry is the number of
    pages that have an edge to both. *)
Theorem X15_cooccurrence_entries (g : MGraph) (i j : nat) (ni nj : MNode) :
  query g "Topic" !! i = Some ni -> query g "Topic" !! j = Some nj ->
  let m := AnalysisOps.calculate_cooccurrence g in
  let ci page := AuxOps.mentions g (node_id page) (node_id ni) in
  let cj page := AuxOps.mentions g (node_id page) (node_id nj) in
  AuxOps.cell m i j
  = list_sum (map (fun page => if (i =? j)%nat
                               then ci page * (ci page + 1) / 2
                               else ci page * cj page)
                  (query g "Page"))
  /\ ((forall page, page ∈ query g "Page" -> ci page <= 1 /\ cj page <= 1) ->
      AuxOps.cell m i j
      = length (List.filter (fun page => (0 <? ci page)%nat && (0 <? cj page)%nat)
                            (query g "Page"))).
Proof.
  intros Hi Hj m ci cj.
  destruct (cooccurrence_spec g) as [_ Hcell].
  specialize (Hcell i j ni nj Hi Hj). fold m in Hcell.
  unfold AuxOps.pair_total in Hcell. fold ci cj in Hcell.
  assert (list_sum
            (map (fun page =>
                    if (i =? j)%nat
                    then AuxOps.mentions g (node_id page) (node_id ni)
                         * (AuxOps.mentions g (node_id page) (node_id ni) + 1) / 2
                    else AuxOps.mentions g (node_id page) (node_id ni)
                         * AuxOps.mentions g (node_id page) (node_id nj))
                 (query g "Page"))
          = list_sum (map (fun page => if (i =? j)%nat
                                       then ci page * (ci page + 1) / 2
                                       else ci page * cj page)
                          (query g "Page"))) as Heq by done.
  rewrite Heq in Hcell. split; [exact Hcell|].
  intros Hone. rewrite Hcell.
  assert (i = j -> forall page, ci page = cj page) as Hsame.
  { intros -> page. unfold ci, cj. congruence. }
  clear Hcell Heq. apply list_sum_indicator. intros page Hp.
  destruct (Hone page Hp) as [H1 H2].
  destruct (Nat.eqb_spec i j) as [Hij|Hij].
  - rewrite <- (Hsame Hij page).
    destruct (ci page) as [|[|c]]; [done|done|lia].
  - destruct (ci page) as [|[|c]], (cj page) as [|[|c']]; try lia; done.
Qed.

(** X15 on the graph of one page and four topics with ten mentions each:
    an entry off the diagonal is 10 * 10. *)
Lemma X15_cooccurrence_entries_witness :
  AuxOps.cell (AnalysisOps.calculate_cooccurrence Examples.diversity_graph) 0 1
  = 100.
Proof.
  destruct (X15_cooccurrence_entries Examples.diversity_graph 0 1
              (Examples.topic_node "C") (Examples.topic_node "A")
              ltac:(vm_compute; reflexivity) ltac:(vm_compute; reflexivity))
    as [H _].
  rewrite H. vm_compute. reflexivity.
Defined.

(** ** identify_root_topics *)




Section RootTopics.

Import Clusterer ClustererOps AuxOps.

Variable cosine_similarity : list (list Q) -> matrix.






End RootTopics.



(** ** convert_to_topic_objects *)

Section Convert.

Import AuxOps.

Variable g : MGraph.
Variable a : node_attrs.
Variable embeddings : gmap string (list Q).

Lemma convert_elem (t : Clusterer.Topic) :
  t ∈ Enricher.convert_to_topic_objects g a embeddings <->
  exists node embedding,
    node ∈ query g "Topic"
    /\ embeddings !! node_id node = Some embedding
    /\ t = Clusterer.mkTopic
             (node_id node) (default (node_id node) (node_name node))
             (Z.of_nat (length (get_edges g None (Some (node_id node))
                                          (Some "HAS_TOPIC"))))
             (Some embedding) (category_attr a !! node_id node) 0.
Proof.
  unfold Enricher.convert_to_topic_objects. rewrite list_elem_of_omap. split.
  - intros (node & Hn & Hf).
    destruct (embeddings !! node_id node) as [e|] eqn:He; [|done].
    injection Hf as <-. by exists node, e.
  - intros (node & e & Hn & He & ->). exists node. split; [done|].
    by rewrite He.
Qed.

Lemma convert_ids_from (l : list MNode) :
  map Clusterer.id
      (omap (fun node =>
               match embeddings !! node_id node with
               | None => None
               | Some embedding =>
                   Some (Clusterer.mkTopic
                           (node_id node)
                           (default (node_id node) (node_name node))
                           (Z.of_nat (length (get_edges g None
                                                (Some (node_id node))
                                                (Some "HAS_TOPIC"))))
                           (Some embedding)
                           (category_attr a !! node_id node) 0)
               end) l)
  = map node_id
        (List.filter (fun node => bool_decide (is_Some (embeddings !! node_id node)))
                     l).
Proof.
  induction l as [|node l IH]; [done|].
  change (omap ?f (node :: l))
    with (match f node with Some y => y :: omap f l | None => omap f l end).
  cbn [List.filter].
  destruct (embeddings !! node_id node) as [e|] eqn:He.
  - rewrite bool_decide_eq_true_2 by (by eexists). simpl. by rewrite IH.
  - rewrite bool_decide_eq_false_2 by (by intros [? ?]). done.
Qed.

Lemma convert_ids :
  map Clusterer.id (Enricher.convert_to_topic_objects g a embeddings)
  = map node_id
        (List.filter (fun node => bool_decide (is_Some (embeddings !! node_id node)))
                     (query g "Topic")).
Proof. apply convert_ids_from. Qed.

Lemma filter_sublist {A} (p : A -> bool) (l : list A) :
  List.filter p l `sublist_of` l.
Proof.
  induction l as [|x l IH]; simpl; [done|].
  destruct (p x); [by apply sublist_skip|by apply sublist_cons].
Qed.

Lemma convert_spec :
  let ts := Enricher.convert_to_topic_objects g a embeddings in
  NoDup (map Clusterer.id ts)
  /\ map Clusterer.id ts `sublist_of` topic_ids g
  /\ (forall k, k ∈ map Clusterer.id ts
                <-> k ∈ topic_ids g /\ is_Some (embeddings !! k))
  /\ (forall t, t ∈ ts ->
        Clusterer.embedding t = embeddings !! Clusterer.id t
        /\ is_Some (Clusterer.embedding t)
        /\ Clusterer.level t = 0%Z
        /\ Clusterer.frequency t
           = Z.of_nat (length (get_edges g None (Some (Clusterer.id t))
                                         (Some "HAS_TOPIC")))
        /\ Clusterer.category t = category_attr a !! Clusterer.id t)
  /\ is_Some (mapM Clusterer.embedding ts).
Proof.
  intros ts. unfold ts. rewrite convert_ids.
  assert (forall t, t ∈ Enricher.convert_to_topic_objects g a embeddings ->
            Clusterer.embedding t = embeddings !! Clusterer.id t
            /\ is_Some (Clusterer.embedding t)
            /\ Clusterer.level t = 0%Z
            /\ Clusterer.frequency t
               = Z.of_nat (length (get_edges g None (Some (Clusterer.id t))
                                             (Some "HAS_TOPIC")))
            /\ Clusterer.category t = category_attr a !! Clusterer.id t)
    as Hall.
  { intros t (node & e & Hn & He & ->)%convert_elem. simpl.
    split; [done|]. split; [by eexists|done]. }
  split; [apply filter_fmap_NoDup, query_NoDup|].
  split; [apply fmap_sublist, filter_sublist|].
  split; [|split; [exact Hall|]].
  - intros k. unfold topic_ids. rewrite !list_elem_of_fmap. split.
    + intros (node & -> & Hn). apply list_elem_of_In, filter_In in Hn as [Hn He].
      apply bool_decide_eq_true in He. split; [|done].
      exists node. split; [done|by apply list_elem_of_In].
    + intros [(node & -> & Hn) He]. exists node. split; [done|].
      apply list_elem_of_In, filter_In. split; [by apply list_elem_of_In|].
      by apply bool_decide_eq_true.
  - apply mapM_is_Some_2, Forall_forall. intros t Ht. by apply Hall.
Qed.

End Convert.

(** X17: [convert_to_topic_objects] returns one topic object for each Topic
    node that has an embedding, in the order of the nodes, and no other: the
    ids are pairwise distinct, every object carries its embedding, level 0,
    the category of its node and, as frequency, the number of incoming
    HAS_TOPIC edges of its node. *)
Theorem X17_convert_to_topic_objects (g : MGraph) (a : node_attrs)
    (embeddings : gmap string (list Q)) :
  let ts := Enricher.convert_to_topic_objects g a embeddings in
  NoDup (map Clusterer.id ts)
  /\ map Clusterer.id ts `sublist_of` AuxOps.topic_ids g
  /\ (forall k, k ∈ map Clusterer.id ts
                <-> k ∈ AuxOps.topic_ids g /\ is_Some (embeddings !! k))
  /\ (forall t, t ∈ ts ->
        Clusterer.embedding t = embeddings !! Clusterer.id t
        /\ is_Some (Clusterer.embedding t)
        /\ Clusterer.level t = 0%Z
        /\ Clusterer.frequency t
           = Z.of_nat (length (get_edges g None (Some (Clusterer.id t))
                                         (Some "HAS_TOPIC")))
        /\ Clusterer.category t = category_attr a !! Clusterer.id t).
Proof.
  intros ts. destruct (convert_spec g a embeddings) as (H1 & H2 & H3 & H4 & _).
  done.
Qed.

(** ** build_hierarchy on the converted topics *)

Lemma hierarchy_entry_ids (H : gmap string (list string)) (k : string)
    (children : list string) :
  H !! k = Some children ->
  k ∈ Aux.keys_and_children H
  /\ forall c, c ∈ children -> c ∈ Aux.keys_and_children H.
Proof.
  intros Hk. apply elem_of_map_to_list in Hk.
  unfold Aux.keys_and_children, Aux.entries_ids. split.
  - apply elem_of_app. left. apply list_elem_of_fmap. by exists (k, children).
  - intros c Hc. apply elem_of_app. right.
    apply list_elem_of_In, in_concat. exists children.
    split; [|by apply list_elem_of_In].
    apply list_elem_of_In, list_elem_of_fmap. by exists (k, children).
Qed.

Lemma hierarchy_of_converted
    (cosine_similarity : list (list Q) -> matrix) (cfg : Clusterer.config)
    (g : MGraph) (a : node_attrs) (embeddings : gmap string (list Q)) :
  let ts := Enricher.convert_to_topic_objects g a embeddings in
  exists H ts',
    Clusterer.build_hierarchy cosine_similarity cfg ts = Some (H, ts')
    /\ (length ts < 2 -> H = ∅)
    /\ (2 <= length ts ->
        Aux.keys_and_children H ≡ₚ map Clusterer.id ts)
    /\ (forall k children, H !! k = Some children ->
          k ∈ AuxOps.topic_ids g
          /\ forall c, c ∈ children -> c ∈ AuxOps.topic_ids g).
Proof.
  intros ts.
  destruct (convert_spec g a embeddings) as (Hnd & Hsub & Hids & _ & [embs Hembs]).
  fold ts in Hnd, Hsub, Hids, Hembs.
  destruct (Nat.lt_ge_cases (length ts) 2) as [Hlt|Hge].
  - exists ∅, ts. unfold Clusterer.build_hierarchy.
    rewrite (proj2 (Nat.ltb_lt _ _)) by done.
    split; [done|]. split; [done|]. split; [lia|].
    intros k children Hk. by rewrite lookup_empty in Hk.
  - destruct (hierarchy_partition cosine_similarity cfg ts embs Hembs Hnd Hge)
      as (H & ts' & Hrun & _ & _ & _ & _ & Hperm).
    exists H, ts'. split; [done|]. split; [lia|]. split; [done|].
    intros k children Hk.
    destruct (hierarchy_entry_ids H k children Hk) as [Hkin Hcin].
    split.
    + rewrite Hperm in Hkin. by apply Hids in Hkin as [? _].
    + intros c Hc. apply Hcin in Hc. rewrite Hperm in Hc.
      by apply Hids in Hc as [? _].
Qed.

(** X18: on the topics [convert_to_topic_objects] returns,
    [build_hierarchy] never raises; with fewer than two of them the
    hierarchy is empty; with two or more every topic occurs exactly once in
    it, as a key or as a child, and every key and every child is the id of a
    Topic node of the graph. *)
Theorem X18_build_hierarchy_of_converted
    (cosine_similarity : list (list Q) -> matrix) (cfg : Clusterer.config)
    (g : MGraph) (a : node_attrs) (embeddings : gmap string (list Q)) :
  let ts := Enricher.convert_to_topic_objects g a embeddings in
  exists H ts',
    Clusterer.build_hierarchy cosine_similarity cfg ts = Some (H, ts')
    /\ (length ts < 2 -> H = ∅)
    /\ (2 <= length ts ->
        Aux.keys_and_children H ≡ₚ map Clusterer.id ts)
    /\ (forall k children, H !! k = Some children ->
          k ∈ AuxOps.topic_ids g
          /\ forall c, c ∈ children -> c ∈ AuxOps.topic_ids g).
Proof. apply hierarchy_of_converted. Qed.

(** ** compute_similarity_matrix *)

Section Similarities.

Import Clusterer.

Variable M : matrix.

Abbreviation idf := Aux.idf.

Lemma row_spec (i : nat) (t1 : Topic) (after : list ref) :
  NoDup (id t1 :: map idf after) ->
  forall d,
    let d' := Enricher.similarity_row M i t1 after d in
    (forall r, r ∈ after ->
       d' !! (id t1, idf r) = Some (mat_get M i r.1)
       /\ d' !! (idf r, id t1) = Some (mat_get M i r.1))
    /\ (forall x y,
          ~ (x = id t1 /\ y ∈ map idf after) ->
          ~ (y = id t1 /\ x ∈ map idf after) ->
          d' !! (x, y) = d !! (x, y)).
Proof.
  unfold Enricher.similarity_row.
  induction after as [|r after IH]; intros Hnd d.
  - split; [intros r Hr; by apply elem_of_nil in Hr|done].
  - apply NoDup_cons in Hnd as [Ht1 Hnd]. simpl in Ht1, Hnd.
    apply not_elem_of_cons in Ht1 as [Ht1r Ht1].
    apply NoDup_cons in Hnd as [Hr Hnd].
    cbn [fold_left].
    destruct (IH ltac:(by apply NoDup_cons)
                 (<[(id r.2, id t1) := mat_get M i r.1]>
                    (<[(id t1, id r.2) := mat_get M i r.1]> d)))
      as [Hset Hkeep].
    split.
    + intros r' [->|Hr']%elem_of_cons; [|by apply Hset].
      unfold Aux.idf in *. split.
      * rewrite Hkeep; [|by intros [_ ?]|by intros [? _]].
        rewrite lookup_insert_ne by (intros [= ? ?]; congruence).
        by rewrite lookup_insert_eq.
      * rewrite Hkeep; [|by intros [? _]|by intros [_ ?]].
        by rewrite lookup_insert_eq.
    + intros x y H1 H2. rewrite Hkeep.
      * rewrite lookup_insert_ne;
          [rewrite lookup_insert_ne; [done|]|].
        -- intros [= <- <-]. apply H1. split; [done|]. by left.
        -- intros [= <- <-]. apply H2. split; [done|]. by left.
      * intros [-> Hy]. apply H1. split; [done|]. by right.
      * intros [-> Hx]. apply H2. split; [done|]. by right.
Qed.

Lemma rows_spec (todo : list ref) :
  NoDup (map idf todo) ->
  forall d,
    let d' := Enricher.similarity_rows M todo d in
    (forall p q r1 r2,
        p < q -> todo !! p = Some r1 -> todo !! q = Some r2 ->
        d' !! (idf r1, idf r2) = Some (mat_get M r1.1 r2.1)
        /\ d' !! (idf r2, idf r1) = Some (mat_get M r1.1 r2.1))
    /\ (forall x y,
          x ∉ map idf todo \/ y ∉ map idf todo \/ x = y ->
          d' !! (x, y) = d !! (x, y)).
Proof.
  induction todo as [|r after IH]; intros Hnd d.
  - split; [intros p q r1 r2 _ Hp; by rewrite lookup_nil in Hp|done].
  - cbn [Enricher.similarity_rows].
    pose proof Hnd as Hnd'. apply NoDup_cons in Hnd' as [Hr Hafter].
    destruct (row_spec r.1 r.2 after Hnd d) as [Hset Hkeep].
    destruct (IH Hafter (Enricher.similarity_row M r.1 r.2 after d))
      as [Hpairs Hrest].
    split.
    + intros p q r1 r2 Hpq Hp Hq. destruct q as [|q]; [lia|]. simpl in Hq.
      destruct p as [|p].
      * injection Hp as <-.
        assert (r2 ∈ after) as Hin by (by eapply list_elem_of_lookup_2).
        destruct (Hset r2 Hin) as [H1 H2]. split.
        -- rewrite Hrest by (left; exact Hr). exact H1.
        -- rewrite Hrest by (right; left; exact Hr). exact H2.
      * simpl in Hp. apply (Hpairs p q); [lia|done|done].
    + intros x y Hxy. rewrite Hrest.
      * apply Hkeep.
        -- intros [-> Hy]. destruct Hxy as [Hx|[Hy'|Hxy]].
           ++ apply Hx. by left.
           ++ apply Hy'. by right.
           ++ subst y. done.
        -- intros [-> Hx]. destruct Hxy as [Hx'|[Hy|Hxy]].
           ++ apply Hx'. by right.
           ++ apply Hy. by left.
           ++ subst x. done.
      * destruct Hxy as [Hx|[Hy|Hxy]].
        -- left. intros ?. apply Hx. by right.
        -- right. left. intros ?. apply Hy. by right.
        -- by right; right.
Qed.

End Similarities.

Lemma similarities_spec (cosine_similarity : list (list Q) -> matrix)
    (topics : list Clusterer.Topic) (embeddings : list (list Q)) :
  topics <> [] ->
  NoDup (map Clusterer.id topics) ->
  mapM Clusterer.embedding topics = Some embeddings ->
  exists d,
    Enricher.compute_similarity_matrix cosine_similarity topics = Some d
    /\ (forall i j ti tj,
          i < j -> topics !! i = Some ti -> topics !! j = Some tj ->
          d !! (Clusterer.id ti, Clusterer.id tj)
            = Some (mat_get (cosine_similarity embeddings) i j)
          /\ d !! (Clusterer.id tj, Clusterer.id ti)
            = Some (mat_get (cosine_similarity embeddings) i j))
    /\ (forall x y, is_Some (d !! (x, y)) ->
          x <> y /\ x ∈ map Clusterer.id topics /\ y ∈ map Clusterer.id topics).
Proof.
  intros Hne Hnd Hemb. unfold Enricher.compute_similarity_matrix.
  destruct topics as [|t0 rest] eqn:Ht; [done|]. rewrite <- Ht in *.
  rewrite Hemb. eexists. split; [done|].
  assert (NoDup (map Aux.idf (Clusterer.enumerate topics))) as Hnd'
    by (by rewrite enumerate_idf).
  destruct (rows_spec (cosine_similarity embeddings)
              (Clusterer.enumerate topics) Hnd' ∅) as [Hpairs Hrest].
  split.
  - intros i j ti tj Hij Hi Hj.
    apply (Hpairs i j (i, ti) (j, tj) Hij).
    + unfold Clusterer.enumerate. rewrite list_lookup_imap, Hi. done.
    + unfold Clusterer.enumerate. rewrite list_lookup_imap, Hj. done.
  - intros x y Hxy. rewrite enumerate_idf in Hrest.
    destruct (decide (x = y)) as [->|Hne'].
    { rewrite Hrest in Hxy by (by right; right).
      rewrite lookup_empty in Hxy. by destruct Hxy. }
    split; [done|].
    destruct (decide (x ∈ map Clusterer.id topics)) as [Hx|Hx].
    2:{ rewrite Hrest in Hxy by (by left).
        rewrite lookup_empty in Hxy. by destruct Hxy. }
    destruct (decide (y ∈ map Clusterer.id topics)) as [Hy|Hy]; [done|].
    rewrite Hrest in Hxy by (by right; left).
    rewrite lookup_empty in Hxy. by destruct Hxy.
Qed.

(** X19: for topics with pairwise distinct ids and embeddings (at least
    one topic), [compute_similarity_matrix] returns a dictionary whose keys
    are exactly the ordered pairs of two different topic ids; the pair of
    the topics at positions i < j and the reversed pair both hold entry
    (i, j) of the cosine-similarity matrix, so the dictionary is symmetric
    and looking a pair up in either direction, as
    [build_hierarchy_from_clusters] and [build_related_topics] do, finds
    that entry. *)
Theorem X19_compute_similarity_matrix
    (cosine_similarity : list (list Q) -> matrix)
    (topics : list Clusterer.Topic) (embeddings : list (list Q)) :
  topics <> [] ->
  NoDup (map Clusterer.id topics) ->
  mapM Clusterer.embedding topics = Some embeddings ->
  exists d,
    Enricher.compute_similarity_matrix cosine_similarity topics = Some d
    /\ (forall i j ti tj,
          i < j -> topics !! i = Some ti -> topics !! j = Some tj ->
          d !! (Clusterer.id ti, Clusterer.id tj)
            = Some (mat_get (cosine_similarity embeddings) i j)
          /\ d !! (Clusterer.id tj, Clusterer.id ti)
            = Some (mat_get (cosine_similarity embeddings) i j)
          /\ lookup_similarity d (Clusterer.id ti) (Clusterer.id tj)
            = Some (mat_get (cosine_similarity embeddings) i j)
          /\ lookup_similarity d (Clusterer.id tj) (Clusterer.id ti)
            = Some (mat_get (cosine_similarity embeddings) i j))
    /\ (forall x y, is_Some (d !! (x, y)) <->
          x <> y /\ x ∈ map Clusterer.id topics /\ y ∈ map Clusterer.id topics)
    /\ (forall x y, d !! (x, y) = d !! (y, x)).
Proof.
  intros Hne Hnd Hemb.
  destruct (similarities_spec cosine_similarity topics embeddings Hne Hnd Hemb)
    as (d & Hrun & Hpairs & Hkeys).
  exists d. split; [done|].
  assert (forall x y,
            x <> y -> x ∈ map Clusterer.id topics ->
            y ∈ map Clusterer.id topics ->
            exists s, d !! (x, y) = Some s /\ d !! (y, x) = Some s) as Hboth.
  { intros x y Hxy (tx & -> & Hx)%list_elem_of_fmap (ty & -> & Hy)%list_elem_of_fmap.
    apply list_elem_of_lookup in Hx as [i Hi].
    apply list_elem_of_lookup in Hy as [j Hj].
    destruct (Nat.lt_total i j) as [Hlt|[Heq|Hgt]].
    - destruct (Hpairs i j tx ty Hlt Hi Hj) as [H1 H2]. eauto.
    - subst j. rewrite Hi in Hj. injection Hj as ->. done.
    - destruct (Hpairs j i ty tx Hgt Hj Hi) as [H1 H2]. eauto. }
  split; [|split].
  - intros i j ti tj Hij Hi Hj.
    destruct (Hpairs i j ti tj Hij Hi Hj) as [H1 H2].
    split; [done|]. split; [done|].
    unfold lookup_similarity. by rewrite H1, H2.
  - intros x y. split; [apply Hkeys|].
    intros (Hxy & Hx & Hy). destruct (Hboth x y Hxy Hx Hy) as (s & -> & _).
    by eexists.
  - intros x y.
    destruct (d !! (x, y)) as [s|] eqn:Hxy.
    + destruct (Hkeys x y ltac:(by eexists)) as (Hne' & Hx & Hy).
      destruct (Hboth x y Hne' Hx Hy) as (s' & H1 & H2). congruence.
    + destruct (d !! (y, x)) as [s|] eqn:Hyx; [|done].
      destruct (Hkeys y x ltac:(by eexists)) as (Hne' & Hy & Hx).
      destruct (Hboth y x Hne' Hy Hx) as (s' & H1 & H2). congruence.
Qed.

(** X19 on the three example topics. *)
Lemma X19_compute_similarity_matrix_witness :
  exists d,
    Enricher.compute_similarity_matrix Examples.cosine_123
      [Examples.T1; Examples.T2; Examples.T3] = Some d
    /\ lookup_similarity d "T2" "T1" = Some 0.9998%Q.
Proof.
  destruct (X19_compute_similarity_matrix Examples.cosine_123
              [Examples.T1; Examples.T2; Examples.T3]
              [[1; 0]; [0.98; 0.02]; [0; 1]]%Q
              ltac:(discriminate)
              ltac:(apply (bool_decide_unpack _); vm_compute; exact I)
              eq_refl)
    as (d & Hrun & Hpairs & _).
  exists d. split; [exact Hrun|].
  exact (proj2 (proj2 (proj2 (Hpairs 0 1 Examples.T1 Examples.T2
                                ltac:(lia) eq_refl eq_refl)))).
Defined.

(** ** enrich_graph *)

Section Enrich.

Import AuxOps.

Variable cfg : config.
Variable g : MGraph.
Variable a : node_attrs.
Variable sims : gmap (string * string) Q.

Lemma centralities_size (h : MGraph) (a0 a' : node_attrs)
    (m' : gmap string Q) :
  HierarchyOps.calculate_all_centralities h a0 = (h, a', m') ->
  (forall k, m' !! k = if bool_decide (k ∈ topic_ids h)
                       then Some (calculate_centrality h k) else None) ->
  size m' = length (query h "Topic").
Proof.
  intros _ Hm. rewrite <- size_dom.
  assert (dom m' = list_to_set (topic_ids h)) as ->.
  { apply set_eq. intros k. rewrite elem_of_dom, elem_of_list_to_set, Hm.
    case_bool_decide as Hk.
    - split; [done|]. intros _. by eexists.
    - split; [|done]. by intros [? ?]. }
  rewrite size_list_to_set by apply query_NoDup.
  unfold topic_ids. by rewrite length_map.
Qed.

Lemma enrich_raises (items : list (string * list string))
    (topics : list Clusterer.Topic) (before after : list (string * string))
    (c p : string) :
  child_pairs items = before ++ (c, p) :: after ->
  Forall (fun q => both_present g q = false) before ->
  both_present g (c, p) = true ->
  Enricher.enrich_graph cfg g a items sims topics
  = (mkGraph (nodes g)
       (edges g ++ [mkEdge c p "SUBTOPIC_OF"
                      (subtopic_data (lookup_similarity sims c p))]),
     a, inl (subtopic_exn (lookup_similarity sims c p))).
Proof.
  intros Hpairs Hbefore Hp. unfold Enricher.enrich_graph.
  unfold HierarchyOps.build_hierarchy_from_clusters.
  rewrite hierarchy_items_pairs, Hpairs.
  by rewrite pairs_loop_first.
Qed.

Lemma enrich_returns (items : list (string * list string))
    (topics : list Clusterer.Topic) :
  Forall (fun q => both_present g q = false) (child_pairs items) ->
  (forall t, t ∈ topics -> is_Some (get_node g (Clusterer.id t))) ->
  exists g' a' related_count,
    build_related_topics cfg g (map Clusterer.id topics) sims
      = (g', inr related_count)
    /\ Enricher.enrich_graph cfg g a items sims topics
       = (g', a',
          inr (length (child_pairs items), related_count,
               length (query g "Topic")))
    /\ nodes g' = nodes g
    /\ (forall k, k ∈ topic_ids g ->
          centrality_attr a' !! k = Some (calculate_centrality g' k))
    /\ (forall k, k ∉ topic_ids g ->
          centrality_attr a' !! k = centrality_attr a !! k)
    /\ category_attr a' = category_attr a.
Proof.
  intros Habsent Hnodes. unfold Enricher.enrich_graph.
  unfold HierarchyOps.build_hierarchy_from_clusters.
  rewrite hierarchy_items_pairs, pairs_loop_absent by done. simpl.
  assert (forall k, k ∈ map Clusterer.id topics -> is_Some (get_node g k))
    as Hids.
  { intros k (t & -> & Ht)%list_elem_of_fmap. by apply Hnodes. }
  destruct (related_outer_spec cfg sims g (map Clusterer.id topics) Hids
              (mkRelated g 0 ∅) [])
    as (st & created & Hrun & (Hg & Hcount & _ & _) & _ & _).
  { unfold Aux.related_inv. simpl. rewrite app_nil_r.
    split; [by destruct g|]. split; [done|]. split; [|apply NoDup_nil_2].
    intros k. split; intros Hk;
      [by apply elem_of_empty in Hk|by apply elem_of_nil in Hk]. }
  unfold build_related_topics. rewrite Hrun.
  destruct (all_centralities_spec (st_graph st) a)
    as (a' & m' & Hcent & Hm & Ha & Hc).
  rewrite Hcent.
  exists (st_graph st), a', (st_edge_count st).
  assert (nodes (st_graph st) = nodes g) as Hn by (by rewrite Hg).
  assert (query (st_graph st) "Topic" = query g "Topic") as Hq
    by (unfold query; by rewrite Hn).
  assert (topic_ids (st_graph st) = topic_ids g) as Ht
    by (unfold topic_ids; by rewrite Hq).
  split; [done|]. split.
  { rewrite (centralities_size _ _ _ _ Hcent Hm), Hq. done. }
  split; [done|]. split; [|split; [|done]].
  - intros k Hk. rewrite Ha, Ht. by rewrite bool_decide_eq_true_2.
  - intros k Hk. rewrite Ha, Ht. by rewrite bool_decide_eq_false_2.
Qed.

End Enrich.

(** X20: [enrich_graph] stops at the first (child, parent) pair of the
    hierarchy whose ids are both nodes of the graph: it has then added that
    one SUBTOPIC_OF edge, it raises, and neither a RELATED_TOPIC edge nor a
    centrality has been written.  When there is no such pair and all topics
    are nodes, it returns: the graph is the one [build_related_topics]
    leaves, the logged counts are the number of child entries, the count of
    [build_related_topics] and the number of Topic nodes, and every Topic
    node carries its centrality on the final graph. *)
Theorem X20_enrich_graph (cfg : config) (g : MGraph) (a : node_attrs)
    (items : list (string * list string)) (sims : gmap (string * string) Q)
    (topics : list Clusterer.Topic) :
  (forall before c p after,
      AuxOps.child_pairs items = before ++ (c, p) :: after ->
      Forall (fun q => AuxOps.both_present g q = false) before ->
      AuxOps.both_present g (c, p) = true ->
      Enricher.enrich_graph cfg g a items sims topics
      = (mkGraph (nodes g)
           (edges g ++ [mkEdge c p "SUBTOPIC_OF"
                          (AuxOps.subtopic_data (lookup_similarity sims c p))]),
         a, inl (AuxOps.subtopic_exn (lookup_similarity sims c p))))
  /\ (Forall (fun q => AuxOps.both_present g q = false)
             (AuxOps.child_pairs items) ->
      (forall t, t ∈ topics -> is_Some (get_node g (Clusterer.id t))) ->
      exists g' a' related_count,
        build_related_topics cfg g (map Clusterer.id topics) sims
          = (g', inr related_count)
        /\ Enricher.enrich_graph cfg g a items sims topics
           = (g', a',
              inr (length (AuxOps.child_pairs items), related_count,
                   length (query g "Topic")))
        /\ nodes g' = nodes g
        /\ (forall k, k ∈ AuxOps.topic_ids g ->
              centrality_attr a' !! k = Some (calculate_centrality g' k))
        /\ (forall k, k ∉ AuxOps.topic_ids g ->
              centrality_attr a' !! k = centrality_attr a !! k)
        /\ category_attr a' = category_attr a).
Proof.
  split.
  - intros before c p after. apply enrich_raises.
  - apply enrich_returns.
Qed.

(** ** The pipeline: convert, similarities, hierarchy, enrich *)

Lemma child_pairs_elem (items : list (string * list string)) (c p : string) :
  (c, p) ∈ AuxOps.child_pairs items <->
  exists children, (p, children) ∈ items /\ c ∈ children.
Proof.
  unfold AuxOps.child_pairs. rewrite list_elem_of_In, in_flat_map. split.
  - intros ([p' children] & Hin & Hc). simpl in Hc.
    apply list_elem_of_In, list_elem_of_fmap in Hc as (c' & [= -> ->] & Hc').
    exists children. split; [by apply list_elem_of_In|done].
  - intros (children & Hin & Hc). exists (p, children).
    split; [by apply list_elem_of_In|]. simpl.
    apply list_elem_of_In, list_elem_of_fmap. by exists c.
Qed.

Lemma topic_id_present (g : MGraph) (k : string) :
  k ∈ AuxOps.topic_ids g -> is_Some (get_node g k).
Proof.
  intros (n & -> & Hn)%list_elem_of_fmap.
  rewrite (query_get_node _ _ _ Hn). by eexists.
Qed.

Lemma child_not_parent (H : gmap string (list string)) (ids : list string)
    (p c : string) (children : list string) :
  Aux.keys_and_children H ≡ₚ ids -> NoDup ids ->
  H !! p = Some children -> c ∈ children -> c <> p.
Proof.
  intros Hperm Hnd Hp Hc ->. rewrite <- Hperm in Hnd.
  unfold Aux.keys_and_children, Aux.entries_ids in Hnd.
  apply NoDup_app in Hnd as (_ & Hdisj & _).
  apply (Hdisj p).
  - apply list_elem_of_fmap. exists (p, children). split; [done|].
    by apply elem_of_map_to_list.
  - apply list_elem_of_In, in_concat. exists children.
    split; [|by apply list_elem_of_In].
    apply list_elem_of_In, list_elem_of_fmap. exists (p, children).
    split; [done|]. by apply elem_of_map_to_list.
Qed.

Lemma build_hierarchy_ids
    (cosine_similarity : list (list Q) -> matrix) (ccfg : Clusterer.config)
    (topics ts' : list Clusterer.Topic) (H : gmap string (list string)) :
  Clusterer.build_hierarchy cosine_similarity ccfg topics = Some (H, ts') ->
  map Clusterer.id ts' = map Clusterer.id topics.
Proof.
  unfold Clusterer.build_hierarchy.
  destruct (length topics <? 2)%nat; [by intros [= <- <-]|].
  destruct (Clusterer._compute_similarity_matrix _ _); [|done].
  destruct (Clusterer.assign_children _ _ _ _ _ _); [|done].
  intros [= <- <-]. apply apply_levels_ids.
Qed.

Lemma enrich_graph_ids (cfg : config) (g : MGraph) (a : node_attrs)
    (items : list (string * list string)) (sims : gmap (string * string) Q)
    (ts1 ts2 : list Clusterer.Topic) :
  map Clusterer.id ts1 = map Clusterer.id ts2 ->
  Enricher.enrich_graph cfg g a items sims ts1
  = Enricher.enrich_graph cfg g a items sims ts2.
Proof. intros Hids. unfold Enricher.enrich_graph. by rewrite Hids. Qed.

Lemma pipeline_enrich
    (cosine_similarity : list (list Q) -> matrix)
    (clusterer_cfg : Clusterer.config) (cfg : config)
    (g : MGraph) (a : node_attrs) (embeddings : gmap string (list Q))
    (sims : gmap (string * string) Q)
    (H : gmap string (list string)) (ts' : list Clusterer.Topic)
    (items : list (string * list string)) :
  let topics := Enricher.convert_to_topic_objects g a embeddings in
  Enricher.compute_similarity_matrix cosine_similarity topics = Some sims ->
  Clusterer.build_hierarchy cosine_similarity clusterer_cfg topics
    = Some (H, ts') ->
  items ≡ₚ map_to_list H ->
  match AuxOps.child_pairs items with
  | [] =>
      exists g' a' related_count,
        Enricher.enrich_graph cfg g a items sims ts'
        = (g', a', inr (0, related_count, length (query g "Topic")))
  | (c, p) :: _ =>
      exists s,
        lookup_similarity sims c p = Some s
        /\ Enricher.enrich_graph cfg g a items sims ts'
           = (mkGraph (nodes g)
                (edges g ++ [mkEdge c p "SUBTOPIC_OF" [("similarity", s)]]),
              a, inl (ValueError "Invalid format specifier"))
  end.
Proof.
  intros topics Hsims Hrun Hitems.
  rewrite (enrich_graph_ids cfg g a items sims ts' topics
             (build_hierarchy_ids _ _ _ _ _ Hrun)).
  destruct (convert_spec g a embeddings) as (Hnd & _ & Hids & _ & [embs Hembs]).
  fold topics in Hnd, Hids, Hembs.
  destruct (hierarchy_of_converted cosine_similarity clusterer_cfg g a embeddings)
    as (H0 & ts0 & Hrun0 & _ & Hperm & Hnodes).
  fold topics in Hrun0, Hperm. rewrite Hrun in Hrun0.
  injection Hrun0 as <- <-.
  destruct (AuxOps.child_pairs items) as [|[c p] rest] eqn:Hpairs.
  - destruct (enrich_returns cfg g a sims items topics)
      as (g' & a' & n & _ & Henrich & _).
    + rewrite Hpairs. by apply Forall_nil.
    + intros t Ht. apply topic_id_present, Hids, list_elem_of_fmap.
      by exists t.
    + rewrite Hpairs in Henrich. by exists g', a', n.
  - assert ((c, p) ∈ AuxOps.child_pairs items) as Hin
      by (rewrite Hpairs; by left).
    apply child_pairs_elem in Hin as (children & Hin & Hc).
    rewrite Hitems in Hin. apply elem_of_map_to_list in Hin.
    destruct (Hnodes p children Hin) as [Hp Hcs]. specialize (Hcs c Hc).
    assert (2 <= length topics) as Hlen.
    { destruct (Nat.lt_ge_cases (length topics) 2) as [Hlt|Hge]; [|done].
      unfold Clusterer.build_hierarchy in Hrun.
      rewrite (proj2 (Nat.ltb_lt _ _)) in Hrun by done.
      injection Hrun as <- _. by rewrite lookup_empty in Hin. }
    assert (c <> p) as Hcp
      by (eapply child_not_parent; [exact (Hperm Hlen)|done|done|done]).
    assert (topics <> []) as Hne by (intros Ht; rewrite Ht in Hlen; simpl in Hlen; lia).
    destruct (similarities_spec cosine_similarity topics embs Hne Hnd Hembs)
      as (d & Hd & Hvals & _).
    rewrite Hsims in Hd. injection Hd as <-.
    assert (exists s, lookup_similarity sims c p = Some s) as [s Hs].
    { destruct (hierarchy_entry_ids H p children Hin) as [Hp' Hc'].
      specialize (Hc' c Hc). rewrite (Hperm Hlen) in Hp', Hc'.
      apply list_elem_of_fmap in Hc' as (tc & -> & Htc).
      apply list_elem_of_fmap in Hp' as (tp & -> & Htp).
      apply list_elem_of_lookup in Htc as [i Hi].
      apply list_elem_of_lookup in Htp as [j Hj].
      unfold lookup_similarity.
      destruct (Nat.lt_total i j) as [Hlt|[Heq|Hgt]].
      - destruct (Hvals i j tc tp Hlt Hi Hj) as [-> _]. eauto.
      - subst j. rewrite Hi in Hj. injection Hj as ->. done.
      - destruct (Hvals j i tp tc Hgt Hj Hi) as [_ ->]. eauto. }
    exists s. split; [done|].
    rewrite (enrich_raises cfg g a sims items topics [] rest c p Hpairs).
    + by rewrite Hs.
    + by apply Forall_nil.
    + unfold AuxOps.both_present. simpl.
      destruct (topic_id_present g c Hcs) as [? ->].
      destruct (topic_id_present g p Hp) as [? ->]. done.
Qed.

(** X21: in the pipeline, where the topics come from
    [convert_to_topic_objects], the similarities from
    [compute_similarity_matrix] and the hierarchy from [build_hierarchy]
    (its items taken in any order), [enrich_graph] returns only when the
    hierarchy has no child at all; as soon as some topic is a child, it adds
    the SUBTOPIC_OF edge of the first child, with the similarity found for
    the pair, and raises ValueError, before any RELATED_TOPIC edge or
    centrality is written. *)
Theorem X21_pipeline_enrich_graph
    (cosine_similarity : list (list Q) -> matrix)
    (clusterer_cfg : Clusterer.config) (cfg : config)
    (g : MGraph) (a : node_attrs) (embeddings : gmap string (list Q))
    (sims : gmap (string * string) Q)
    (H : gmap string (list string)) (ts' : list Clusterer.Topic)
    (items : list (string * list string)) :
  let topics := Enricher.convert_to_topic_objects g a embeddings in
  Enricher.compute_similarity_matrix cosine_similarity topics = Some sims ->
  Clusterer.build_hierarchy cosine_similarity clusterer_cfg topics
    = Some (H, ts') ->
  items ≡ₚ map_to_list H ->
  match AuxOps.child_pairs items with
  | [] =>
      exists g' a' related_count,
        Enricher.enrich_graph cfg g a items sims ts'
        = (g', a', inr (0, related_count, length (query g "Topic")))
  | (c, p) :: _ =>
      exists s,
        lookup_similarity sims c p = Some s
        /\ Enricher.enrich_graph cfg g a items sims ts'
           = (mkGraph (nodes g)
                (edges g ++ [mkEdge c p "SUBTOPIC_OF" [("similarity", s)]]),
              a, inl (ValueError "Invalid format specifier"))
  end.
Proof. apply pipeline_enrich. Qed.

(** X21 on the graph of the three example topics, all with embeddings:
    the hierarchy has a child, so [enrich_graph] raises. *)
Lemma X21_pipeline_enrich_graph_witness :
  let embeddings : gmap string (list Q) :=
    list_to_map [("T1", [1; 0]%Q); ("T2", [0.98; 0.02]%Q); ("T3", [0; 1]%Q)] in
  let topics :=
    Enricher.convert_to_topic_objects Examples.topics_graph (mkAttrs ∅ ∅)
                                      embeddings in
  exists sims H ts' c p rest s,
    Enricher.compute_similarity_matrix Examples.cosine_123 topics = Some sims
    /\ Clusterer.build_hierarchy Examples.cosine_123 Examples.cfg_08 topics
       = Some (H, ts')
    /\ AuxOps.child_pairs (map_to_list H) = (c, p) :: rest
    /\ lookup_similarity sims c p = Some s
    /\ Enricher.enrich_graph Examples.builder_cfg Examples.topics_graph
         (mkAttrs ∅ ∅) (map_to_list H) sims ts'
       = (mkGraph (nodes Examples.topics_graph)
            (edges Examples.topics_graph
             ++ [mkEdge c p "SUBTOPIC_OF" [("similarity", s)]]),
          mkAttrs ∅ ∅, inl (ValueError "Invalid format specifier")).
Proof.
  intros embeddings topics.
  destruct (Enricher.compute_similarity_matrix Examples.cosine_123 topics)
    as [sims|] eqn:Hs; [|vm_compute in Hs; discriminate].
  destruct (Clusterer.build_hierarchy Examples.cosine_123 Examples.cfg_08 topics)
    as [[H ts']|] eqn:Hb; [|vm_compute in Hb; discriminate].
  pose proof (X21_pipeline_enrich_graph Examples.cosine_123 Examples.cfg_08
                Examples.builder_cfg Examples.topics_graph (mkAttrs ∅ ∅)
                embeddings sims H ts' (map_to_list H) Hs Hb
                (Permutation_refl _)) as HX.
  destruct (AuxOps.child_pairs (map_to_list H)) as [|[c p] rest] eqn:Hcp.
  - exfalso. vm_compute in Hb. injection Hb as <- _.
    vm_compute in Hcp. discriminate.
  - destruct HX as (s & Hl & He).
    exists sims, H, ts', c, p, rest, s. repeat split; assumption.
Defined.

(** ** calculate_diversity_metrics: ranges of the metrics *)

Section Diversity.

Import Analysis.

Local Open Scope R_scope.

Lemma ln_le_pred (x : R) : 0 < x -> ln x <= x - 1.
Proof.
  intros Hx. pose proof (exp_ineq1_le (ln x)) as H.
  rewrite exp_ln in H by done. Lra.lra.
Qed.

(** One term of Gibbs' inequality. *)
Lemma gibbs_term (c p : R) :
  0 < c -> 0 <= p -> p - / c <= p * ln p + p * ln c.
Proof.
  intros Hc [Hp|<-].
  - assert (0 < / (p * c)) as Hinv
      by (apply Rinv_0_lt_compat, Rmult_lt_0_compat; done).
    pose proof (ln_le_pred _ Hinv) as Hln.
    rewrite ln_Rinv in Hln by (by apply Rmult_lt_0_compat).
    rewrite ln_mult in Hln by done.
    apply (Rmult_le_compat_l p) in Hln; [|Lra.lra].
    replace (p * (/ (p * c) - 1)) with (/ c - p) in Hln
      by (field; split; Lra.lra).
    Lra.lra.
  - pose proof (Rinv_0_lt_compat c Hc). Lra.lra.
Qed.

Lemma gibbs_sum (c : R) (l : list R) :
  0 < c -> Forall (fun p => 0 <= p) l ->
  Rsum l - INR (length l) * / c
  <= Rsum (map (fun p => p * ln p) l) + Rsum l * ln c.
Proof.
  intros Hc Hl. induction Hl as [|p l Hp Hl IH].
  - simpl. Lra.lra.
  - pose proof (gibbs_term c p Hc Hp) as Ht.
    change (length (p :: l)) with (S (length l)). rewrite S_INR.
    cbn [map Rsum fold_right]. fold (Rsum l).
    fold (Rsum (map (fun p => p * ln p) l)). Lra.lra.
Qed.

Lemma entropy_terms_nonpos (l : list R) :
  Forall (fun p => 0 <= p <= 1) l ->
  Rsum (map (fun p => p * ln p) l) <= 0.
Proof.
  intros Hl. induction Hl as [|p l [Hp0 Hp1] Hl IH]; simpl; [Lra.lra|].
  fold (Rsum (map (fun p => p * ln p) l)).
  assert (p * ln p <= 0); [|Lra.lra].
  destruct Hp0 as [Hp0|<-]; [|Lra.lra].
  pose proof (ln_le_pred p Hp0).
  assert (0 <= p * - ln p) by (apply Rmult_le_pos; Lra.lra). Lra.lra.
Qed.

Lemma Rsum_log2 (l : list R) :
  Rsum (map (fun p => p * log2 p) l)
  = Rsum (map (fun p => p * ln p) l) / ln 2.
Proof.
  pose proof ln_2_pos.
  induction l as [|p l IH]; simpl.
  - unfold Rdiv. by rewrite Rmult_0_l.
  - fold (Rsum (map (fun p => p * log2 p) l)).
    fold (Rsum (map (fun p => p * ln p) l)).
    rewrite IH. unfold log2. field. Lra.lra.
Qed.

Lemma Rsum_ratios (fs : list nat) (t : R) :
  Rsum (map (fun f => INR f / t) fs) = INR (list_sum fs) / t.
Proof.
  induction fs as [|f fs IH]; simpl.
  - unfold Rdiv. by rewrite Rmult_0_l.
  - fold (Rsum (map (fun f => INR f / t) fs)).
    rewrite IH, plus_INR. unfold Rdiv. Lra.lra.
Qed.

Lemma ratios_unit (fs : list nat) :
  (0 < list_sum fs)%nat ->
  Forall (fun p => 0 <= p <= 1)
         (map (fun f => INR f / INR (list_sum fs)) fs).
Proof.
  intros Hpos. apply Forall_forall. intros p (f & -> & Hf)%list_elem_of_fmap.
  assert (f <= list_sum fs)%nat as Hle.
  { clear Hpos. induction Hf as [f fs|f f' fs Hf IH]; simpl; lia. }
  assert (0 < INR (list_sum fs)) as Ht by (by apply lt_0_INR).
  apply le_INR in Hle. pose proof (pos_INR f).
  split.
  - apply Rmult_le_pos; [done|]. by apply Rlt_le, Rinv_0_lt_compat.
  - apply Rmult_le_reg_r with (INR (list_sum fs)); [done|].
    unfold Rdiv. rewrite Rmult_assoc, Rinv_l, Rmult_1_r, Rmult_1_l; [done|].
    Lra.lra.
Qed.

Lemma shannon_entropy_bounds (fs : list nat) :
  (0 < list_sum fs)%nat ->
  0 <= shannon_entropy fs <= log2 (INR (length fs)).
Proof.
  intros Hpos. pose proof ln_2_pos as H2.
  assert (0 < INR (list_sum fs)) as Ht by (by apply lt_0_INR).
  assert (0 < length fs)%nat as Hlen by (destruct fs; simpl in *; lia).
  assert (0 < INR (length fs)) as Hn by (by apply lt_0_INR).
  pose proof (ratios_unit fs Hpos) as Hunit.
  set (ps := map (fun f => INR f / INR (list_sum fs)) fs) in *.
  assert (shannon_entropy fs = - (Rsum (map (fun p => p * ln p) ps) / ln 2))
    as ->.
  { unfold shannon_entropy. rewrite <- Rsum_log2. unfold ps.
    by rewrite map_map. }
  assert (Rsum ps = 1) as Hone.
  { unfold ps. rewrite Rsum_ratios. unfold Rdiv. rewrite Rinv_r; [done|].
    Lra.lra. }
  assert (length ps = length fs) as Hlps by apply length_map.
  pose proof (entropy_terms_nonpos ps Hunit) as Hneg.
  assert (Forall (fun p => 0 <= p) ps) as Hnn.
  { eapply Forall_impl; [exact Hunit|]. by intros p [? _]. }
  pose proof (gibbs_sum (INR (length fs)) ps Hn Hnn) as Hg.
  rewrite Hone, Hlps, Rinv_r, Rmult_1_l in Hg by Lra.lra.
  set (s := Rsum (map (fun p => p * ln p) ps)) in *.
  assert (0 < / ln 2) as Hi by (by apply Rinv_0_lt_compat).
  unfold log2, Rdiv. split.
  - assert (0 <= - s * / ln 2) by (apply Rmult_le_pos; Lra.lra). Lra.lra.
  - assert (0 <= (ln (INR (length fs)) + s) * / ln 2)
      by (apply Rmult_le_pos; Lra.lra).
    Lra.lra.
Qed.

Lemma entropy_pair_bounds (fs : list nat) :
  fs <> [] ->
  0 <= fst (entropy_pair fs (length fs)) <= log2 (INR (length fs))
  /\ 0 <= snd (entropy_pair fs (length fs)) <= 1.
Proof.
  intros Hne.
  assert (1 <= length fs)%nat as Hlen by (destruct fs; [done|simpl; lia]).
  assert (0 <= log2 (INR (length fs))) as Hmax.
  { destruct (decide (length fs <= 1)%nat) as [Hs|Hl].
    - rewrite (log2_small _ Hs). Lra.lra.
    - apply Rlt_le, log2_large. lia. }
  destruct (entropy_pair_spec fs (length fs)) as (H0 & H1 & H2 & H3).
  destruct (Nat.eq_dec (list_sum fs) 0%nat) as [Hz|Hp].
  - rewrite (H0 Hz). simpl. Lra.lra.
  - assert (0 < list_sum fs)%nat as Hpos by lia.
    pose proof (shannon_entropy_bounds fs Hpos) as [Hlo Hhi].
    rewrite (H1 Hpos). split; [done|].
    destruct (decide (length fs <= 1)%nat) as [Hs|Hl].
    + rewrite (H2 Hpos Hs). Lra.lra.
    + rewrite (H3 Hpos ltac:(lia)).
      assert (0 < log2 (INR (length fs))) as Hlg by (apply log2_large; lia).
      assert (0 < / log2 (INR (length fs))) as Hi
        by (by apply Rinv_0_lt_compat).
      unfold Rdiv. split.
      * apply Rmult_le_pos; Lra.lra.
      * apply Rmult_le_reg_r with (log2 (INR (length fs))); [done|].
        rewrite Rmult_assoc, Rinv_l, Rmult_1_r, Rmult_1_l; Lra.lra.
Qed.

Lemma list_max_elem (l : list nat) : l <> [] -> list_max l ∈ l.
Proof.
  induction l as [|x l IH]; [done|]. intros _.
  change (list_max (x :: l)) with (Nat.max x (list_max l)).
  destruct l as [|y l].
  - simpl. rewrite Nat.max_0_r. by left.
  - specialize (IH ltac:(done)).
    destruct (Nat.max_spec x (list_max (y :: l))) as [[_ ->]|[_ ->]];
      [by right|by left].
Qed.

Lemma list_max_ge (l : list nat) (x : nat) : x ∈ l -> (x <= list_max l)%nat.
Proof.
  intros Hx. pose proof (proj1 (list_max_le l (list_max l)) (Nat.le_refl _))
    as Hall.
  rewrite List.Forall_forall in Hall. by apply Hall, list_elem_of_In.
Qed.

Lemma filter_length_map {A B} (f : A -> B) (p : B -> bool) (l : list A) :
  length (List.filter p (map f l))
  = length (List.filter (fun x => p (f x)) l).
Proof.
  induction l as [|x l IH]; [done|]. simpl.
  destruct (p (f x)); simpl; by rewrite IH.
Qed.

Lemma diversity_ranges (g : MGraph) :
  query g "Page" <> [] -> query g "Topic" <> [] ->
  let topics_of page :=
    length (get_edges g (Some (node_id page)) None (Some "HAS_TOPIC")) in
  exists m,
    calculate_diversity_metrics g = Some m
    /\ total_pages m = length (query g "Page")
    /\ total_topics m = length (query g "Topic")
    /\ 0 <= topic_coverage m <= 1
    /\ topic_coverage m * INR (total_pages m)
       = INR (length (List.filter (fun page => (0 <? topics_of page)%nat)
                                  (query g "Page")))
    /\ (forall page, page ∈ query g "Page" ->
          (topics_of page <= max_topics_per_page m)%nat)
    /\ (exists page, page ∈ query g "Page"
                     /\ topics_of page = max_topics_per_page m)
    /\ 0 <= avg_topics_per_page m <= INR (max_topics_per_page m)
    /\ 0 <= median_topics_per_page m <= INR (max_topics_per_page m)
    /\ avg_topics_per_page m * INR (total_pages m)
       = INR (length (List.filter
                        (fun e => bool_decide (from_node e ∈ AuxOps.page_ids g)
                                  && bool_decide (edge_type e = "HAS_TOPIC"))
                        (edges g)))
    /\ 0 <= topic_entropy m <= log2 (INR (total_topics m))
    /\ 0 <= normalized_entropy m <= 1.
Proof.
  intros Hp Ht topics_of.
  assert (calculate_diversity_metrics g
          = let tpp := map topics_of (query g "Page") in
            let e := entropy_pair (topic_frequencies g (query g "Topic"))
                                  (length (query g "Topic")) in
            Some (mkMetrics (length (query g "Page"))
                    (length (query g "Topic"))
                    (INR (length (List.filter (fun k => (0 <? k)%nat) tpp))
                     / INR (length (query g "Page")))
                    (Rmean tpp) (Rmedian tpp) (list_max tpp) (fst e) (snd e)))
    as Heq.
  { unfold calculate_diversity_metrics.
    destruct (query g "Page"); [done|]. by destruct (query g "Topic"). }
  rewrite Heq. clear Heq. cbv zeta.
  pose proof (query_NoDup g "Page") as Hnd.
  set (pages := query g "Page") in *. set (topics := query g "Topic") in *.
  set (tpp := map topics_of pages).
  assert (tpp = map topics_of pages) as Htpp by done.
  assert (length tpp = length pages) as Hlen by apply length_map.
  assert (tpp <> []) as Hne by (destruct pages; [done|by rewrite Htpp]).
  assert (0 < length pages)%nat as Hpos by (destruct pages; [done|simpl; lia]).
  assert (0 < INR (length pages)) as HposR by (by apply lt_0_INR).
  set (fs := topic_frequencies g topics).
  assert (length fs = length topics) as Hfl by apply length_map.
  assert (fs <> []) as Hfne by (destruct topics; [done|by unfold fs]).
  pose proof (entropy_pair_bounds fs Hfne) as [He Hn]. rewrite Hfl in He, Hn.
  assert (forall y, y ∈ tpp -> (0 <= y <= list_max tpp)%nat) as Hall.
  { intros y Hy. split; [lia|by apply list_max_ge]. }
  eexists. split; [reflexivity|].
  cbn [total_pages total_topics topic_coverage avg_topics_per_page
       median_topics_per_page max_topics_per_page topic_entropy
       normalized_entropy].
  fold tpp fs.
  assert (length (List.filter (fun k => (0 <? k)%nat) tpp) <= length pages)%nat
    as Hcov by (rewrite <- Hlen; apply List.filter_length_le).
  split; [done|]. split; [done|]. split.
  { pose proof (ratio_bounds
                    (length (List.filter (fun k => (0 <? k)%nat) tpp))
                    (length pages) 0%nat 1%nat Hpos ltac:(lia)) as Hr.
    simpl in Hr. exact Hr. }
  split.
  { rewrite Htpp, filter_length_map. unfold Rdiv.
    rewrite Rmult_assoc, Rinv_l, Rmult_1_r; [done|Lra.lra]. }
  split.
  { intros page Hin. apply list_max_ge. rewrite Htpp.
    apply list_elem_of_fmap. by exists page. }
  split.
  { pose proof (list_max_elem tpp Hne) as Hm. rewrite Htpp in Hm at 2.
    apply list_elem_of_fmap in Hm as (page & Hm & Hin). by exists page. }
  split; [exact (Rmean_bounds tpp 0%nat _ Hne Hall)|].
  split; [exact (Rmedian_bounds tpp 0%nat _ Hne Hall)|].
  split; [|done].
  rewrite <- Hlen, (Rmean_total tpp Hne). f_equal.
  rewrite <- (edges_by_source (edges g) "HAS_TOPIC" (AuxOps.page_ids g) Hnd).
  unfold tpp, AuxOps.page_ids, get_edges. by rewrite map_map.
Qed.

End Diversity.

(** X22: when the graph has a Page node and a Topic node,
    [calculate_diversity_metrics] returns metrics within their ranges:
    [topic_coverage] lies in [0, 1] and is the share of the pages with at
    least one outgoing HAS_TOPIC edge; [max_topics_per_page] is the number
    of such edges of some page and bounds that of every page; the average
    and the median lie between 0 and that maximum, and the average times the
    number of pages is the number of HAS_TOPIC edges that leave a Page node;
    [topic_entropy] lies between 0 and log2 of the number of topics, and
    [normalized_entropy] in [0, 1] (in exact real arithmetic). *)
Theorem X22_diversity_metrics_ranges (g : MGraph) :
  query g "Page" <> [] -> query g "Topic" <> [] ->
  let topics_of page :=
    length (get_edges g (Some (node_id page)) None (Some "HAS_TOPIC")) in
  exists m,
    Analysis.calculate_diversity_metrics g = Some m
    /\ Analysis.total_pages m = length (query g "Page")
    /\ Analysis.total_topics m = length (query g "Topic")
    /\ (0 <= Analysis.topic_coverage m <= 1)%R
    /\ (Analysis.topic_coverage m * INR (Analysis.total_pages m)
        = INR (length (List.filter (fun page => (0 <? topics_of page)%nat)
                                   (query g "Page"))))%R
    /\ (forall page, page ∈ query g "Page" ->
          topics_of page <= Analysis.max_topics_per_page m)
    /\ (exists page, page ∈ query g "Page"
                     /\ topics_of page = Analysis.max_topics_per_page m)
    /\ (0 <= Analysis.avg_topics_per_page m
        <= INR (Analysis.max_topics_per_page m))%R
    /\ (0 <= Analysis.median_topics_per_page m
        <= INR (Analysis.max_topics_per_page m))%R
    /\ (Analysis.avg_topics_per_page m * INR (Analysis.total_pages m)
        = INR (length (List.filter
                         (fun e => bool_decide (from_node e ∈ AuxOps.page_ids g)
                                   && bool_decide (edge_type e = "HAS_TOPIC"))
                         (edges g))))%R
    /\ (0 <= Analysis.topic_entropy m
        <= Analysis.log2 (INR (Analysis.total_topics m)))%R
    /\ (0 <= Analysis.normalized_entropy m <= 1)%R.
Proof. apply diversity_ranges. Qed.

(** X22 on the graph of one page and four topics. *)
Lemma X22_diversity_metrics_ranges_witness :
  exists m,
    Analysis.calculate_diversity_metrics Examples.diversity_graph = Some m
    /\ (0 <= Analysis.topic_coverage m <= 1)%R
    /\ (0 <= Analysis.normalized_entropy m <= 1)%R.
Proof.
  destruct (X22_diversity_metrics_ranges Examples.diversity_graph)
    as (m & Hm & _ & _ & Hc & _ & _ & _ & _ & _ & _ & _ & Hn).
  - vm_compute. discriminate.
  - vm_compute. discriminate.
  - exists m. split; [exact Hm|]. split; [exact Hc|exact Hn].
Defined.
